(** * torch-pme: potentials and the parameter validation gate

    A shallow embedding of [torchpme/lib/potentials.py] and
    [torchpme/_utils.py].

    Tensor elements are modelled as exact reals extended with the three
    IEEE special values ([tval]); rounding and overflow are left out, and
    the model has a single (positive) zero.  The [torch.special]
    primitives are parameters of the development, constrained by their
    documented contracts; the complete Gamma function they refer to is
    defined here as Euler's infinite product. *)

From Stdlib Require Import ZArith Reals Lra Lia List String Bool.
From Stdlib Require Import ClassicalEpsilon.
Import ListNotations.
Open Scope R_scope.

(* ================================================================== *)
(** * Part I: definitions                                              *)
(* ================================================================== *)

(** ** Tensor elements *)

Inductive tval : Type :=
| Finite (r : R)
| PInf
| NInf
| NaN.

Definition tensor : Type := list tval.

Definition Rltb (a b : R) : bool := if Rlt_dec a b then true else false.
Definition Rleb (a b : R) : bool := if Rle_dec a b then true else false.
Definition Reqb (a b : R) : bool := if Req_dec_T a b then true else false.

(** [b] is (the real value of) an integer, resp. an odd integer. *)
Definition is_int (b : R) : bool := Reqb (IZR (Int_part b)) b.
Definition odd_int (b : R) : bool := is_int b && Z.odd (Int_part b).

Definition tneg (a : tval) : tval :=
  match a with
  | Finite r => Finite (- r)
  | PInf => NInf
  | NInf => PInf
  | NaN => NaN
  end.

Definition tadd (a b : tval) : tval :=
  match a, b with
  | Finite x, Finite y => Finite (x + y)
  | NaN, _ | _, NaN => NaN
  | PInf, NInf | NInf, PInf => NaN
  | PInf, _ | _, PInf => PInf
  | NInf, _ | _, NInf => NInf
  end.

Definition tsub (a b : tval) : tval := tadd a (tneg b).

(** An infinity scaled by a finite factor. *)
Definition scale_inf (inf : tval) (r : R) : tval :=
  if Rltb 0 r then inf else if Rltb r 0 then tneg inf else NaN.

Definition tmul (a b : tval) : tval :=
  match a, b with
  | Finite x, Finite y => Finite (x * y)
  | NaN, _ | _, NaN => NaN
  | Finite x, inf => scale_inf inf x
  | inf, Finite y => scale_inf inf y
  | PInf, PInf | NInf, NInf => PInf
  | PInf, NInf | NInf, PInf => NInf
  end.

Definition tdiv (a b : tval) : tval :=
  match a, b with
  | Finite x, Finite y =>
      if Reqb y 0 then scale_inf PInf x else Finite (x / y)
  | NaN, _ | _, NaN => NaN
  | Finite _, _ => Finite 0
  | inf, Finite y => if Reqb y 0 then inf else scale_inf inf y
  | _, _ => NaN
  end.

Definition tsqrt (a : tval) : tval :=
  match a with
  | Finite r => if Rltb r 0 then NaN else Finite (sqrt r)
  | PInf => PInf
  | NInf => NaN
  | NaN => NaN
  end.

Definition texp (a : tval) : tval :=
  match a with
  | Finite r => Finite (exp r)
  | PInf => PInf
  | NInf => Finite 0
  | NaN => NaN
  end.

(** [pow] with the IEEE 754 / C99 special cases. *)
Definition tpow (x y : tval) : tval :=
  match y with
  | Finite b =>
      if Reqb b 0 then Finite 1
      else
        match x with
        | Finite a =>
            if Rltb 0 a then Finite (Rpower a b)
            else if Reqb a 0 then (if Rltb 0 b then Finite 0 else PInf)
            else if is_int b then
              Finite ((if odd_int b then -1 else 1) * Rpower (- a) b)
            else NaN
        | PInf => if Rltb 0 b then PInf else Finite 0
        | NInf =>
            if Rltb 0 b then (if odd_int b then NInf else PInf) else Finite 0
        | NaN => NaN
        end
  | PInf =>
      match x with
      | Finite a =>
          if Rltb (Rabs a) 1 then Finite 0
          else if Reqb (Rabs a) 1 then Finite 1
          else PInf
      | PInf | NInf => PInf
      | NaN => NaN
      end
  | NInf =>
      match x with
      | Finite a =>
          if Rltb (Rabs a) 1 then PInf
          else if Reqb (Rabs a) 1 then Finite 1
          else Finite 0
      | PInf | NInf => Finite 0
      | NaN => NaN
      end
  | NaN =>
      match x with
      | Finite a => if Reqb a 1 then Finite 1 else NaN
      | _ => NaN
      end
  end.

(** [t == 0], elementwise. *)
Definition teq0 (t : tval) : bool :=
  match t with
  | Finite r => Reqb r 0
  | _ => false
  end.

(** [torch.where(cond, 0.0, other)] on one element. *)
Definition twhere0 (cond : bool) (other : tval) : tval :=
  if cond then Finite 0 else other.

Definition torch_sqrt (t : tensor) : tensor := map tsqrt t.
Definition torch_pow (t : tensor) (e : tval) : tensor :=
  map (fun v => tpow v e) t.

Fixpoint tensor_add (a b : tensor) : tensor :=
  match a, b with
  | x :: a', y :: b' => tadd x y :: tensor_add a' b'
  | _, _ => []
  end.

(** ** The complete Gamma function

    Euler's infinite product
    [Gamma x = (1/x) * prod_{k>=1} (1 + 1/k)^x / (1 + x/k)],
    as the limit of its partial products. *)

Fixpoint sum_from1 (f : nat -> R) (n : nat) : R :=
  match n with
  | O => 0
  | S m => sum_from1 f m + f (S m)
  end.

Fixpoint prod_from1 (f : nat -> R) (n : nat) : R :=
  match n with
  | O => 1
  | S m => prod_from1 f m * f (S m)
  end.

Definition euler_factor (x : R) (k : nat) : R :=
  Rpower (1 + / INR k) x / (1 + x / INR k).

Definition euler_prod (x : R) (n : nat) : R :=
  / x * prod_from1 (euler_factor x) n.

(** The logarithm of one factor, and the telescoping term
    [1 / (k (k+1))] that bounds it. *)
Definition log_factor (x : R) (k : nat) : R :=
  x * ln (1 + / INR k) - ln (1 + x / INR k).

Definition tele (k : nat) : R := / (INR k * (INR k + 1)).

(** The limit of a real sequence (meaningful when it converges). *)
Definition lim_seq (u : nat -> R) : R :=
  epsilon (inhabits 0) (fun l => Un_cv u l).

Definition Gamma (x : R) : R := lim_seq (euler_prod x).

(** The regularized lower incomplete Gamma function, by its power series
    [P(a,x) = x^a e^(-x) sum_n x^n / Gamma(a+n+1)] (for [a > 0]). *)
Definition reg_lower_gamma (a x : R) : R :=
  if Rltb 0 x then
    Rpower x a * exp (- x) *
    lim_seq (sum_f_R0 (fun n => x ^ n / Gamma (a + INR n + 1)))
  else 0.

(** The regularized upper incomplete Gamma function: [Q = 1 - P] for
    [a > 0], continued to negative non-integer [a] by the recurrence
    [Q(a,x) = Q(a+1,x) - x^a e^(-x) / Gamma(a+1)], applied [n] times. *)
Fixpoint reg_upper_gamma_shift (n : nat) (a x : R) : R :=
  match n with
  | O => 1 - reg_lower_gamma a x
  | S m =>
      reg_upper_gamma_shift m (a + 1) x
      - Rpower x a * exp (- x) / Gamma (a + 1)
  end.

Definition reg_upper_gamma (a x : R) : R :=
  reg_upper_gamma_shift (Z.to_nat (- Int_part a)) a x.

(** ** Python exceptions *)

Inductive py_class : Type :=
| TypeError
| ValueError
| IndexError
| NotImplementedError
| RuntimeError
| OverflowError.

(** The raise sites of [_validate_parameters], in source order. *)
Inductive gate_check : Type :=
| PositionsDtype
| PositionsDevice
| PositionsShape
| CellShape
| CellDtype
| CellDevice
| CellDeterminant
| ChargesDim
| ChargesShape
| ChargesDtype
| ChargesDevice
| NeighborIndicesShape
| NeighborIndicesDevice
| NeighborShapes
| NeighborDistancesDevice
| NeighborDistancesDtype.

Inductive py_message : Type :=
| GateCheck (c : gate_check)
    (** one of the messages of the gate's [raise] statements *)
| LenOfZeroDim
    (** ["len() of a 0-d tensor"], from [len(t)] *)
| TupleIndexOutOfRange
    (** ["tuple index out of range"], from [t.shape[i]] *)
| TensorIndexOutOfRange
    (** too many indices, or an index out of bounds, from [t[:, 0]] *)
| NotImplementedFor (method cls : string)
    (** ["<method> is not implemented for <cls>"] *)
| TorchMessage
    (** a message composed inside a torch primitive *)
| NumericalResultOutOfRange.
    (** ["(34, 'Numerical result out of range')"], from a power of two
        Python floats *)

Record py_exception : Type := Exception {
  exc_class : py_class;
  exc_message : py_message
}.

Inductive result (A : Type) : Type :=
| Ok (a : A)
| Raise (e : py_exception).
Arguments Ok {A} a.
Arguments Raise {A} e.

Definition bind {A B : Type} (m : result A) (k : A -> result B) : result B :=
  match m with
  | Ok a => k a
  | Raise e => Raise e
  end.

Declare Scope result_scope.
Delimit Scope result_scope with result.
Notation "x <- m ;; k" := (bind m (fun x => k))
  (at level 61, m at next level, right associativity) : result_scope.
Notation "m ;;; k" := (bind m (fun _ => k))
  (at level 61, right associativity) : result_scope.

(** [if cond: raise cls(msg)] *)
Definition raise_if (cond : bool) (cls : py_class) (msg : py_message)
  : result unit :=
  if cond then Raise (Exception cls msg) else Ok tt.

(** ** potentials.py *)

(** [from torch.special import gammainc, gammaincc, gammaln]: the three
    primitives the module imports. *)
Class TorchSpecial : Type := {
  gammainc : tval -> tval -> tval;
  gammaincc : tval -> tval -> tval;
  gammaln : tval -> tval
}.

(** [def gamma(x): return torch.exp(gammaln(x))] *)
Definition gamma {sp : TorchSpecial} (x : tval) : tval := texp (gammaln x).

Definition not_implemented {A : Type} (method cls : string) : result A :=
  Raise (Exception NotImplementedError (NotImplementedFor method cls)).

(** A method that calls another method on [self] takes the resolved
    method as an argument, so that a subclass override is what runs;
    [cls] is [self.__class__.__name__]. *)
Module BasePotential.

Definition from_dist (cls : string) (dist : tensor) : result tensor :=
  not_implemented "from_dist" cls.

Definition from_dist_sq (self_from_dist : tensor -> result tensor)
    (dist_sq : tensor) : result tensor :=
  self_from_dist (torch_sqrt dist_sq).

End BasePotential.

Module RangeSeparatedPotential.

Definition sr_from_dist (cls : string) (dist : tensor) : result tensor :=
  not_implemented "sr_from_dist" cls.

Definition lr_from_dist (cls : string) (dist : tensor) : result tensor :=
  not_implemented "lr_from_dist" cls.

Definition from_dist (self_sr_from_dist self_lr_from_dist
                        : tensor -> result tensor)
    (dist : tensor) : result tensor :=
  (sr <- self_sr_from_dist dist ;;
   lr <- self_lr_from_dist dist ;;
   Ok (tensor_add sr lr))%result.

Definition from_dist_sq (self_sr_from_dist self_lr_from_dist
                           : tensor -> result tensor)
    (dist_sq : tensor) : result tensor :=
  let dist := torch_sqrt dist_sq in
  (sr <- self_sr_from_dist dist ;;
   lr <- self_lr_from_dist dist ;;
   Ok (tensor_add sr lr))%result.

End RangeSeparatedPotential.

Module InversePowerLawPotential.

(** The instance attributes set by [__init__]. *)
Record t : Type := Build {
  exponent : tval;
  smearing : tval
}.

(** The evaluators on one element of the input tensor. *)

Definition from_dist1 (self : t) (dist : tval) : tval :=
  tpow dist (tneg (exponent self)).

Definition from_dist_sq1 (self : t) (dist_sq : tval) : tval :=
  tpow dist_sq (tdiv (tneg (exponent self)) (Finite 2)).

Definition sr_from_dist1 {sp : TorchSpecial} (self : t) (dist : tval)
  : tval :=
  let exponent := exponent self in
  let x := tdiv (tmul (Finite 0.5) (tpow dist (Finite 2)))
                (tpow (smearing self) (Finite 2)) in
  let peff := tdiv exponent (Finite 2) in
  let prefac :=
    tdiv (Finite 1)
         (tpow (tmul (Finite 2) (tpow (smearing self) (Finite 2))) peff) in
  tdiv (tmul prefac (gammaincc peff x)) (tpow x peff).

Definition lr_from_dist1 {sp : TorchSpecial} (self : t) (dist : tval)
  : tval :=
  let exponent := exponent self in
  let x := tdiv (tmul (Finite 0.5) (tpow dist (Finite 2)))
                (tpow (smearing self) (Finite 2)) in
  let peff := tdiv exponent (Finite 2) in
  let prefac :=
    tdiv (Finite 1)
         (tpow (tmul (Finite 2) (tpow (smearing self) (Finite 2))) peff) in
  tdiv (tmul prefac (gammainc peff x)) (tpow x peff).

Definition from_k_sq1 {sp : TorchSpecial} (self : t) (k_sq : tval)
  : tval :=
  let exponent := exponent self in
  let peff := tdiv (tsub (Finite 3) exponent) (Finite 2) in
  let prefac :=
    tmul (tdiv (Finite (Rpower PI 1.5)) (gamma (tdiv exponent (Finite 2))))
         (tpow (tmul (Finite 2) (tpow (smearing self) (Finite 2))) peff) in
  let x := tmul (tmul (Finite 0.5) (tpow (smearing self) (Finite 2))) k_sq in
  twhere0 (teq0 k_sq)
    (tmul (tdiv (tmul prefac (gammaincc peff x)) (tpow x peff))
          (gamma peff)).

(** The third argument of [torch.where] in [from_k_sq], on one element:
    the value of the formula, which [torch.where] selects where
    [k_sq == 0] is false. *)
Definition from_k_sq_unselected {sp : TorchSpecial} (self : t) (k_sq : tval)
  : tval :=
  let exponent := exponent self in
  let peff := tdiv (tsub (Finite 3) exponent) (Finite 2) in
  let prefac :=
    tmul (tdiv (Finite (Rpower PI 1.5)) (gamma (tdiv exponent (Finite 2))))
         (tpow (tmul (Finite 2) (tpow (smearing self) (Finite 2))) peff) in
  let x := tmul (tmul (Finite 0.5) (tpow (smearing self) (Finite 2))) k_sq in
  tmul (tdiv (tmul prefac (gammaincc peff x)) (tpow x peff)) (gamma peff).

(** The methods: every operation is elementwise, with the scalars
    broadcast. *)

Definition from_dist (self : t) (dist : tensor) : result tensor :=
  Ok (map (from_dist1 self) dist).

Definition from_dist_sq (self : t) (dist_sq : tensor) : result tensor :=
  Ok (map (from_dist_sq1 self) dist_sq).

Definition sr_from_dist {sp : TorchSpecial} (self : t) (dist : tensor)
  : result tensor :=
  Ok (map (sr_from_dist1 self) dist).

Definition lr_from_dist {sp : TorchSpecial} (self : t) (dist : tensor)
  : result tensor :=
  Ok (map (lr_from_dist1 self) dist).

Definition from_k_sq {sp : TorchSpecial} (self : t) (k_sq : tensor)
  : result tensor :=
  Ok (map (from_k_sq1 self) k_sq).

End InversePowerLawPotential.

(** *** A Python float as the smearing

    [smearing] is a [float] or a [torch.Tensor].  [sr_from_dist],
    [lr_from_dist] and [from_k_sq] evaluate [self.smearing ** 2].  On a
    tensor that is torch's power, which the kernels above have.  On a
    Python float it is [float.__pow__], which raises [OverflowError]
    when the square of a finite float is out of the range of a double;
    every later operation has a tensor operand, or is a product of
    floats, and returns [inf] where it overflows. *)

(** The least real that rounds to infinity in double precision, half an
    ulp above the largest double [2^1024 - 2^971]. *)
Definition double_overflow : R := 2 ^ 1024 - 2 ^ 970.

Inductive smearing_arg : Type :=
| FloatSmearing (sigma : tval)
| TensorSmearing (sigma : tval).

Definition smearing_of (s : smearing_arg) : tval :=
  match s with
  | FloatSmearing sigma => sigma
  | TensorSmearing sigma => sigma
  end.

(** [self.smearing ** 2] *)
Definition smearing_squared (s : smearing_arg) : result tval :=
  match s with
  | FloatSmearing (Finite v) =>
      if Rleb double_overflow (v * v)
      then Raise (Exception OverflowError NumericalResultOutOfRange)
      else Ok (Finite (v * v))
  | FloatSmearing sigma => Ok (tpow sigma (Finite 2))
  | TensorSmearing sigma => Ok (tpow sigma (Finite 2))
  end.

(** [InversePowerLawPotential(exponent, smearing).from_k_sq(k_sq)]: the
    call ends where [self.smearing ** 2] raises, and is the method on
    the elements otherwise. *)
Definition from_k_sq_call {sp : TorchSpecial} (exponent : tval)
    (smearing : smearing_arg) (k_sq : tensor) : result tensor :=
  bind (smearing_squared smearing)
    (fun _ =>
       InversePowerLawPotential.from_k_sq
         (InversePowerLawPotential.Build exponent (smearing_of smearing))
         k_sq).

(** *** Method calls on the object store

    The same five methods, statement by statement, on a store holding the
    instance attributes and the tensor storages.  Every torch operation
    in the source is out of place: it reads its operands and allocates a
    fresh tensor for its result.  0-d tensors and Python floats are
    values.  The store also has what the source does not use:
    assignment to an attribute, and the in-place operations. *)

Module MethodCall.

Import InversePowerLawPotential.

Definition tensor_ref : Type := nat.

Record store : Type := Store {
  self_attrs : InversePowerLawPotential.t;
  storages : list tensor
}.

Definition prog (A : Type) : Type := store -> A * store.

Definition ret {A : Type} (a : A) : prog A := fun s => (a, s).

Definition seq {A B : Type} (m : prog A) (k : A -> prog B) : prog B :=
  fun s => let (a, s') := m s in k a s'.

Definition getattr (field : InversePowerLawPotential.t -> tval)
  : prog tval :=
  fun s => (field (self_attrs s), s).

Definition deref (s : store) (r : tensor_ref) : tensor :=
  nth r (storages s) [].

Definition alloc (v : tensor) : prog tensor_ref :=
  fun s => (List.length (storages s), Store (self_attrs s) (storages s ++ [v])).

(** A unary elementwise operation (a tensor-scalar operation once the
    scalar is fixed). *)
Definition op1 (f : tval -> tval) (a : tensor_ref) : prog tensor_ref :=
  fun s => alloc (map f (deref s a)) s.

Fixpoint zip_with (f : tval -> tval -> tval) (a b : tensor) : tensor :=
  match a, b with
  | x :: a', y :: b' => f x y :: zip_with f a' b'
  | _, _ => []
  end.

(** A binary elementwise operation on two tensors. *)
Definition op2 (f : tval -> tval -> tval) (a b : tensor_ref)
  : prog tensor_ref :=
  fun s => alloc (zip_with f (deref s a) (deref s b)) s.

(** What the methods could do to the store and do not:
    [setattr(self, ...)], and the in-place operation torch has beside
    every elementwise one ([t.pow_(e)], [t.mul_(s)], [t += u],
    [torch.pow(t, e, out=t)]), whose result overwrites the storage of
    its first operand, which is also what it returns. *)
Definition setattr
    (update : InversePowerLawPotential.t -> InversePowerLawPotential.t)
  : prog unit :=
  fun s => (tt, Store (update (self_attrs s)) (storages s)).

Fixpoint overwrite (i : nat) (v : tensor) (l : list tensor) : list tensor :=
  match l, i with
  | [], _ => []
  | _ :: l', O => v :: l'
  | x :: l', S j => x :: overwrite j v l'
  end.

Definition op1_in_place (f : tval -> tval) (a : tensor_ref)
  : prog tensor_ref :=
  fun s =>
    (a, Store (self_attrs s) (overwrite a (map f (deref s a)) (storages s))).

Declare Scope prog_scope.
Delimit Scope prog_scope with prog.
Notation "x <~ m ;; k" := (seq m (fun x => k))
  (at level 61, m at next level, right associativity) : prog_scope.
Local Open Scope prog_scope.

Definition from_dist (dist : tensor_ref) : prog tensor_ref :=
  p <~ getattr exponent ;;
  op1 (fun d => tpow d (tneg p)) dist.

Definition from_dist_sq (dist_sq : tensor_ref) : prog tensor_ref :=
  p <~ getattr exponent ;;
  op1 (fun d => tpow d (tdiv (tneg p) (Finite 2))) dist_sq.

(** For comparison, [from_dist] as it would be with the in-place power,
    [return dist.pow_(-self.exponent)]: not the source. *)
Definition from_dist_with_pow_ (dist : tensor_ref) : prog tensor_ref :=
  p <~ getattr exponent ;;
  op1_in_place (fun d => tpow d (tneg p)) dist.

Definition sr_from_dist {sp : TorchSpecial} (dist : tensor_ref)
  : prog tensor_ref :=
  exponent <~ getattr exponent ;;
  sigma <~ getattr smearing ;;
  d2 <~ op1 (fun d => tpow d (Finite 2)) dist ;;
  h <~ op1 (tmul (Finite 0.5)) d2 ;;
  x <~ op1 (fun v => tdiv v (tpow sigma (Finite 2))) h ;;
  let peff := tdiv exponent (Finite 2) in
  let prefac :=
    tdiv (Finite 1)
         (tpow (tmul (Finite 2) (tpow sigma (Finite 2))) peff) in
  g <~ op1 (gammaincc peff) x ;;
  pg <~ op1 (tmul prefac) g ;;
  xp <~ op1 (fun v => tpow v peff) x ;;
  op2 tdiv pg xp.

Definition lr_from_dist {sp : TorchSpecial} (dist : tensor_ref)
  : prog tensor_ref :=
  exponent <~ getattr exponent ;;
  sigma <~ getattr smearing ;;
  d2 <~ op1 (fun d => tpow d (Finite 2)) dist ;;
  h <~ op1 (tmul (Finite 0.5)) d2 ;;
  x <~ op1 (fun v => tdiv v (tpow sigma (Finite 2))) h ;;
  let peff := tdiv exponent (Finite 2) in
  let prefac :=
    tdiv (Finite 1)
         (tpow (tmul (Finite 2) (tpow sigma (Finite 2))) peff) in
  g <~ op1 (gammainc peff) x ;;
  pg <~ op1 (tmul prefac) g ;;
  xp <~ op1 (fun v => tpow v peff) x ;;
  op2 tdiv pg xp.

Definition from_k_sq {sp : TorchSpecial} (k_sq : tensor_ref)
  : prog tensor_ref :=
  exponent <~ getattr exponent ;;
  sigma <~ getattr smearing ;;
  let peff := tdiv (tsub (Finite 3) exponent) (Finite 2) in
  let prefac :=
    tmul (tdiv (Finite (Rpower PI 1.5)) (gamma (tdiv exponent (Finite 2))))
         (tpow (tmul (Finite 2) (tpow sigma (Finite 2))) peff) in
  x <~ op1 (tmul (tmul (Finite 0.5) (tpow sigma (Finite 2)))) k_sq ;;
  g <~ op1 (gammaincc peff) x ;;
  pg <~ op1 (tmul prefac) g ;;
  xp <~ op1 (fun v => tpow v peff) x ;;
  q <~ op2 tdiv pg xp ;;
  f <~ op1 (fun v => tmul v (gamma peff)) q ;;
  op2 (fun k v => twhere0 (teq0 k) v) k_sq f.

(** [s'] is [s] with more tensors allocated: same attributes, and every
    tensor of [s] still there with the same entries. *)
Definition extends (s s' : store) : Prop :=
  self_attrs s' = self_attrs s
  /\ (List.length (storages s) <= List.length (storages s'))%nat
  /\ forall i, (i < List.length (storages s))%nat -> deref s' i = deref s i.

(** Calling [m] on the tensor [a] computes [kernel] of the attributes
    on each entry of [a], into a fresh tensor. *)
Definition computes (m : tensor_ref -> prog tensor_ref)
    (kernel : InversePowerLawPotential.t -> tval -> tval) : Prop :=
  forall (s : store) (a : tensor_ref),
    (a < List.length (storages s))%nat ->
    let (r, s') := m a s in
    extends s s'
    /\ (List.length (storages s) <= r < List.length (storages s'))%nat
    /\ deref s' r = map (kernel (self_attrs s)) (deref s a).

(** Two calls in a row of [m] on the tensor [a], from the store [s]:
    same output entries, attributes and existing tensors untouched. *)
Definition stateless_call (m : tensor_ref -> prog tensor_ref)
    (s : store) (a : tensor_ref) : Prop :=
  let (r1, s1) := m a s in
  let (r2, s2) := m a s1 in
  deref s2 r2 = deref s2 r1
  /\ deref s2 r1 = deref s1 r1
  /\ self_attrs s1 = self_attrs s
  /\ self_attrs s2 = self_attrs s
  /\ forall i, (i < List.length (storages s))%nat ->
       deref s1 i = deref s i /\ deref s2 i = deref s i.

End MethodCall.

(** ** The contracts of the primitives, and a reference instance *)

(** "The lower and upper regularized incomplete Gamma functions sum to 1
    at fixed arguments" (for a positive parameter and a non-negative
    argument, where both are defined). *)
Definition incomplete_gamma_complement (sp : TorchSpecial) : Prop :=
  forall a x : R, 0 < a -> 0 <= x ->
    tadd (gammainc (Finite a) (Finite x)) (gammaincc (Finite a) (Finite x))
    = Finite 1.

(** [gammaln] is "the natural logarithm of the absolute value of the
    gamma function", wherever the latter is a non-zero real. *)
Definition gammaln_log_abs_gamma (sp : TorchSpecial) : Prop :=
  forall x : R, Gamma x <> 0 ->
    gammaln (Finite x) = Finite (ln (Rabs (Gamma x))).

(** [gammaincc] is the regularized upper incomplete Gamma function on
    its documented domain, the non-negative arguments. *)
Definition gammaincc_regularized (sp : TorchSpecial) : Prop :=
  forall a x : R, 0 < a -> 0 <= x ->
    gammaincc (Finite a) (Finite x) = Finite (reg_upper_gamma a x).

(** The mathematical functions, and [NaN] off the documented domain. *)
Definition reference_special : TorchSpecial := {|
  gammainc a x :=
    match a, x with
    | Finite a', Finite x' =>
        if Rltb 0 a' && Rleb 0 x' then Finite (reg_lower_gamma a' x') else NaN
    | _, _ => NaN
    end;
  gammaincc a x :=
    match a, x with
    | Finite a', Finite x' =>
        if Rltb 0 a' && Rleb 0 x' then Finite (reg_upper_gamma a' x') else NaN
    | _, _ => NaN
    end;
  gammaln x :=
    match x with
    | Finite x' =>
        if Reqb (Gamma x') 0 then PInf else Finite (ln (Rabs (Gamma x')))
    | PInf | NInf => PInf
    | NaN => NaN
    end
|}.

(** The reciprocal-space long-range part as the specification writes it:
    [pi^1.5 / Gamma(p/2) * (2 sigma^2)^p' * Q(p', x) * Gamma(p') / x^p']
    with [p' = (3-p)/2] and [x = sigma^2 k^2 / 2], where [Gamma] is the
    complete Gamma function and [Q] the regularized upper incomplete
    one. *)
Definition from_k_sq_spec (p sigma k_sq : R) : R :=
  let peff := (3 - p) / 2 in
  let x := sigma * sigma * k_sq / 2 in
  Rpower PI 1.5 / Gamma (p / 2) * Rpower (2 * (sigma * sigma)) peff
  * reg_upper_gamma peff x * Gamma peff / Rpower x peff.

(** ** _utils.py *)

Inductive torch_dtype : Type :=
| float16
| bfloat16
| float32
| float64
| int32
| int64.

Definition dtype_eqb (a b : torch_dtype) : bool :=
  match a, b with
  | float16, float16 | bfloat16, bfloat16 | float32, float32
  | float64, float64 | int32, int32 | int64, int64 => true
  | _, _ => false
  end.

(** [torch.device]: a type such as ["cpu"] or ["cuda"], and an optional
    index; ["cuda"] and ["cuda:0"] compare different. *)
Record torch_device : Type := Device {
  dev_type : string;
  dev_index : option nat
}.

Definition index_eqb (a b : option nat) : bool :=
  match a, b with
  | None, None => true
  | Some i, Some j => Nat.eqb i j
  | _, _ => false
  end.

Definition device_eqb (a b : torch_device) : bool :=
  String.eqb (dev_type a) (dev_type b) && index_eqb (dev_index a) (dev_index b).

Fixpoint shape_eqb (a b : list nat) : bool :=
  match a, b with
  | [], [] => true
  | x :: a', y :: b' => Nat.eqb x y && shape_eqb a' b'
  | _, _ => false
  end.

(** What the gate reads of a tensor: its dtype, device and shape, and its
    entries in row-major order (finite reals here; only [det] looks at
    them). *)
Record Tensor : Type := MkTensor {
  dtype : torch_dtype;
  device : torch_device;
  shape : list nat;
  data : list R
}.

(** [t.dim()] *)
Definition dim (t : Tensor) : nat := List.length (shape t).

(** [len(t)] *)
Definition len (t : Tensor) : result nat :=
  match shape t with
  | [] => Raise (Exception TypeError LenOfZeroDim)
  | n :: _ => Ok n
  end.

(** [t.shape[i]] *)
Definition shape_at (t : Tensor) (i : nat) : result nat :=
  match nth_error (shape t) i with
  | Some n => Ok n
  | None => Raise (Exception IndexError TupleIndexOutOfRange)
  end.

(** [t[:, 0].shape] *)
Definition column0_shape (t : Tensor) : result (list nat) :=
  match shape t with
  | n :: S _ :: rest => Ok (n :: rest)
  | _ => Raise (Exception IndexError TensorIndexOutOfRange)
  end.

(** What a primitive of torch does: it returns a value, or raises an
    exception of some class with a message of its own. *)
Inductive torch_result (A : Type) : Type :=
| Returns (a : A)
| Throws (cls : py_class).
Arguments Returns {A} a.
Arguments Throws {A} cls.

Definition from_torch {A : Type} (r : torch_result A) : result A :=
  match r with
  | Returns a => Ok a
  | Throws cls => Raise (Exception cls TorchMessage)
  end.

(** [t.det()], a primitive of torch.  It returns, as a 0-d tensor, the
    determinant that an LU factorisation in the precision of [t]
    computes, which need not be the determinant of the entries in exact
    arithmetic (it can be non-zero for a singular matrix, and underflow
    to zero for an invertible one); or it raises, as it does for
    low-precision and integer tensors. *)
Class TorchLinalg : Type := {
  det : Tensor -> torch_result tval
}.

(** [smearing is not None and
     torch.equal(cell.det(), torch.tensor(0.0, dtype=cell.dtype,
                                          device=cell.device))]:
    [and] evaluates [cell.det()] only when a smearing is given;
    [torch.equal] of two 0-d tensors compares their values. *)
Definition determinant_is_zero {la : TorchLinalg} (smearing : option R)
    (cell : Tensor) : result bool :=
  match smearing with
  | None => Ok false
  | Some _ => bind (from_torch (det cell)) (fun d => Ok (teq0 d))
  end.

(** The determinant of the entries of a 3x3 tensor in exact
    arithmetic. *)
Definition exact_det (cell : Tensor) : R :=
  let e i := nth i (data cell) 0 in
  e 0%nat * (e 4%nat * e 8%nat - e 5%nat * e 7%nat)
  - e 1%nat * (e 3%nat * e 8%nat - e 5%nat * e 6%nat)
  + e 2%nat * (e 3%nat * e 7%nat - e 4%nat * e 6%nat).

(** [torch.get_default_dtype()] and [torch.get_default_device()] read
    global settings, passed in here. *)
Definition _get_dtype (default_dtype : torch_dtype)
    (dtype : option torch_dtype) : torch_dtype :=
  match dtype with
  | None => default_dtype
  | Some d => d
  end.

Definition _get_device (default_device : torch_device)
    (device : option torch_device) : torch_device :=
  let new_device :=
    match device with
    | None => default_device
    | Some d => d
    end in
  if String.eqb (dev_type new_device) "cuda"
     && index_eqb (dev_index new_device) None
  then Device "cuda" (Some 0%nat)
  else new_device.

Local Open Scope result_scope.

Definition _validate_parameters {la : TorchLinalg}
    (charges cell positions neighbor_indices neighbor_distances : Tensor)
    (smearing : option R) (dtype' : torch_dtype) (device' : torch_device)
  : result unit :=
  raise_if (negb (dtype_eqb (dtype positions) dtype'))
    TypeError (GateCheck PositionsDtype) ;;;
  raise_if (negb (device_eqb (device positions) device'))
    ValueError (GateCheck PositionsDevice) ;;;
  num_atoms <- len positions ;;
  n <- len positions ;;
  raise_if (negb (shape_eqb (shape positions) [n; 3%nat]))
    ValueError (GateCheck PositionsShape) ;;;
  raise_if (negb (shape_eqb (shape cell) [3%nat; 3%nat]))
    ValueError (GateCheck CellShape) ;;;
  raise_if (negb (dtype_eqb (dtype cell) (dtype positions)))
    TypeError (GateCheck CellDtype) ;;;
  raise_if (negb (device_eqb (device cell) device'))
    ValueError (GateCheck CellDevice) ;;;
  singular <- determinant_is_zero smearing cell ;;
  raise_if singular
    ValueError (GateCheck CellDeterminant) ;;;
  raise_if (negb (Nat.eqb (dim charges) 2))
    ValueError (GateCheck ChargesDim) ;;;
  n_channels <- shape_at charges 1 ;;
  raise_if (negb (shape_eqb (shape charges) [num_atoms; n_channels]))
    ValueError (GateCheck ChargesShape) ;;;
  raise_if (negb (dtype_eqb (dtype charges) (dtype positions)))
    TypeError (GateCheck ChargesDtype) ;;;
  raise_if (negb (device_eqb (device charges) device'))
    ValueError (GateCheck ChargesDevice) ;;;
  width <- shape_at neighbor_indices 1 ;;
  raise_if (negb (Nat.eqb width 2))
    ValueError (GateCheck NeighborIndicesShape) ;;;
  raise_if (negb (device_eqb (device neighbor_indices) device'))
    ValueError (GateCheck NeighborIndicesDevice) ;;;
  column <- column0_shape neighbor_indices ;;
  raise_if (negb (shape_eqb (shape neighbor_distances) column))
    ValueError (GateCheck NeighborShapes) ;;;
  raise_if (negb (device_eqb (device neighbor_distances) device'))
    ValueError (GateCheck NeighborDistancesDevice) ;;;
  raise_if (negb (dtype_eqb (dtype neighbor_distances) (dtype positions)))
    TypeError (GateCheck NeighborDistancesDtype) ;;;
  Ok tt.

Local Close Scope result_scope.

(** The error taxonomy: what kind of contract a check of the gate
    compares ([.dtype], [.device], a shape or rank, the determinant). *)
Inductive violation : Type :=
| TypeMismatch
| LocalityMismatch
| ShapeMismatch
| DegenerateGeometry.

Definition violation_of (c : gate_check) : violation :=
  match c with
  | PositionsDtype | CellDtype | ChargesDtype | NeighborDistancesDtype =>
      TypeMismatch
  | PositionsDevice | CellDevice | ChargesDevice | NeighborIndicesDevice
  | NeighborDistancesDevice =>
      LocalityMismatch
  | PositionsShape | CellShape | ChargesDim | ChargesShape
  | NeighborIndicesShape | NeighborShapes =>
      ShapeMismatch
  | CellDeterminant => DegenerateGeometry
  end.

(** The exception class each kind of violation is reported with. *)
Definition class_of_violation (v : violation) : py_class :=
  match v with
  | TypeMismatch => TypeError
  | _ => ValueError
  end.

(** The last five checks of the gate, on the neighbor data. *)
Definition neighbor_checks (positions neighbor_indices neighbor_distances
                              : Tensor) (device' : torch_device)
  : result unit :=
  (width <- shape_at neighbor_indices 1 ;;
   raise_if (negb (Nat.eqb width 2))
     ValueError (GateCheck NeighborIndicesShape) ;;;
   raise_if (negb (device_eqb (device neighbor_indices) device'))
     ValueError (GateCheck NeighborIndicesDevice) ;;;
   column <- column0_shape neighbor_indices ;;
   raise_if (negb (shape_eqb (shape neighbor_distances) column))
     ValueError (GateCheck NeighborShapes) ;;;
   raise_if (negb (device_eqb (device neighbor_distances) device'))
     ValueError (GateCheck NeighborDistancesDevice) ;;;
   raise_if (negb (dtype_eqb (dtype neighbor_distances) (dtype positions)))
     TypeError (GateCheck NeighborDistancesDtype) ;;;
   Ok tt)%result.

(** [positions] and [cell] pass their dtype, device and shape checks. *)
Definition geometry_inputs_ok (cell positions : Tensor)
    (dtype' : torch_dtype) (device' : torch_device) : Prop :=
  dtype positions = dtype' /\ device positions = device'
  /\ (exists n, shape positions = [n; 3%nat])
  /\ shape cell = [3%nat; 3%nat]
  /\ dtype cell = dtype' /\ device cell = device'.

(** [cell.det()] returns a value, and that value is not zero, resp. is
    zero. *)
Definition nonzero_determinant {la : TorchLinalg} (cell : Tensor) : Prop :=
  exists d, det cell = Returns d /\ teq0 d = false.

Definition zero_determinant {la : TorchLinalg} (cell : Tensor) : Prop :=
  exists d, det cell = Returns d /\ teq0 d = true.

(** [charges], [cell], [positions] and [smearing] satisfy their
    contracts: everything the gate checks before the neighbor data. *)
Definition frame_ok {la : TorchLinalg} (charges cell positions : Tensor)
    (smearing : option R)
    (dtype' : torch_dtype) (device' : torch_device) : Prop :=
  geometry_inputs_ok cell positions dtype' device'
  /\ (smearing = None \/ nonzero_determinant cell)
  /\ (exists n c, shape positions = [n; 3%nat] /\ shape charges = [n; c])
  /\ dtype charges = dtype' /\ device charges = device'.

(** [neighbor_distances] is a 1-d tensor of the declared dtype on the
    declared device. *)
Definition distances_ok (neighbor_distances : Tensor)
    (dtype' : torch_dtype) (device' : torch_device) : Prop :=
  (exists m, shape neighbor_distances = [m])
  /\ dtype neighbor_distances = dtype'
  /\ device neighbor_distances = device'.

(** *** Sample inputs

    Two particles at [[0,0,0]] and [[1,0,0]] in the unit cell, with one
    neighbor pair. *)

Definition cpu : torch_device := Device "cpu" None.

Definition sample_positions : Tensor :=
  MkTensor float64 cpu [2%nat; 3%nat] [0; 0; 0; 1; 0; 0].

Definition sample_cell : Tensor :=
  MkTensor float64 cpu [3%nat; 3%nat] [1; 0; 0; 0; 1; 0; 0; 0; 1].

Definition singular_cell : Tensor :=
  MkTensor float64 cpu [3%nat; 3%nat] [1; 0; 0; 0; 1; 0; 0; 0; 0].

Definition sample_charges : Tensor :=
  MkTensor float64 cpu [2%nat; 1%nat] [1; -1].

Definition sample_pairs : Tensor :=
  MkTensor int64 cpu [1%nat; 2%nat] [0; 1].

(** The same pair as a 1-d tensor of two indices. *)
Definition flat_pairs : Tensor :=
  MkTensor int64 cpu [2%nat] [0; 1].

Definition sample_distances : Tensor :=
  MkTensor float64 cpu [1%nat] [1].

(** The same system in half precision. *)
Definition half_positions : Tensor :=
  MkTensor float16 cpu [2%nat; 3%nat] [0; 0; 0; 1; 0; 0].

Definition half_singular_cell : Tensor :=
  MkTensor float16 cpu [3%nat; 3%nat] [1; 0; 0; 0; 1; 0; 0; 0; 0].

Definition half_charges : Tensor :=
  MkTensor float16 cpu [2%nat; 1%nat] [1; -1].

Definition half_distances : Tensor :=
  MkTensor float16 cpu [1%nat] [1].

(** A reference instance of [det] for the sample runs: on the CPU the
    primitive is not implemented for [float16] and [bfloat16] and
    rejects integer tensors; for [float32] and [float64] the instance
    returns the exact determinant, which is what the primitive computes
    at the cells of the sample runs (diagonal, with entries among 0, 1,
    2 and 1/2), though not at every cell. *)
Definition reference_linalg : TorchLinalg := {|
  det cell :=
    match dtype cell with
    | float32 | float64 => Returns (Finite (exact_det cell))
    | float16 | bfloat16 => Throws NotImplementedError
    | int32 | int64 => Throws RuntimeError
    end
|}.

(** "d >= 0" and "d > 0" for a tensor element. *)
Definition nonneg (d : tval) : Prop :=
  match d with
  | Finite r => 0 <= r
  | PInf => True
  | _ => False
  end.

Definition positive (d : tval) : Prop :=
  match d with
  | Finite r => 0 < r
  | _ => False
  end.

(** *** What the gate accepts *)

(** The neighbor data as the last five checks want it: width 2, on the
    declared device, [neighbor_distances] shaped like a column of
    [neighbor_indices], of the declared dtype and on the declared
    device. *)
Definition neighbors_ok (neighbor_indices neighbor_distances : Tensor)
    (dtype' : torch_dtype) (device' : torch_device) : Prop :=
  nth_error (shape neighbor_indices) 1 = Some 2%nat
  /\ device neighbor_indices = device'
  /\ column0_shape neighbor_indices = Ok (shape neighbor_distances)
  /\ device neighbor_distances = device'
  /\ dtype neighbor_distances = dtype'.

(** Two tensors the gate cannot tell apart: same dtype, device and
    shape. *)
Definition same_meta (a b : Tensor) : Prop :=
  dtype a = dtype b /\ device a = device b /\ shape a = shape b.

(** The checks on [positions], [cell] and [charges]. *)
Definition is_frame_check (c : gate_check) : bool :=
  match c with
  | NeighborIndicesShape | NeighborIndicesDevice | NeighborShapes
  | NeighborDistancesDevice | NeighborDistancesDtype => false
  | _ => true
  end.

(** *** Further contracts of the primitives *)

(** [gammainc] is the regularized lower incomplete Gamma function on its
    documented domain. *)
Definition gammainc_regularized (sp : TorchSpecial) : Prop :=
  forall a x : R, 0 < a -> 0 <= x ->
    gammainc (Finite a) (Finite x) = Finite (reg_lower_gamma a x).

(** [gammaln] is [+inf] at the poles [0, -1, -2, ...] of the Gamma
    function. *)
Definition gammaln_pole (sp : TorchSpecial) (n : nat) : Prop :=
  gammaln (Finite (- INR n)) = PInf.

(** *** Wallis' integrals

    A primitive of [sin^n], by the reduction formula
    [n * int sin^n = - sin^(n-1) cos + (n-1) * int sin^(n-2)], the
    integral of [sin^n] over [[0, pi/2]] read off it, and the product
    [prod_(k=1..n) 2k / (2k+1)] (the integral for the odd power [2n+1]).
    They carry the value [Gamma (1/2) = sqrt pi] that the Coulomb case
    needs. *)
Fixpoint sin_power_primitive (n : nat) (x : R) : R :=
  match n with
  | O => x
  | S O => - cos x
  | S (S m as n') =>
      - (1 / (INR m + 2)) * (sin x ^ n' * cos x)
      + (INR m + 1) / (INR m + 2) * sin_power_primitive m x
  end.

Definition wallis_integral (n : nat) : R :=
  sin_power_primitive n (PI / 2) - sin_power_primitive n 0.

Definition wallis_odd (n : nat) : R :=
  prod_from1 (fun k => 2 * INR k / (2 * INR k + 1)) n.

(* ================================================================== *)
(** * Part II: lemmas and theorems                                     *)
(* ================================================================== *)

(** ** Euler's product: convergence, sign and functional equation *)

Lemma lim_seq_eq (u : nat -> R) (l : R) : Un_cv u l -> lim_seq u = l.
Proof.
  intros H. unfold lim_seq.
  apply (UL_sequence u); [ | exact H ].
  apply epsilon_spec. exists l. exact H.
Qed.

Lemma ln_1p_le (u : R) : -1 < u -> ln (1 + u) <= u.
Proof.
  intros Hu. rewrite <- (ln_exp u) at 2.
  destruct (exp_ineq1_le u) as [Hlt | Heq].
  - left. apply ln_increasing; lra.
  - rewrite Heq. right. reflexivity.
Qed.

Lemma ln_1p_ge (u : R) : -1 < u -> u / (1 + u) <= ln (1 + u).
Proof.
  intros Hu.
  assert (Hpos : 0 < 1 + u) by lra.
  assert (Hinv : 0 < / (1 + u)) by (apply Rinv_0_lt_compat; exact Hpos).
  assert (E : 1 + - (u / (1 + u)) = / (1 + u)) by (field; lra).
  assert (H := ln_1p_le (- (u / (1 + u)))).
  rewrite E in H. rewrite ln_Rinv in H by exact Hpos.
  assert (- (u / (1 + u)) > -1) by (rewrite <- E in Hinv; lra).
  lra.
Qed.

Lemma INR_ge1 (k : nat) : (1 <= k)%nat -> 1 <= INR k.
Proof. intros H. change 1 with (INR 1). apply le_INR. exact H. Qed.

Lemma euler_factor_exp (x : R) (k : nat) :
  (1 <= k)%nat -> 0 < 1 + x / INR k ->
  euler_factor x k = exp (log_factor x k).
Proof.
  intros Hk Hp. unfold euler_factor, log_factor, Rpower, Rminus, Rdiv.
  rewrite exp_plus, exp_Ropp, exp_ln by exact Hp. reflexivity.
Qed.

Lemma log_factor_lower (x : R) (k : nat) :
  (1 <= k)%nat -> 0 < x -> - x * tele k <= log_factor x k.
Proof.
  intros Hk Hx. apply INR_ge1 in Hk. set (K := INR k) in *.
  unfold log_factor, tele. fold K.
  assert (HK : 0 < / K) by (apply Rinv_0_lt_compat; lra).
  assert (H1 := ln_1p_ge (/ K) ltac:(lra)).
  assert (HxK : 0 < x / K) by (apply Rdiv_lt_0_compat; lra).
  assert (H2 := ln_1p_le (x / K) ltac:(lra)).
  assert (E : / K / (1 + / K) = / (K + 1)) by (field; lra).
  rewrite E in H1.
  assert (E2 : - x * / (K * (K + 1)) = x * / (K + 1) - x / K) by (field; lra).
  rewrite E2. apply Rplus_le_compat; [ | lra ].
  apply Rmult_le_compat_l; lra.
Qed.

Lemma log_factor_upper (x : R) (k : nat) :
  (1 <= k)%nat -> 0 < x -> log_factor x k <= 2 * x * x * tele k.
Proof.
  intros Hk Hx. apply INR_ge1 in Hk. set (K := INR k) in *.
  unfold log_factor, tele. fold K.
  assert (HK : 0 < / K) by (apply Rinv_0_lt_compat; lra).
  assert (H1 := ln_1p_le (/ K) ltac:(lra)).
  assert (HxK : 0 < x / K) by (apply Rdiv_lt_0_compat; lra).
  assert (H2 := ln_1p_ge (x / K) ltac:(lra)).
  assert (E : x / K / (1 + x / K) = x / (K + x)) by (field; lra).
  rewrite E in H2.
  assert (H3 : x * ln (1 + / K) <= x * / K)
    by (apply Rmult_le_compat_l; lra).
  apply Rle_trans with (x / K - x / (K + x)); [ lra | ].
  assert (E2 : x / K - x / (K + x) = x * x * / (K * (K + x)))
    by (field; lra).
  rewrite E2.
  replace (2 * x * x * / (K * (K + 1))) with (x * x * (2 * / (K * (K + 1))))
    by ring.
  apply Rmult_le_compat_l; [ nra | ].
  assert (E3 : 2 * / (K * (K + 1)) = / (K * ((K + 1) / 2))) by (field; lra).
  rewrite E3. apply Rinv_le_contravar; nra.
Qed.

Lemma sum_tele (n : nat) : sum_from1 tele n = 1 - / (INR n + 1).
Proof.
  induction n as [ | n IH ].
  - simpl. lra.
  - change (sum_from1 tele (S n)) with (sum_from1 tele n + tele (S n)).
    rewrite IH. unfold tele. rewrite S_INR.
    assert (0 <= INR n) by apply pos_INR. field. lra.
Qed.

Lemma sum_from1_le (f g : nat -> R) (n : nat) :
  (forall k, (1 <= k)%nat -> f k <= g k) -> sum_from1 f n <= sum_from1 g n.
Proof.
  intros H. induction n as [ | n IH ]; simpl; [ lra | ].
  apply Rplus_le_compat; [ exact IH | apply H; lia ].
Qed.

Lemma sum_from1_scal (c : R) (f : nat -> R) (n : nat) :
  sum_from1 (fun k => c * f k) n = c * sum_from1 f n.
Proof. induction n as [ | n IH ]; simpl; [ ring | rewrite IH; ring ]. Qed.

Lemma sum_from1_plus (f g : nat -> R) (n : nat) :
  sum_from1 (fun k => f k + g k) n = sum_from1 f n + sum_from1 g n.
Proof. induction n as [ | n IH ]; simpl; [ ring | rewrite IH; ring ]. Qed.

Lemma prod_from1_exp (g f : nat -> R) (n : nat) :
  (forall k, (1 <= k <= n)%nat -> f k = exp (g k)) ->
  prod_from1 f n = exp (sum_from1 g n).
Proof.
  induction n as [ | n IH ]; intros H; simpl.
  - symmetry. apply exp_0.
  - rewrite exp_plus, <- IH, H by (try lia; intros; apply H; lia).
    reflexivity.
Qed.

Lemma cv_const (c : R) : Un_cv (fun _ : nat => c) c.
Proof.
  intros eps He. exists 0%nat. intros n _.
  unfold R_dist. rewrite Rminus_diag, Rabs_R0. exact He.
Qed.

Lemma inv_succ_cv : Un_cv (fun n => / (INR n + 1)) 0.
Proof.
  apply cv_infty_cv_0. intros M.
  destruct (archimed (Rabs M)) as [Hup _].
  assert (Hz : (0 <= up (Rabs M))%Z).
  { apply le_IZR. assert (0 <= Rabs M) by apply Rabs_pos. lra. }
  exists (Z.to_nat (up (Rabs M))). intros n Hn.
  apply le_INR in Hn. rewrite INR_IZR_INZ, Z2Nat.id in Hn by exact Hz.
  assert (M <= Rabs M) by apply Rle_abs. lra.
Qed.

Lemma tele_cv : Un_cv (sum_from1 tele) 1.
Proof.
  assert (H := inv_succ_cv).
  intros eps He. destruct (H eps He) as [N HN]. exists N. intros n Hn.
  specialize (HN n Hn). rewrite sum_tele.
  unfold R_dist in *. replace (1 - / (INR n + 1) - 1) with (- (/ (INR n + 1) - 0)) by ring.
  rewrite Rabs_Ropp. exact HN.
Qed.

Lemma cv_le_bound (u : nat -> R) (l m : R) :
  Un_cv u l -> (forall n, u n <= m) -> l <= m.
Proof.
  intros Hu Hm. apply (Rle_cv_lim (Un := u) (Vn := fun _ => m)).
  - exact Hm.
  - exact Hu.
  - apply cv_const.
Qed.

(** Euler's product converges to a positive limit on the positive axis,
    at most [exp (2 x^2) / x]. *)
Lemma euler_prod_cv_pos (x : R) :
  0 < x ->
  exists l, 0 < l <= / x * exp (2 * x * x) /\ Un_cv (euler_prod x) l.
Proof.
  intros Hx.
  set (w := fun k => log_factor x k + x * tele k).
  assert (Hw0 : forall k, (1 <= k)%nat -> 0 <= w k).
  { intros k Hk. unfold w. assert (H := log_factor_lower x k Hk Hx). lra. }
  assert (Hw1 : forall k, (1 <= k)%nat -> w k <= (2 * x * x + x) * tele k).
  { intros k Hk. unfold w. assert (H := log_factor_upper x k Hk Hx). lra. }
  assert (Hgrow : Un_growing (sum_from1 w)).
  { intros n. simpl. assert (H := Hw0 (S n) ltac:(lia)). lra. }
  assert (Hbound : forall n, sum_from1 w n <= 2 * x * x + x).
  { intros n.
    apply Rle_trans with (sum_from1 (fun k => (2 * x * x + x) * tele k) n).
    - apply sum_from1_le. exact Hw1.
    - rewrite sum_from1_scal, sum_tele.
      assert (0 < / (INR n + 1)).
      { apply Rinv_0_lt_compat. assert (0 <= INR n) by apply pos_INR. lra. }
      nra. }
  assert (Hub : has_ub (sum_from1 w)).
  { exists (2 * x * x + x). intros y [n ->]. apply Hbound. }
  destruct (growing_cv _ Hgrow Hub) as [W HW].
  assert (HWle : W <= 2 * x * x + x) by (apply (cv_le_bound _ _ _ HW Hbound)).
  assert (Hix : 0 < / x) by (apply Rinv_0_lt_compat; exact Hx).
  exists (/ x * exp (W - x * 1)). split; [ split | ].
  - apply Rmult_lt_0_compat; [ exact Hix | apply exp_pos ].
  - apply Rmult_le_compat_l; [ lra | ].
    destruct (Rle_lt_or_eq_dec _ _ HWle) as [Hlt | Heq].
    + left. apply exp_increasing. lra.
    + right. f_equal. lra.
  - assert (Hs : Un_cv (sum_from1 (log_factor x)) (W - x * 1)).
    { assert (H := CV_minus _ _ _ _ HW
                     (CV_mult _ _ _ _ (cv_const x) tele_cv)).
      intros eps He. destruct (H eps He) as [N HN]. exists N. intros n Hn.
      specialize (HN n Hn).
      replace (sum_from1 (log_factor x) n)
        with (sum_from1 w n - x * sum_from1 tele n); [ exact HN | ].
      unfold w. rewrite sum_from1_plus, sum_from1_scal. ring. }
    assert (He := continuity_seq exp _ _
                    (derivable_continuous _ derivable_exp (W - x * 1)) Hs).
    assert (Hm := CV_mult _ _ _ _ (cv_const (/ x)) He).
    intros eps Heps. destruct (Hm eps Heps) as [N HN]. exists N. intros n Hn.
    specialize (HN n Hn). unfold euler_prod.
    rewrite (prod_from1_exp (log_factor x)); [ exact HN | ].
    intros k Hk. apply euler_factor_exp; [ lia | ].
    assert (0 < x / INR k).
    { apply Rdiv_lt_0_compat; [ exact Hx | ]. apply lt_0_INR. lia. }
    lra.
Qed.

Theorem Gamma_pos (x : R) : 0 < x -> 0 < Gamma x.
Proof.
  intros Hx. destruct (euler_prod_cv_pos x Hx) as [l [[Hl _] Hcv]].
  unfold Gamma. rewrite (lim_seq_eq _ _ Hcv). exact Hl.
Qed.

Lemma Gamma_le (x : R) : 0 < x -> Gamma x <= / x * exp (2 * x * x).
Proof.
  intros Hx. destruct (euler_prod_cv_pos x Hx) as [l [[_ Hl] Hcv]].
  unfold Gamma. rewrite (lim_seq_eq _ _ Hcv). exact Hl.
Qed.

Lemma Gamma_cv (x : R) : 0 < x -> Un_cv (euler_prod x) (Gamma x).
Proof.
  intros Hx. destruct (euler_prod_cv_pos x Hx) as [l [_ Hcv]].
  unfold Gamma. rewrite (lim_seq_eq _ _ Hcv). exact Hcv.
Qed.

Lemma euler_factor_shift (x : R) (k : nat) :
  (1 <= k)%nat -> -1 < x ->
  euler_factor x k =
  euler_factor (x + 1) k *
  ((INR k + x + 1) * INR k / ((INR k + 1) * (INR k + x))).
Proof.
  intros Hk Hx. apply INR_ge1 in Hk. set (K := INR k) in *.
  unfold euler_factor. fold K.
  assert (HK : 0 < / K) by (apply Rinv_0_lt_compat; lra).
  rewrite Rpower_plus, Rpower_1 by lra.
  field. repeat split; lra.
Qed.

Lemma euler_prod_shift (x : R) (n : nat) :
  -1 < x -> x <> 0 ->
  euler_prod x n =
  euler_prod (x + 1) n * (/ x * (1 + x * / (INR n + 1))).
Proof.
  intros Hx Hx0. unfold euler_prod.
  induction n as [ | n IH ].
  - simpl. field. split; lra.
  - change (prod_from1 (euler_factor x) (S n))
      with (prod_from1 (euler_factor x) n * euler_factor x (S n)).
    change (prod_from1 (euler_factor (x + 1)) (S n))
      with (prod_from1 (euler_factor (x + 1)) n * euler_factor (x + 1) (S n)).
    rewrite <- Rmult_assoc, IH, (euler_factor_shift x (S n)) by (lia || lra).
    rewrite !S_INR. assert (0 <= INR n) by apply pos_INR.
    field. repeat split; lra.
Qed.

Lemma Gamma_shift_cv (x : R) :
  -1 < x -> x <> 0 -> Un_cv (euler_prod x) (Gamma (x + 1) * / x).
Proof.
  intros Hx Hx0.
  assert (H1 := Gamma_cv (x + 1) ltac:(lra)).
  assert (H2 : Un_cv (fun n => / x * (1 + x * / (INR n + 1))) (/ x * (1 + x * 0))).
  { apply CV_mult; [ apply cv_const | ].
    apply CV_plus; [ apply cv_const | ].
    apply CV_mult; [ apply cv_const | apply inv_succ_cv ]. }
  assert (H := CV_mult _ _ _ _ H1 H2).
  replace (Gamma (x + 1) * / x) with (Gamma (x + 1) * (/ x * (1 + x * 0)))
    by (field; exact Hx0).
  intros eps He. destruct (H eps He) as [N HN]. exists N. intros n Hn.
  rewrite euler_prod_shift by assumption. apply HN. exact Hn.
Qed.

(** The functional equation, read downwards: [Gamma x = Gamma (x+1) / x]. *)
Theorem Gamma_shift (x : R) :
  -1 < x -> x <> 0 -> Gamma x = Gamma (x + 1) / x.
Proof.
  intros Hx Hx0. unfold Gamma at 1.
  apply lim_seq_eq. apply Gamma_shift_cv; assumption.
Qed.

Theorem Gamma_neg (x : R) : -1 < x < 0 -> Gamma x < 0.
Proof.
  intros [H1 H2]. rewrite Gamma_shift by lra.
  assert (Hp := Gamma_pos (x + 1) ltac:(lra)).
  assert (Hi : / x < 0) by (apply Rinv_lt_0_compat; exact H2).
  unfold Rdiv. nra.
Qed.

Lemma euler_prod_1 (n : nat) : euler_prod 1 n = 1.
Proof.
  unfold euler_prod. rewrite Rinv_1, Rmult_1_l.
  induction n as [ | n IH ]; [ reflexivity | ].
  change (prod_from1 (euler_factor 1) (S n))
    with (prod_from1 (euler_factor 1) n * euler_factor 1 (S n)).
  rewrite IH, Rmult_1_l. unfold euler_factor.
  assert (0 < INR (S n)) by (apply lt_0_INR; lia).
  assert (0 < / INR (S n)) by (apply Rinv_0_lt_compat; assumption).
  rewrite Rpower_1 by lra. field. split; lra.
Qed.

Theorem Gamma_1 : Gamma 1 = 1.
Proof.
  unfold Gamma. apply lim_seq_eq.
  intros eps He. exists 0%nat. intros n _.
  rewrite euler_prod_1. unfold R_dist. rewrite Rminus_diag, Rabs_R0. exact He.
Qed.

Theorem Gamma_succ (x : R) : 0 < x -> Gamma (x + 1) = x * Gamma x.
Proof.
  intros Hx. rewrite (Gamma_shift x) by lra. field. lra.
Qed.

Theorem Gamma_2 : Gamma 2 = 1.
Proof.
  replace 2 with (1 + 1) by ring.
  rewrite Gamma_succ, Gamma_1 by lra. ring.
Qed.

(** ** The regularized incomplete Gamma functions *)

Lemma Gamma_above_factorial (a : R) (n : nat) :
  0 < a -> INR (fact n) * Gamma (a + 1) <= Gamma (a + INR n + 1).
Proof.
  intros Ha. induction n as [ | n IH ].
  - simpl. replace (a + 0 + 1) with (a + 1) by ring. lra.
  - assert (Hn : 0 <= INR n) by apply pos_INR.
    replace (a + INR (S n) + 1) with (a + INR n + 1 + 1)
      by (rewrite S_INR; ring).
    rewrite (Gamma_succ (a + INR n + 1)) by lra.
    rewrite fact_simpl, mult_INR, S_INR.
    assert (H1 := Gamma_pos (a + 1) ltac:(lra)).
    assert (H2 : 0 < INR (fact n)) by apply INR_fact_lt_0.
    assert (H3 : 0 < INR (fact n) * Gamma (a + 1))
      by (apply Rmult_lt_0_compat; assumption).
    apply Rle_trans with ((INR n + 1) * Gamma (a + INR n + 1)).
    + rewrite Rmult_assoc. apply Rmult_le_compat_l; [ lra | exact IH ].
    + apply Rmult_le_compat_r; lra.
Qed.

(** The power series of [P] converges, to a non-negative sum. *)
Lemma lower_series_cv (a x : R) :
  0 < a -> 0 <= x ->
  exists l,
    0 <= l
    /\ Un_cv (sum_f_R0 (fun n => x ^ n / Gamma (a + INR n + 1))) l.
Proof.
  intros Ha Hx.
  set (An := fun n => x ^ n / Gamma (a + INR n + 1)).
  set (Bn := fun n => / INR (fact n) * x ^ n * / Gamma (a + 1)).
  assert (Hg : 0 < Gamma (a + 1)) by (apply Gamma_pos; lra).
  assert (Hcmp : forall n, 0 <= An n <= Bn n).
  { intros n. unfold An, Bn.
    assert (Hp : 0 <= x ^ n) by (apply pow_le; exact Hx).
    assert (Hf : 0 < INR (fact n)) by apply INR_fact_lt_0.
    assert (Hgn : 0 < Gamma (a + INR n + 1)).
    { apply Gamma_pos. assert (0 <= INR n) by apply pos_INR. lra. }
    assert (Hle := Gamma_above_factorial a n Ha).
    split.
    - apply Rmult_le_pos; [ exact Hp | left; apply Rinv_0_lt_compat; exact Hgn ].
    - unfold Rdiv.
      replace (/ INR (fact n) * x ^ n * / Gamma (a + 1))
        with (x ^ n * / (INR (fact n) * Gamma (a + 1)))
        by (field; split; lra).
      apply Rmult_le_compat_l; [ exact Hp | ].
      apply Rinv_le_contravar; [ | exact Hle ].
      apply Rmult_lt_0_compat; assumption. }
  assert (HB : {l : R | Un_cv (fun N => sum_f_R0 Bn N) l}).
  { exists (exp x * / Gamma (a + 1)).
    assert (H := CV_mult _ _ _ _ (E1_cvg x) (cv_const (/ Gamma (a + 1)))).
    intros eps He. destruct (H eps He) as [N HN]. exists N. intros n Hn.
    specialize (HN n Hn). unfold E1 in HN.
    replace (sum_f_R0 Bn n)
      with (sum_f_R0 (fun k => / INR (fact k) * x ^ k) n * / Gamma (a + 1));
      [ exact HN | ].
    rewrite Rmult_comm, scal_sum. reflexivity. }
  destruct (Rseries_CV_comp An Bn Hcmp HB) as [l Hl].
  exists l. split; [ | exact Hl ].
  apply Rle_trans with (sum_f_R0 An 0).
  - simpl. apply Hcmp.
  - apply sum_incr; [ exact Hl | intros n; apply Hcmp ].
Qed.

Lemma reg_lower_gamma_nonneg (a x : R) : 0 < a -> 0 <= reg_lower_gamma a x.
Proof.
  intros Ha. unfold reg_lower_gamma, Rltb.
  destruct (Rlt_dec 0 x) as [Hx | _]; [ | lra ].
  destruct (lower_series_cv a x Ha ltac:(lra)) as (l & Hl & Hcv).
  rewrite (lim_seq_eq _ _ Hcv).
  assert (H1 : 0 < Rpower x a) by (unfold Rpower; apply exp_pos).
  assert (H2 := exp_pos (- x)).
  apply Rmult_le_pos; [ | exact Hl ].
  apply Rmult_le_pos; lra.
Qed.

Lemma reg_upper_gamma_pos_arg (a x : R) :
  0 < a -> reg_upper_gamma a x = 1 - reg_lower_gamma a x.
Proof.
  intros Ha. unfold reg_upper_gamma.
  assert (Hi : (0 <= Int_part a)%Z).
  { destruct (base_Int_part a) as [_ H].
    apply Z.lt_succ_r. apply lt_IZR. rewrite succ_IZR. lra. }
  replace (Z.to_nat (- Int_part a)) with 0%nat by lia. reflexivity.
Qed.

Lemma reg_upper_gamma_neg_arg (a x : R) :
  -1 < a < 0 ->
  reg_upper_gamma a x
  = 1 - reg_lower_gamma (a + 1) x - Rpower x a * exp (- x) / Gamma (a + 1).
Proof.
  intros Ha. unfold reg_upper_gamma.
  assert (Hi : Int_part a = (-1)%Z).
  { symmetry. apply Int_part_spec. lra. }
  rewrite Hi. reflexivity.
Qed.

Lemma exp_half_lt_2 : exp (/ 2) < 2.
Proof.
  assert (H : exp (/ 2) * exp (/ 2) = exp 1).
  { rewrite <- exp_plus. f_equal. lra. }
  assert (H3 := exp_le_3). assert (Hp := exp_pos (/ 2)). nra.
Qed.

(** One point where the upper function is negative: [Q(-1/2, 1/100)]. *)
Lemma reg_upper_gamma_negative : reg_upper_gamma (- / 2) (/ 100) < 0.
Proof.
  rewrite reg_upper_gamma_neg_arg by lra.
  assert (HP := reg_lower_gamma_nonneg (- / 2 + 1) (/ 100) ltac:(lra)).
  assert (Hg := Gamma_pos (- / 2 + 1) ltac:(lra)).
  assert (Hgle := Gamma_le (- / 2 + 1) ltac:(lra)).
  assert (Hg4 : Gamma (- / 2 + 1) < 4).
  { replace (2 * (- / 2 + 1) * (- / 2 + 1)) with (/ 2) in Hgle by lra.
    replace (/ (- / 2 + 1)) with 2 in Hgle by (field; lra).
    assert (H := exp_half_lt_2). lra. }
  assert (Hpow : Rpower (/ 100) (- / 2) = 10).
  { rewrite Rpower_Ropp, Rpower_sqrt by lra.
    rewrite (sqrt_lem_1 (/ 100) (/ 10)) by lra. lra. }
  assert (He : 1 - / 100 <= exp (- / 100)).
  { assert (H := exp_ineq1_le (- / 100)). lra. }
  rewrite Hpow.
  assert (Hq : 1 < 10 * exp (- / 100) / Gamma (- / 2 + 1)).
  { apply Rmult_lt_reg_r with (Gamma (- / 2 + 1)); [ exact Hg | ].
    replace (10 * exp (- / 100) / Gamma (- / 2 + 1) * Gamma (- / 2 + 1))
      with (10 * exp (- / 100)) by (field; lra).
    lra. }
  lra.
Qed.

(** ** Arithmetic on tensor elements *)

Lemma Rltb_true (a b : R) : a < b -> Rltb a b = true.
Proof. intros H. unfold Rltb. destruct (Rlt_dec a b); [ reflexivity | contradiction ]. Qed.

Lemma Rltb_false (a b : R) : ~ a < b -> Rltb a b = false.
Proof. intros H. unfold Rltb. destruct (Rlt_dec a b); [ contradiction | reflexivity ]. Qed.

Lemma Rleb_true (a b : R) : a <= b -> Rleb a b = true.
Proof. intros H. unfold Rleb. destruct (Rle_dec a b); [ reflexivity | contradiction ]. Qed.

Lemma Reqb_true (a b : R) : a = b -> Reqb a b = true.
Proof. intros H. unfold Reqb. destruct (Req_dec_T a b); [ reflexivity | contradiction ]. Qed.

Lemma Reqb_false (a b : R) : a <> b -> Reqb a b = false.
Proof. intros H. unfold Reqb. destruct (Req_dec_T a b); [ contradiction | reflexivity ]. Qed.

Lemma Reqb_eq (a b : R) : Reqb a b = true <-> a = b.
Proof.
  unfold Reqb. destruct (Req_dec_T a b); split; intros H;
    [ assumption | reflexivity | discriminate | contradiction ].
Qed.

Lemma half_eq : 0.5 = / 2.
Proof. lra. Qed.

Lemma Rpower_pos (a b : R) : 0 < Rpower a b.
Proof. unfold Rpower. apply exp_pos. Qed.

Lemma Rpower_sqr (a : R) : 0 < a -> Rpower a 2 = a * a.
Proof.
  intros Ha. unfold Rpower.
  replace (2 * ln a) with (ln a + ln a) by ring.
  rewrite exp_plus, exp_ln by exact Ha. reflexivity.
Qed.

Lemma is_int_2 : is_int 2 = true /\ Int_part 2 = 2%Z.
Proof.
  assert (E : Int_part 2 = 2%Z).
  { symmetry. apply Int_part_spec. lra. }
  split; [ | exact E ].
  unfold is_int. rewrite E. apply Reqb_true. reflexivity.
Qed.

Lemma tpow_pos (a b : R) :
  0 < a -> tpow (Finite a) (Finite b) = Finite (Rpower a b).
Proof.
  intros Ha. unfold tpow, Reqb. destruct (Req_dec_T b 0) as [-> | _].
  - rewrite Rpower_O by exact Ha. reflexivity.
  - rewrite (Rltb_true 0 a Ha). reflexivity.
Qed.

Lemma tpow_2 (a : R) : tpow (Finite a) (Finite 2) = Finite (a * a).
Proof.
  destruct (Rtotal_order 0 a) as [Hpos | [<- | Hneg]].
  - rewrite tpow_pos, Rpower_sqr by exact Hpos. reflexivity.
  - unfold tpow. rewrite (Reqb_false 2 0) by lra.
    rewrite (Rltb_false 0 0) by lra. rewrite (Reqb_true 0 0) by reflexivity.
    rewrite (Rltb_true 0 2) by lra. f_equal. ring.
  - unfold tpow, odd_int. destruct is_int_2 as [Hi Hp]. rewrite Hi, Hp.
    rewrite (Reqb_false 2 0) by lra.
    rewrite (Rltb_false 0 a) by lra. rewrite (Reqb_false a 0) by lra.
    simpl. rewrite Rpower_sqr by lra. f_equal. ring.
Qed.

Lemma tdiv_finite (a b : R) :
  b <> 0 -> tdiv (Finite a) (Finite b) = Finite (a / b).
Proof. intros Hb. unfold tdiv. rewrite (Reqb_false b 0 Hb). reflexivity. Qed.

Lemma tmul_finite (a b : R) : tmul (Finite a) (Finite b) = Finite (a * b).
Proof. reflexivity. Qed.

Lemma tadd_finite (a b : R) : tadd (Finite a) (Finite b) = Finite (a + b).
Proof. reflexivity. Qed.

Lemma tadd_finite_1 (u v : tval) :
  tadd u v = Finite 1 ->
  exists a b, u = Finite a /\ v = Finite b /\ a + b = 1.
Proof.
  destruct u as [a | | | ], v as [b | | | ]; simpl; intros H;
    try discriminate.
  exists a, b. inversion H. auto.
Qed.

Lemma tensor_add_map (f g : tval -> tval) (l : tensor) :
  tensor_add (map f l) (map g l) = map (fun d => tadd (f d) (g d)) l.
Proof. induction l as [ | d l IH ]; simpl; [ | rewrite IH ]; reflexivity. Qed.

(** ** The range separation of the inverse power law *)

Section RangeSeparation.

Import InversePowerLawPotential.

Context {sp : TorchSpecial}.
Hypothesis complement : incomplete_gamma_complement sp.

Variables p sigma : R.
Hypothesis p_pos : 0 < p.
Hypothesis sigma_pos : 0 < sigma.

Let self : InversePowerLawPotential.t := Build (Finite p) (Finite sigma).

(** The argument [x = r^2 / (2 sigma^2)] of the incomplete Gamma
    functions and the common prefactor, as the two methods compute
    them. *)
Lemma split_parts (r : R) (f : tval -> tval -> tval) :
  0 < r ->
  let x := 0.5 * (r * r) / (sigma * sigma) in
  tdiv (tmul (tdiv (Finite 1)
                (tpow (tmul (Finite 2) (tpow (Finite sigma) (Finite 2)))
                      (tdiv (Finite p) (Finite 2))))
             (f (tdiv (Finite p) (Finite 2))
                (tdiv (tmul (Finite 0.5) (tpow (Finite r) (Finite 2)))
                      (tpow (Finite sigma) (Finite 2)))))
       (tpow (tdiv (tmul (Finite 0.5) (tpow (Finite r) (Finite 2)))
                   (tpow (Finite sigma) (Finite 2)))
             (tdiv (Finite p) (Finite 2)))
  = tdiv (tmul (Finite (1 / Rpower (2 * (sigma * sigma)) (p / 2)))
               (f (Finite (p / 2)) (Finite x)))
         (Finite (Rpower x (p / 2))).
Proof.
  intros Hr x.
  assert (Hs2 : 0 < sigma * sigma) by nra.
  assert (Hx : 0 < x).
  { unfold x. apply Rdiv_lt_0_compat; nra. }
  rewrite !tpow_2, !tmul_finite.
  rewrite (tdiv_finite p 2) by lra.
  rewrite (tdiv_finite (0.5 * (r * r)) (sigma * sigma)) by lra.
  fold x. rewrite !tpow_pos by lra.
  rewrite tdiv_finite; [ reflexivity | ].
  apply Rgt_not_eq, Rpower_pos.
Qed.

Lemma power_split (r : R) :
  0 < r ->
  Rpower (2 * (sigma * sigma)) (p / 2)
  * Rpower (0.5 * (r * r) / (sigma * sigma)) (p / 2)
  = Rpower r p.
Proof.
  intros Hr.
  assert (Hs2 : 0 < sigma * sigma) by nra.
  rewrite Rpower_mult_distr; [ | lra | apply Rdiv_lt_0_compat; nra ].
  replace (2 * (sigma * sigma) * (0.5 * (r * r) / (sigma * sigma)))
    with (r * r) by (rewrite half_eq; field; lra).
  unfold Rpower. rewrite ln_mult by lra. f_equal. field.
Qed.

Lemma sr_plus_lr_elementwise (r : R) :
  0 < r ->
  tadd (sr_from_dist1 self (Finite r)) (lr_from_dist1 self (Finite r))
  = Finite (Rpower r (- p)).
Proof.
  intros Hr. unfold sr_from_dist1, lr_from_dist1, self. cbn [exponent smearing].
  rewrite (split_parts r gammaincc Hr), (split_parts r gammainc Hr).
  set (x := 0.5 * (r * r) / (sigma * sigma)).
  assert (Hx : 0 <= x).
  { unfold x. left. apply Rdiv_lt_0_compat; nra. }
  destruct (tadd_finite_1 _ _ (complement (p / 2) x ltac:(lra) Hx))
    as (u & v & -> & -> & Huv).
  assert (HX := Rpower_pos x (p / 2)).
  assert (HA := Rpower_pos (2 * (sigma * sigma)) (p / 2)).
  rewrite !tmul_finite, !tdiv_finite, tadd_finite by lra. f_equal.
  rewrite Rpower_Ropp, <- (power_split r Hr). fold x.
  replace v with (1 - u) by lra. field. split; lra.
Qed.

(** C1: for the inverse power law with exponent [p > 0] and smearing
    [sigma > 0], and distances [r > 0], the short-range part plus the
    long-range part is the full potential [r^(-p)]: the sum that
    [RangeSeparatedPotential.from_dist] forms is what the override
    [InversePowerLawPotential.from_dist] returns, and its elements are
    [r^(-p)]. *)
Theorem sr_plus_lr_is_full_potential (dist : tensor) :
  Forall positive dist ->
  RangeSeparatedPotential.from_dist (sr_from_dist self) (lr_from_dist self)
    dist
  = from_dist self dist
  /\ forall r, 0 < r ->
       tadd (sr_from_dist1 self (Finite r)) (lr_from_dist1 self (Finite r))
       = from_dist1 self (Finite r)
       /\ from_dist1 self (Finite r) = Finite (Rpower r (- p)).
Proof.
  intros Hpos.
  assert (Hfull : forall r, 0 < r ->
            from_dist1 self (Finite r) = Finite (Rpower r (- p))).
  { intros r Hr. unfold from_dist1, self. cbn [exponent tneg].
    apply tpow_pos. exact Hr. }
  split.
  - unfold RangeSeparatedPotential.from_dist, sr_from_dist, lr_from_dist,
      from_dist, bind.
    rewrite tensor_add_map. f_equal.
    apply map_ext_in. intros d Hd.
    rewrite Forall_forall in Hpos. specialize (Hpos d Hd).
    destruct d as [r | | | ]; try contradiction. simpl in Hpos.
    rewrite sr_plus_lr_elementwise, Hfull by exact Hpos. reflexivity.
  - intros r Hr. rewrite sr_plus_lr_elementwise, Hfull by exact Hr.
    split; reflexivity.
Qed.

End RangeSeparation.

Lemma reference_special_complement :
  incomplete_gamma_complement reference_special.
Proof.
  intros a x Ha Hx. cbn [gammainc gammaincc reference_special].
  rewrite (Rltb_true 0 a Ha), (Rleb_true 0 x Hx). cbn [andb].
  rewrite tadd_finite, reg_upper_gamma_pos_arg by exact Ha. f_equal. ring.
Qed.

Lemma sr_plus_lr_is_full_potential_witness :
  let self := InversePowerLawPotential.Build (Finite 2) (Finite 1) in
  incomplete_gamma_complement reference_special
  /\ 0 < 2 /\ 0 < 1 /\ Forall positive [Finite 1; Finite 3]
  /\ RangeSeparatedPotential.from_dist
       (InversePowerLawPotential.sr_from_dist (sp := reference_special) self)
       (InversePowerLawPotential.lr_from_dist (sp := reference_special) self)
       [Finite 1; Finite 3]
     = InversePowerLawPotential.from_dist self [Finite 1; Finite 3].
Proof.
  intros self.
  assert (H2 : 0 < 2) by lra.
  assert (H1 : 0 < 1) by lra.
  assert (Hd : Forall positive [Finite 1; Finite 3]).
  { repeat constructor; simpl; lra. }
  repeat split; try assumption.
  - exact reference_special_complement.
  - exact (proj1 (sr_plus_lr_is_full_potential (sp := reference_special)
                    reference_special_complement 2 1 H2 H1
                    [Finite 1; Finite 3] Hd)).
Defined.

(** ** Squared distances *)

Lemma sqrt_lt_1 (r : R) : 0 <= r -> (sqrt r < 1 <-> r < 1).
Proof.
  intros Hr. rewrite <- sqrt_1 at 1. split; intros H.
  - apply sqrt_lt_0_alt in H. exact H.
  - apply sqrt_lt_1_alt. lra.
Qed.

Lemma sqrt_eq_1 (r : R) : 0 <= r -> (sqrt r = 1 <-> r = 1).
Proof.
  intros Hr. split; intros H.
  - rewrite <- (sqrt_sqrt r Hr), H. ring.
  - rewrite H. apply sqrt_1.
Qed.

Lemma Rpower_sqrt_half (r b : R) :
  0 < r -> Rpower (sqrt r) b = Rpower r (b / 2).
Proof.
  intros Hr. rewrite <- Rpower_sqrt by exact Hr.
  rewrite Rpower_mult. f_equal. field.
Qed.

Lemma Rltb_iff (a b c d : R) : (a < b <-> c < d) -> Rltb a b = Rltb c d.
Proof.
  intros H. unfold Rltb.
  destruct (Rlt_dec a b), (Rlt_dec c d); tauto.
Qed.

Lemma Reqb_iff (a b c d : R) : (a = b <-> c = d) -> Reqb a b = Reqb c d.
Proof.
  intros H. unfold Reqb.
  destruct (Req_dec_T a b), (Req_dec_T c d); tauto.
Qed.

(** Raising a square to [e / 2] is raising its root to [e]. *)
Lemma tpow_half_sqrt (d e : tval) :
  nonneg d -> tpow d (tdiv e (Finite 2)) = tpow (tsqrt d) e.
Proof.
  intros Hd.
  assert (H20 : Reqb 2 0 = false) by (apply Reqb_false; lra).
  assert (H02 : Rltb 0 2 = true) by (apply Rltb_true; lra).
  destruct d as [r | | | ]; simpl in Hd; try contradiction.
  - assert (Hsq := sqrt_pos r).
    assert (Habs : Rabs r = r) by (apply Rabs_pos_eq; exact Hd).
    assert (Habs' : Rabs (sqrt r) = sqrt r) by (apply Rabs_pos_eq; exact Hsq).
    unfold tsqrt. rewrite (Rltb_false r 0) by lra.
    destruct e as [b | | | ]; unfold tdiv; rewrite ?H20;
      unfold scale_inf; rewrite ?H02; unfold tpow.
    + rewrite (Reqb_iff (b / 2) 0 b 0) by (split; lra).
      destruct (Reqb b 0); [ reflexivity | ].
      destruct Hd as [Hpos | <-].
      * rewrite (Rltb_true 0 r Hpos).
        rewrite (Rltb_true 0 (sqrt r)) by (apply sqrt_lt_R0; exact Hpos).
        rewrite Rpower_sqrt_half by exact Hpos. reflexivity.
      * rewrite sqrt_0, (Rltb_false 0 0) by lra.
        rewrite (Reqb_true 0 0) by reflexivity.
        rewrite (Rltb_iff 0 (b / 2) 0 b) by (split; lra). reflexivity.
    + rewrite Habs, Habs'.
      rewrite (Rltb_iff r 1 (sqrt r) 1) by (symmetry; apply sqrt_lt_1; exact Hd).
      rewrite (Reqb_iff r 1 (sqrt r) 1) by (symmetry; apply sqrt_eq_1; exact Hd).
      reflexivity.
    + rewrite Habs, Habs'.
      rewrite (Rltb_iff r 1 (sqrt r) 1) by (symmetry; apply sqrt_lt_1; exact Hd).
      rewrite (Reqb_iff r 1 (sqrt r) 1) by (symmetry; apply sqrt_eq_1; exact Hd).
      reflexivity.
    + rewrite (Reqb_iff r 1 (sqrt r) 1) by (symmetry; apply sqrt_eq_1; exact Hd).
      reflexivity.
  - destruct e as [b | | | ]; unfold tdiv, tsqrt; rewrite ?H20;
      unfold scale_inf; rewrite ?H02; unfold tpow; try reflexivity.
    rewrite (Reqb_iff (b / 2) 0 b 0) by (split; lra).
    rewrite (Rltb_iff 0 (b / 2) 0 b) by (split; lra). reflexivity.
Qed.

(** C4: for every potential and squared distances [d2 >= 0],
    [from_dist_sq d2] is [from_dist (sqrt d2)]: the default of
    [BasePotential] and the one of [RangeSeparatedPotential] compute that
    composition with whatever the instance's methods are, and the direct
    formula [(d2)^(-p/2)] of [InversePowerLawPotential] agrees with
    [(sqrt d2)^(-p)]. *)
Theorem from_dist_sq_is_from_dist_of_sqrt
    (self : InversePowerLawPotential.t) (dist_sq : tensor) :
  Forall nonneg dist_sq ->
  (forall self_from_dist,
     BasePotential.from_dist_sq self_from_dist dist_sq
     = self_from_dist (torch_sqrt dist_sq))
  /\ (forall self_sr_from_dist self_lr_from_dist,
        RangeSeparatedPotential.from_dist_sq
          self_sr_from_dist self_lr_from_dist dist_sq
        = RangeSeparatedPotential.from_dist
            self_sr_from_dist self_lr_from_dist (torch_sqrt dist_sq))
  /\ InversePowerLawPotential.from_dist_sq self dist_sq
     = InversePowerLawPotential.from_dist self (torch_sqrt dist_sq).
Proof.
  intros Hd. repeat split.
  unfold InversePowerLawPotential.from_dist_sq,
    InversePowerLawPotential.from_dist, torch_sqrt.
  rewrite map_map. f_equal. apply map_ext_in. intros d Hin.
  rewrite Forall_forall in Hd.
  unfold InversePowerLawPotential.from_dist_sq1,
    InversePowerLawPotential.from_dist1.
  apply tpow_half_sqrt, Hd, Hin.
Qed.

Lemma from_dist_sq_is_from_dist_of_sqrt_witness :
  let self := InversePowerLawPotential.Build (Finite 1) (Finite 1) in
  Forall nonneg [Finite 0; Finite 4; PInf]
  /\ InversePowerLawPotential.from_dist_sq self [Finite 0; Finite 4; PInf]
     = InversePowerLawPotential.from_dist self
         (torch_sqrt [Finite 0; Finite 4; PInf]).
Proof.
  intros self.
  assert (Hd : Forall nonneg [Finite 0; Finite 4; PInf]).
  { repeat constructor; simpl; lra. }
  split; [ exact Hd | ].
  exact (proj2 (proj2 (from_dist_sq_is_from_dist_of_sqrt self _ Hd))).
Defined.

(** ** The zero wavevector *)

Lemma from_k_sq1_zero {sp : TorchSpecial} (self : InversePowerLawPotential.t) :
  InversePowerLawPotential.from_k_sq1 self (Finite 0) = Finite 0.
Proof.
  unfold InversePowerLawPotential.from_k_sq1. cbn [teq0].
  rewrite (Reqb_true 0 0) by reflexivity. reflexivity.
Qed.

(** Where [k_sq] is not zero, the select keeps the computed value. *)
Lemma from_k_sq1_nonzero {sp : TorchSpecial}
    (self : InversePowerLawPotential.t) (k : R) :
  k <> 0 ->
  InversePowerLawPotential.from_k_sq1 self (Finite k)
  = let exponent := InversePowerLawPotential.exponent self in
    let sigma := InversePowerLawPotential.smearing self in
    let peff := tdiv (tsub (Finite 3) exponent) (Finite 2) in
    let prefac :=
      tmul (tdiv (Finite (Rpower PI 1.5)) (gamma (tdiv exponent (Finite 2))))
           (tpow (tmul (Finite 2) (tpow sigma (Finite 2))) peff) in
    let x := tmul (tmul (Finite 0.5) (tpow sigma (Finite 2))) (Finite k) in
    tmul (tdiv (tmul prefac (gammaincc peff x)) (tpow x peff)) (gamma peff).
Proof.
  intros Hk. unfold InversePowerLawPotential.from_k_sq1. cbn [teq0].
  rewrite (Reqb_false k 0 Hk). reflexivity.
Qed.

(** ** The abstract classes *)

(** C7: on the abstract base potential [from_dist], and on the abstract
    range-separated potential [sr_from_dist] and [lr_from_dist], raise
    [NotImplementedError] for every input and so never return a tensor;
    the methods derived from them ([from_dist_sq], and the sum of the two
    parts) propagate the error. *)
Theorem abstract_methods_raise (cls : string) (dist : tensor) :
  let not_impl (method : string) : result tensor :=
    Raise (Exception NotImplementedError (NotImplementedFor method cls)) in
  BasePotential.from_dist cls dist = not_impl "from_dist"%string
  /\ RangeSeparatedPotential.sr_from_dist cls dist = not_impl "sr_from_dist"%string
  /\ RangeSeparatedPotential.lr_from_dist cls dist = not_impl "lr_from_dist"%string
  /\ (forall v : tensor,
        BasePotential.from_dist cls dist <> Ok v
        /\ RangeSeparatedPotential.sr_from_dist cls dist <> Ok v
        /\ RangeSeparatedPotential.lr_from_dist cls dist <> Ok v)
  /\ BasePotential.from_dist_sq (BasePotential.from_dist cls) dist
     = not_impl "from_dist"%string
  /\ RangeSeparatedPotential.from_dist
       (RangeSeparatedPotential.sr_from_dist cls)
       (RangeSeparatedPotential.lr_from_dist cls) dist
     = not_impl "sr_from_dist"%string.
Proof.
  cbv zeta. repeat split; intros; discriminate.
Qed.

(** The scenario of the specification: at distance 1 the Coulomb
    potential is 1. *)
Example full_potential_at_1 :
  InversePowerLawPotential.from_dist
    (InversePowerLawPotential.Build (Finite 1) (Finite 1)) [Finite 1]
  = Ok [Finite 1].
Proof.
  unfold InversePowerLawPotential.from_dist,
    InversePowerLawPotential.from_dist1. cbn [map tneg
    InversePowerLawPotential.exponent].
  rewrite tpow_pos by lra. unfold Rpower. rewrite ln_1, Rmult_0_r, exp_0.
  reflexivity.
Qed.

(** Outside of its hypothesis the identity of the squared distance
    fails: at [d2 = -4] and [p = 2] the direct formula gives [-1/4], the
    one through the root [NaN]. *)
Example from_dist_sq_negative :
  let self := InversePowerLawPotential.Build (Finite 2) (Finite 1) in
  InversePowerLawPotential.from_dist1 self (tsqrt (Finite (-4))) = NaN
  /\ InversePowerLawPotential.from_dist_sq1 self (Finite (-4))
     = Finite (- / 4).
Proof.
  cbv zeta. unfold InversePowerLawPotential.from_dist1,
    InversePowerLawPotential.from_dist_sq1.
  cbn [InversePowerLawPotential.exponent tneg tsqrt].
  rewrite (Rltb_true (-4) 0) by lra.
  rewrite tdiv_finite by lra.
  replace (Ropp 2 / 2) with (Ropp 1) by lra.
  assert (Hi : Int_part (Ropp 1) = (-1)%Z).
  { symmetry. apply Int_part_spec. lra. }
  split.
  - unfold tpow. rewrite (Reqb_false (Ropp 2) 0) by lra. reflexivity.
  - unfold tpow, odd_int, is_int. rewrite Hi.
    rewrite (Reqb_false (Ropp 1) 0) by lra.
    rewrite (Rltb_false 0 (-4)) by lra.
    rewrite (Reqb_false (-4) 0) by lra.
    rewrite (Reqb_true (IZR (-1)) (Ropp 1)) by lra.
    cbn [andb Z.odd]. f_equal.
    replace (Ropp (-4)) with 4 by lra.
    rewrite Rpower_Ropp, Rpower_1 by lra. lra.
Qed.

(** ** The reciprocal-space long-range part *)

Section ReciprocalSpace.

Import InversePowerLawPotential.

Context {sp : TorchSpecial}.
Hypothesis log_abs : gammaln_log_abs_gamma sp.

(** [exp(gammaln(x))] is the absolute value of the Gamma function. *)
Lemma gamma_abs (x : R) :
  Gamma x <> 0 -> gamma (Finite x) = Finite (Rabs (Gamma x)).
Proof.
  intros Hx. unfold gamma. rewrite (log_abs x Hx). cbn [texp].
  rewrite exp_ln; [ reflexivity | ]. apply Rabs_pos_lt. exact Hx.
Qed.

Variables p sigma k : R.
Hypothesis p_pos : 0 < p.
Hypothesis sigma_pos : 0 < sigma.
Hypothesis k_pos : 0 < k.

Let self : InversePowerLawPotential.t := Build (Finite p) (Finite sigma).
Let peff : R := (3 - p) / 2.
Let x : R := sigma * sigma * k / 2.
Let prefac : R :=
  Rpower PI 1.5 / Gamma (p / 2) * Rpower (2 * (sigma * sigma)) peff.

Lemma prefac_pos : 0 < prefac.
Proof.
  unfold prefac. apply Rmult_lt_0_compat; [ | apply Rpower_pos ].
  apply Rdiv_lt_0_compat; [ apply Rpower_pos | apply Gamma_pos; lra ].
Qed.

(** What the method computes away from the poles of the Gamma function:
    the last factor is [|Gamma(peff)|]. *)
Lemma from_k_sq1_value :
  Gamma peff <> 0 ->
  from_k_sq1 self (Finite k)
  = tmul (tdiv (tmul (Finite prefac) (gammaincc (Finite peff) (Finite x)))
               (Finite (Rpower x peff)))
         (Finite (Rabs (Gamma peff))).
Proof.
  intros Hpole.
  assert (Hs2 : 0 < sigma * sigma) by nra.
  assert (Hg : Gamma (p / 2) <> 0).
  { apply Rgt_not_eq, Gamma_pos. lra. }
  rewrite from_k_sq1_nonzero by lra.
  unfold self, prefac, peff, x. cbn [exponent smearing]. cbv zeta.
  unfold tsub. cbn [tneg]. rewrite tadd_finite, !tpow_2, !tmul_finite.
  rewrite !tdiv_finite by lra.
  replace ((3 + - p) / 2) with ((3 - p) / 2) by (unfold Rminus; reflexivity).
  replace (0.5 * (sigma * sigma) * k) with (sigma * sigma * k / 2)
    by (rewrite half_eq; field).
  assert (Hx : 0 < sigma * sigma * k / 2) by nra.
  rewrite !gamma_abs by assumption.
  rewrite !tpow_pos by lra.
  rewrite tdiv_finite by (apply Rgt_not_eq, Rabs_pos_lt; exact Hg).
  rewrite tmul_finite, (Rabs_pos_eq (Gamma (p / 2)));
    [ reflexivity | left; apply Gamma_pos; lra ].
Qed.

(** Below [p = 3] both arguments of the Gamma function are positive,
    and the method computes the formula of the specification. *)
Theorem from_k_sq_matches_spec_below_3 :
  gammaincc_regularized sp ->
  p < 3 -> from_k_sq1 self (Finite k) = Finite (from_k_sq_spec p sigma k).
Proof.
  intros Hreg Hp.
  assert (H1 := Gamma_pos (p / 2) ltac:(lra)).
  assert (H2 : 0 < Gamma peff) by (apply Gamma_pos; unfold peff; lra).
  assert (Hx : 0 <= x) by (unfold x; nra).
  assert (HX := Rpower_pos x peff).
  rewrite from_k_sq1_value by lra.
  rewrite (Hreg peff x) by (unfold peff; lra || exact Hx).
  rewrite tmul_finite, tdiv_finite, tmul_finite by lra.
  rewrite Rabs_pos_eq by lra.
  f_equal. unfold from_k_sq_spec. fold peff x prefac. field. lra.
Qed.

(** Between [p = 3] and [p = 5] the Gamma function is negative at
    [(3-p)/2] and the method drops its sign: it returns the formula of
    the specification only if [gammaincc] returns the opposite of the
    regularized function there; if [gammaincc] returns that function
    the result is the opposite of the formula, and if it returns [NaN]
    the result is [NaN]. *)
Theorem from_k_sq_between_3_and_5 :
  3 < p < 5 ->
  (from_k_sq1 self (Finite k) = Finite (from_k_sq_spec p sigma k)
   <-> gammaincc (Finite peff) (Finite x)
       = Finite (- reg_upper_gamma peff x))
  /\ (gammaincc (Finite peff) (Finite x) = Finite (reg_upper_gamma peff x) ->
      from_k_sq1 self (Finite k) = Finite (- from_k_sq_spec p sigma k))
  /\ (gammaincc (Finite peff) (Finite x) = NaN ->
      from_k_sq1 self (Finite k) = NaN).
Proof.
  intros Hp.
  assert (H1 := Gamma_pos (p / 2) ltac:(lra)).
  assert (H2 : Gamma peff < 0) by (apply Gamma_neg; unfold peff; lra).
  assert (HA := prefac_pos).
  assert (HX := Rpower_pos x peff).
  assert (HXb : Rltb 0 (Rpower x peff) = true) by (apply Rltb_true; exact HX).
  assert (HX0 : Reqb (Rpower x peff) 0 = false) by (apply Reqb_false; lra).
  assert (HAb : Rltb 0 prefac = true) by (apply Rltb_true; exact HA).
  assert (HGb : Rltb 0 (- Gamma peff) = true) by (apply Rltb_true; lra).
  rewrite from_k_sq1_value by lra.
  rewrite (Rabs_left (Gamma peff)) by exact H2.
  assert (Hspec : from_k_sq_spec p sigma k
                  = prefac * reg_upper_gamma peff x * Gamma peff
                    / Rpower x peff) by reflexivity.
  destruct (gammaincc (Finite peff) (Finite x)) as [q | | | ].
  - rewrite tmul_finite, tdiv_finite, tmul_finite by lra.
    split; [ split | split ].
    + intros H. inversion H as [Heq]. f_equal.
      rewrite Hspec in Heq.
      assert (Hc : prefac * / Rpower x peff * Gamma peff
                   * (q + reg_upper_gamma peff x) = 0).
      { unfold Rdiv in Heq. lra. }
      apply Rmult_integral in Hc.
      assert (Hnz : prefac * / Rpower x peff * Gamma peff <> 0).
      { assert (0 < / Rpower x peff) by (apply Rinv_0_lt_compat; exact HX).
        assert (0 < prefac * / Rpower x peff)
          by (apply Rmult_lt_0_compat; assumption).
        nra. }
      destruct Hc as [Hc | Hc]; [ contradiction | lra ].
    + intros H. inversion H. f_equal. rewrite Hspec. field. lra.
    + intros H. inversion H. f_equal. rewrite Hspec. field. lra.
    + discriminate.
  - unfold tmul, tdiv, scale_inf. rewrite HAb, HX0, HXb, HGb.
    split; [ split; discriminate | split; discriminate ].
  - unfold tmul, tdiv, scale_inf. rewrite HAb, HX0, HXb. cbn [tneg].
    rewrite HGb.
    split; [ split; discriminate | split; discriminate ].
  - split; [ split; discriminate | split; [ discriminate | reflexivity ] ].
Qed.

End ReciprocalSpace.

(** C3: at exponent 4, smearing 1 and squared wavevector 1/50 the claimed
    formula is not what the method returns.  There [(3-p)/2 = -1/2], the
    method multiplies by [exp(gammaln(-1/2)) = |Gamma(-1/2)|] where the
    formula has [Gamma(-1/2) < 0], and [Q(-1/2, 1/100)] is not zero: the
    method returns the opposite of the formula if [gammaincc] computes
    [Q] there, and [NaN] if [gammaincc] returns [NaN] off its documented
    domain. *)
Theorem from_k_sq_at_exponent_4 {sp : TorchSpecial} :
  gammaln_log_abs_gamma sp ->
  let self := InversePowerLawPotential.Build (Finite 4) (Finite 1) in
  let k_sq := / 50 in
  let peff := (3 - 4) / 2 in
  let x := 1 * 1 * k_sq / 2 in
  let code := InversePowerLawPotential.from_k_sq1 self (Finite k_sq) in
  let formula := from_k_sq_spec 4 1 k_sq in
  Gamma peff < 0
  /\ gamma (Finite peff) = Finite (- Gamma peff)
  /\ reg_upper_gamma peff x < 0
  /\ 0 < formula
  /\ (gammaincc (Finite peff) (Finite x) = Finite (reg_upper_gamma peff x) ->
      code = Finite (- formula) /\ code <> Finite formula)
  /\ (gammaincc (Finite peff) (Finite x) = NaN ->
      code = NaN /\ code <> Finite formula)
  /\ (code = Finite formula ->
      gammaincc (Finite peff) (Finite x)
      = Finite (- reg_upper_gamma peff x)).
Proof.
  intros Hln self k_sq peff x code formula.
  assert (Hneg : Gamma peff < 0) by (apply Gamma_neg; unfold peff; lra).
  assert (HQ : reg_upper_gamma peff x < 0).
  { replace peff with (- / 2) by (unfold peff; lra).
    replace x with (/ 100) by (unfold x, k_sq; lra).
    exact reg_upper_gamma_negative. }
  assert (Hform : 0 < formula).
  { unfold formula, from_k_sq_spec. fold k_sq peff x.
    assert (H1 := Rpower_pos PI 1.5).
    assert (H2 := Gamma_pos (4 / 2) ltac:(lra)).
    assert (H3 := Rpower_pos (2 * (1 * 1)) peff).
    assert (H4 := Rpower_pos x peff).
    assert (H5 : 0 < Rpower PI 1.5 / Gamma (4 / 2) * Rpower (2 * (1 * 1)) peff).
    { apply Rmult_lt_0_compat; [ apply Rdiv_lt_0_compat | ]; assumption. }
    apply Rdiv_lt_0_compat; [ | exact H4 ].
    rewrite Rmult_assoc.
    apply Rmult_lt_0_compat; [ exact H5 | nra ]. }
  destruct (from_k_sq_between_3_and_5 Hln 4 1 k_sq
              ltac:(lra) ltac:(lra) ltac:(unfold k_sq; lra) ltac:(lra))
    as (Hiff & Hq & Hnan).
  fold self peff x code formula in Hiff, Hq, Hnan.
  split; [ exact Hneg | ].
  split.
  { rewrite (gamma_abs Hln) by lra. rewrite Rabs_left by exact Hneg.
    reflexivity. }
  split; [ exact HQ | ].
  split; [ exact Hform | ].
  split.
  { intros Hg. rewrite (Hq Hg).
    split; [ reflexivity | intros H; inversion H; lra ]. }
  split.
  { intros Hg. rewrite (Hnan Hg). split; [ reflexivity | discriminate ]. }
  apply Hiff.
Qed.

Lemma reference_special_log_abs : gammaln_log_abs_gamma reference_special.
Proof.
  intros x Hx. cbn [gammaln reference_special].
  rewrite (Reqb_false _ _ Hx). reflexivity.
Qed.

Lemma reference_special_regularized :
  gammaincc_regularized reference_special.
Proof.
  intros a x Ha Hx. cbn [gammaincc reference_special].
  rewrite (Rltb_true 0 a Ha), (Rleb_true 0 x Hx). reflexivity.
Qed.

Lemma from_k_sq_at_exponent_4_witness :
  let self := InversePowerLawPotential.Build (Finite 4) (Finite 1) in
  gammaln_log_abs_gamma reference_special
  /\ InversePowerLawPotential.from_k_sq1 (sp := reference_special) self
       (Finite (/ 50))
     <> Finite (from_k_sq_spec 4 1 (/ 50)).
Proof.
  intros self. split; [ exact reference_special_log_abs | ].
  destruct (from_k_sq_at_exponent_4 (sp := reference_special)
              reference_special_log_abs)
    as (_ & _ & _ & _ & _ & Hnan & _).
  apply Hnan.
  cbn [gammaincc reference_special].
  rewrite (Rltb_false 0 ((3 - 4) / 2)) by lra. reflexivity.
Defined.

(** ** The select at [k_sq == 0] *)

Lemma double_overflow_above_1 : 1 < double_overflow.
Proof.
  unfold double_overflow.
  replace 1024%nat with (54 + 970)%nat by reflexivity.
  rewrite pow_add.
  assert (Ha : 1 <= 2 ^ 970) by (apply pow_R1_Rle; lra).
  assert (Hb : 4 <= 2 ^ 54).
  { replace 54%nat with (2 + 52)%nat by reflexivity. rewrite pow_add.
    assert (H52 : 1 <= 2 ^ 52) by (apply pow_R1_Rle; lra).
    simpl (2 ^ 2). nra. }
  nra.
Qed.

Lemma double_overflow_below_2_1200 : double_overflow <= 2 ^ 600 * 2 ^ 600.
Proof.
  unfold double_overflow. rewrite <- pow_add.
  replace (600 + 600)%nat with (176 + 1024)%nat by reflexivity.
  rewrite pow_add.
  assert (Ha : 1 <= 2 ^ 176) by (apply pow_R1_Rle; lra).
  assert (Hb : 0 < 2 ^ 1024) by (apply pow_lt; lra).
  assert (Hc : 0 < 2 ^ 970) by (apply pow_lt; lra).
  nra.
Qed.

(** [from_k_sq] on one element is the select between the constant 0 and
    the value of the formula. *)
Lemma from_k_sq1_select {sp : TorchSpecial}
    (self : InversePowerLawPotential.t) (k : tval) :
  InversePowerLawPotential.from_k_sq1 self k
  = twhere0 (teq0 k) (InversePowerLawPotential.from_k_sq_unselected self k).
Proof. reflexivity. Qed.

(** At [k_sq = 0] and for an exponent below 3 the value of the formula
    is [+inf]: the prefactor over [0 ** peff = 0]. *)
Lemma from_k_sq_unselected_at_0 {sp : TorchSpecial} (p sigma : R) :
  gammaln_log_abs_gamma sp -> gammaincc_regularized sp ->
  0 < p < 3 -> 0 < sigma ->
  InversePowerLawPotential.from_k_sq_unselected
    (InversePowerLawPotential.Build (Finite p) (Finite sigma)) (Finite 0)
  = PInf.
Proof.
  intros Hln Hreg [Hp0 Hp3] Hsigma.
  assert (Hs2 : 0 < sigma * sigma) by nra.
  assert (HG1 := Gamma_pos (p / 2) ltac:(lra)).
  assert (HG2 := Gamma_pos ((3 + - p) / 2) ltac:(lra)).
  assert (HR := Rpower_pos (2 * (sigma * sigma)) ((3 + - p) / 2)).
  assert (HP : 0 < Rpower PI 1.5) by apply Rpower_pos.
  unfold InversePowerLawPotential.from_k_sq_unselected.
  cbn [InversePowerLawPotential.exponent InversePowerLawPotential.smearing].
  cbv zeta. unfold tsub. cbn [tneg tadd].
  rewrite !tpow_2, !tmul_finite.
  rewrite (tdiv_finite (3 + - p) 2), (tdiv_finite p 2) by lra.
  rewrite !(gamma_abs Hln) by lra.
  rewrite !Rabs_pos_eq by lra.
  rewrite tpow_pos by lra.
  rewrite tdiv_finite, tmul_finite by lra.
  replace (0.5 * (sigma * sigma) * 0) with 0 by ring.
  rewrite (Hreg ((3 + - p) / 2) 0) by lra.
  rewrite reg_upper_gamma_pos_arg by lra.
  assert (Hlow : reg_lower_gamma ((3 + - p) / 2) 0 = 0).
  { unfold reg_lower_gamma. rewrite (Rltb_false 0 0) by lra. reflexivity. }
  rewrite Hlow, tmul_finite.
  assert (Hxp : tpow (Finite 0) (Finite ((3 + - p) / 2)) = Finite 0).
  { unfold tpow. rewrite (Reqb_false ((3 + - p) / 2) 0) by lra.
    rewrite (Rltb_false 0 0) by lra.
    rewrite (Reqb_true 0 0 eq_refl), (Rltb_true 0 ((3 + - p) / 2)) by lra.
    reflexivity. }
  rewrite Hxp.
  assert (Hpre : 0 < Rpower PI 1.5 / Gamma (p / 2)
                     * Rpower (2 * (sigma * sigma)) ((3 + - p) / 2)
                     * (1 - 0)).
  { rewrite Rminus_0_r, Rmult_1_r.
    apply Rmult_lt_0_compat; [ apply Rdiv_lt_0_compat | ]; assumption. }
  unfold tdiv. rewrite (Reqb_true 0 0 eq_refl).
  unfold scale_inf at 1. rewrite (Rltb_true _ _ Hpre).
  cbn [tmul]. unfold scale_inf. rewrite (Rltb_true _ _ HG2). reflexivity.
Qed.




(** ** Method calls leave the store alone *)

Section Stateless.

Import MethodCall.

Context {sp : TorchSpecial}.

Lemma extends_refl (s : store) : extends s s.
Proof. repeat split; auto. Qed.

Lemma extends_trans (s1 s2 s3 : store) :
  extends s1 s2 -> extends s2 s3 -> extends s1 s3.
Proof.
  intros (Ha & Hl & Hd) (Ha' & Hl' & Hd'). repeat split.
  - congruence.
  - lia.
  - intros i Hi. rewrite Hd' by lia. apply Hd. exact Hi.
Qed.

Lemma alloc_spec (v : tensor) (s : store) :
  let (r, s') := alloc v s in
  extends s s'
  /\ (List.length (storages s) <= r < List.length (storages s'))%nat
  /\ deref s' r = v.
Proof.
  unfold alloc, extends, deref. cbn [self_attrs storages].
  rewrite length_app. cbn [List.length]. repeat split; try lia.
  - intros i Hi. apply app_nth1. exact Hi.
  - apply nth_middle.
Qed.

Lemma op1_spec (f : tval -> tval) (a : tensor_ref) (s : store) :
  let (r, s') := op1 f a s in
  extends s s'
  /\ (List.length (storages s) <= r < List.length (storages s'))%nat
  /\ deref s' r = map f (deref s a).
Proof. apply alloc_spec. Qed.

Lemma op2_spec (f : tval -> tval -> tval) (a b : tensor_ref) (s : store) :
  let (r, s') := op2 f a b s in
  extends s s'
  /\ (List.length (storages s) <= r < List.length (storages s'))%nat
  /\ deref s' r = zip_with f (deref s a) (deref s b).
Proof. apply alloc_spec. Qed.

Lemma zip_with_map (f : tval -> tval -> tval) (g h : tval -> tval)
    (l : tensor) :
  zip_with f (map g l) (map h l) = map (fun d => f (g d) (h d)) l.
Proof. induction l as [ | d l IH ]; simpl; [ | rewrite IH ]; reflexivity. Qed.

Lemma zip_with_map_r (f : tval -> tval -> tval) (h : tval -> tval)
    (l : tensor) :
  zip_with f l (map h l) = map (fun d => f d (h d)) l.
Proof. induction l as [ | d l IH ]; simpl; [ | rewrite IH ]; reflexivity. Qed.

(** One step of a method body: run the next operation and record what
    it allocated. *)
Ltac step_op :=
  let r := fresh "r" in
  let s' := fresh "s" in
  let Ha := fresh "Hattrs" in
  let Hl := fresh "Hlen" in
  let Hd := fresh "Hold" in
  let Hr := fresh "Hr" in
  let Hv := fresh "Hv" in
  match goal with
  | |- context [ op1 ?f ?a ?s ] =>
      generalize (op1_spec f a s);
      destruct (op1 f a s) as [r s']; intros ((Ha & Hl & Hd) & Hr & Hv)
  | |- context [ op2 ?f ?a ?b ?s ] =>
      generalize (op2_spec f a b s);
      destruct (op2 f a b s) as [r s']; intros ((Ha & Hl & Hd) & Hr & Hv)
  end.

(** Read a tensor through the stores it has lived in, back to the
    operation that allocated it. *)
Ltac read_back :=
  repeat match goal with
         | H : deref ?s' ?r = _ |- context [ deref ?s' ?r ] => rewrite H
         | Hd : forall i, _ -> deref ?s' i = deref _ i
           |- context [ deref ?s' ?r ] => rewrite (Hd r) by lia
         end.

Ltac run_body :=
  unfold seq, getattr; cbv beta iota zeta;
  repeat step_op;
  split; [ repeat split; [ congruence | lia | intros; read_back; reflexivity ]
         | split; [ lia | ] ];
  read_back;
  repeat progress rewrite ?map_map, ?zip_with_map, ?zip_with_map_r;
  reflexivity.

Lemma from_dist_computes :
  computes MethodCall.from_dist InversePowerLawPotential.from_dist1.
Proof. intros s a Ha. unfold MethodCall.from_dist. run_body. Qed.

Lemma from_dist_sq_computes :
  computes MethodCall.from_dist_sq InversePowerLawPotential.from_dist_sq1.
Proof. intros s a Ha. unfold MethodCall.from_dist_sq. run_body. Qed.

Lemma sr_from_dist_computes :
  computes MethodCall.sr_from_dist InversePowerLawPotential.sr_from_dist1.
Proof. intros s a Ha. unfold MethodCall.sr_from_dist. run_body. Qed.

Lemma lr_from_dist_computes :
  computes MethodCall.lr_from_dist InversePowerLawPotential.lr_from_dist1.
Proof. intros s a Ha. unfold MethodCall.lr_from_dist. run_body. Qed.

Lemma from_k_sq_computes :
  computes MethodCall.from_k_sq InversePowerLawPotential.from_k_sq1.
Proof. intros s a Ha. unfold MethodCall.from_k_sq. run_body. Qed.

(** A method that computes a kernel can be called twice with the same
    result, and touches nothing that was in the store. *)
Lemma computes_stateless (m : tensor_ref -> prog tensor_ref)
    (kernel : InversePowerLawPotential.t -> tval -> tval)
    (s : store) (a : tensor_ref) :
  computes m kernel ->
  (a < List.length (storages s))%nat ->
  stateless_call m s a.
Proof.
  intros Hm Ha. unfold stateless_call.
  generalize (Hm s a Ha). destruct (m a s) as [r1 s1].
  intros ((Hat1 & Hl1 & Hd1) & Hr1 & Hv1).
  assert (Ha1 : (a < List.length (storages s1))%nat) by lia.
  generalize (Hm s1 a Ha1). destruct (m a s1) as [r2 s2].
  intros ((Hat2 & Hl2 & Hd2) & Hr2 & Hv2).
  assert (H21 : deref s2 r1 = deref s1 r1) by (apply Hd2; lia).
  split; [ | split; [ | split; [ | split ] ] ].
  - rewrite Hv2, H21, Hv1, Hat1, (Hd1 a Ha). reflexivity.
  - exact H21.
  - exact Hat1.
  - congruence.
  - intros i Hi. split.
    + apply Hd1. exact Hi.
    + rewrite Hd2 by lia. apply Hd1. exact Hi.
Qed.

(** C8: each of the five evaluators of the inverse power law, called
    twice in a row on the same input tensor of the same instance,
    returns tensors with identical entries; neither call changes the
    attributes [exponent] and [smearing], nor any tensor that was in
    the store before it (the input among them). *)
Theorem evaluators_are_stateless (s : store) (a : tensor_ref) :
  (a < List.length (storages s))%nat ->
  stateless_call MethodCall.from_dist s a
  /\ stateless_call MethodCall.from_dist_sq s a
  /\ stateless_call MethodCall.sr_from_dist s a
  /\ stateless_call MethodCall.lr_from_dist s a
  /\ stateless_call MethodCall.from_k_sq s a.
Proof.
  intros Ha. split; [ | split; [ | split; [ | split ] ] ].
  - exact (computes_stateless _ _ s a from_dist_computes Ha).
  - exact (computes_stateless _ _ s a from_dist_sq_computes Ha).
  - exact (computes_stateless _ _ s a sr_from_dist_computes Ha).
  - exact (computes_stateless _ _ s a lr_from_dist_computes Ha).
  - exact (computes_stateless _ _ s a from_k_sq_computes Ha).
Qed.

End Stateless.

Lemma evaluators_are_stateless_witness :
  let s := MethodCall.Store
             (InversePowerLawPotential.Build (Finite 1) (Finite 1))
             [[Finite 1; Finite 4]] in
  (0 < List.length (MethodCall.storages s))%nat
  /\ MethodCall.stateless_call MethodCall.from_dist s 0%nat
  /\ MethodCall.stateless_call
       (MethodCall.sr_from_dist (sp := reference_special)) s 0%nat.
Proof.
  intros s.
  assert (H : (0 < List.length (MethodCall.storages s))%nat)
    by (simpl; lia).
  split; [ exact H | ].
  destruct (evaluators_are_stateless (sp := reference_special) s 0%nat H)
    as (H1 & _ & H3 & _).
  split; [ exact H1 | exact H3 ].
Defined.

(** The theorem is about the five methods as the source writes them,
    not about every program on the store: with the in-place power of
    torch in the place of [torch.pow], [from_dist] overwrites its input,
    and a call of it is not stateless. *)
Example in_place_power_is_not_stateless :
  let s := MethodCall.Store
             (InversePowerLawPotential.Build (Finite 1) (Finite 1))
             [[Finite 2]] in
  ~ MethodCall.stateless_call MethodCall.from_dist_with_pow_ s 0%nat.
Proof.
  intros s H.
  cbv [MethodCall.stateless_call MethodCall.from_dist_with_pow_
       MethodCall.seq MethodCall.getattr MethodCall.op1_in_place
       MethodCall.deref MethodCall.overwrite MethodCall.storages
       MethodCall.self_attrs s map nth List.length
       InversePowerLawPotential.exponent tneg] in H.
  destruct H as (_ & _ & _ & _ & H).
  destruct (H 0%nat (le_n 1)) as [Hin _].
  rewrite tpow_pos in Hin by lra.
  inversion Hin as [Hv].
  rewrite Rpower_Ropp, Rpower_1 in Hv by lra. lra.
Qed.

(** ** The validation gate *)

Lemma dtype_eqb_eq (a b : torch_dtype) : dtype_eqb a b = true <-> a = b.
Proof. destruct a, b; simpl; split; intros H; congruence. Qed.

Lemma index_eqb_eq (a b : option nat) : index_eqb a b = true <-> a = b.
Proof.
  destruct a as [i | ], b as [j | ]; simpl; split; intros H;
    try congruence.
  - apply Nat.eqb_eq in H. congruence.
  - apply Nat.eqb_eq. congruence.
Qed.

Lemma device_eqb_eq (a b : torch_device) : device_eqb a b = true <-> a = b.
Proof.
  destruct a as [ta ia], b as [tb ib]. unfold device_eqb. simpl.
  rewrite andb_true_iff, String.eqb_eq, index_eqb_eq.
  split; [ intros [-> ->]; reflexivity | intros H; inversion H; auto ].
Qed.

Lemma shape_eqb_eq (a b : list nat) : shape_eqb a b = true <-> a = b.
Proof.
  revert b. induction a as [ | x a IH ]; intros [ | y b ]; simpl;
    try (split; intros H; congruence).
  rewrite andb_true_iff, Nat.eqb_eq, IH.
  split; [ intros [-> ->]; reflexivity | intros H; inversion H; auto ].
Qed.

Lemma dtype_neqb (a b : torch_dtype) :
  negb (dtype_eqb a b) = false <-> a = b.
Proof. rewrite negb_false_iff. apply dtype_eqb_eq. Qed.

Lemma device_neqb (a b : torch_device) :
  negb (device_eqb a b) = false <-> a = b.
Proof. rewrite negb_false_iff. apply device_eqb_eq. Qed.

Lemma shape_neqb (a b : list nat) :
  negb (shape_eqb a b) = false <-> a = b.
Proof. rewrite negb_false_iff. apply shape_eqb_eq. Qed.

Lemma shape_neqb_true (a b : list nat) :
  negb (shape_eqb a b) = true <-> a <> b.
Proof.
  rewrite negb_true_iff. split; intros H.
  - intros E. apply shape_eqb_eq in E. congruence.
  - destruct (shape_eqb a b) eqn:E; [ | reflexivity ].
    apply shape_eqb_eq in E. contradiction.
Qed.

(** The three outcomes of the determinant test. *)
Lemma determinant_is_zero_false {la : TorchLinalg} (smearing : option R)
    (cell : Tensor) :
  determinant_is_zero smearing cell = Ok false
  <-> smearing = None \/ nonzero_determinant cell.
Proof.
  unfold determinant_is_zero, nonzero_determinant.
  destruct smearing as [v | ].
  - destruct (det cell) as [d | cls]; cbn [from_torch bind]; split.
    + intros H. right. exists d. split; [ reflexivity | congruence ].
    + intros [H | (d' & Hd & Hz)]; [ discriminate | congruence ].
    + discriminate.
    + intros [H | (d' & Hd & _)]; discriminate.
  - split; [ left; reflexivity | reflexivity ].
Qed.

Lemma determinant_is_zero_true {la : TorchLinalg} (smearing : option R)
    (cell : Tensor) :
  determinant_is_zero smearing cell = Ok true
  <-> smearing <> None /\ zero_determinant cell.
Proof.
  unfold determinant_is_zero, zero_determinant.
  destruct smearing as [v | ].
  - destruct (det cell) as [d | cls]; cbn [from_torch bind]; split.
    + intros H. split; [ discriminate | ].
      exists d. split; [ reflexivity | congruence ].
    + intros [_ (d' & Hd & Hz)]. congruence.
    + discriminate.
    + intros [_ (d' & Hd & _)]. discriminate.
  - split; [ discriminate | intros [H _]; contradiction ].
Qed.

Lemma determinant_is_zero_raise {la : TorchLinalg} (smearing : option R)
    (cell : Tensor) (e : py_exception) :
  determinant_is_zero smearing cell = Raise e
  <-> exists cls,
        e = Exception cls TorchMessage
        /\ smearing <> None /\ det cell = Throws cls.
Proof.
  unfold determinant_is_zero.
  destruct smearing as [v | ].
  - destruct (det cell) as [d | cls]; cbn [from_torch bind]; split.
    + discriminate.
    + intros (cls & _ & _ & H). discriminate.
    + intros H. exists cls. inversion H.
      split; [ reflexivity | split; [ discriminate | reflexivity ] ].
    + intros (cls' & -> & _ & H). congruence.
  - split; [ discriminate | intros (cls & _ & H & _); contradiction ].
Qed.

(** With [positions] and [cell] accepted, the gate is at its determinant
    check. *)
Lemma gate_after_geometry {la : TorchLinalg}
    (charges cell positions neighbor_indices neighbor_distances : Tensor)
    (smearing : option R) (dtype' : torch_dtype) (device' : torch_device)
    (n : nat) :
  geometry_inputs_ok cell positions dtype' device' ->
  shape positions = [n; 3%nat] ->
  _validate_parameters charges cell positions neighbor_indices
    neighbor_distances smearing dtype' device'
  = (singular <- determinant_is_zero smearing cell ;;
     raise_if singular ValueError (GateCheck CellDeterminant) ;;;
     raise_if (negb (Nat.eqb (dim charges) 2))
       ValueError (GateCheck ChargesDim) ;;;
     n_channels <- shape_at charges 1 ;;
     raise_if (negb (shape_eqb (shape charges) [n; n_channels]))
       ValueError (GateCheck ChargesShape) ;;;
     raise_if (negb (dtype_eqb (dtype charges) (dtype positions)))
       TypeError (GateCheck ChargesDtype) ;;;
     raise_if (negb (device_eqb (device charges) device'))
       ValueError (GateCheck ChargesDevice) ;;;
     neighbor_checks positions neighbor_indices neighbor_distances device'
    )%result.
Proof.
  intros (Hpt & Hpd & _ & Hcs & Hct & Hcd) Hps.
  unfold _validate_parameters, len.
  rewrite (proj2 (dtype_neqb _ _) Hpt), (proj2 (device_neqb _ _) Hpd), Hps.
  cbn [raise_if bind].
  rewrite (proj2 (shape_neqb _ _) eq_refl), (proj2 (shape_neqb _ _) Hcs).
  rewrite (proj2 (dtype_neqb (dtype cell) _)) by congruence.
  rewrite (proj2 (device_neqb _ _) Hcd).
  reflexivity.
Qed.

(** With everything before the neighbor data accepted, what is left of
    the gate are the checks on the neighbor data. *)
Lemma gate_after_frame {la : TorchLinalg}
    (charges cell positions neighbor_indices neighbor_distances : Tensor)
    (smearing : option R) (dtype' : torch_dtype) (device' : torch_device) :
  frame_ok charges cell positions smearing dtype' device' ->
  _validate_parameters charges cell positions neighbor_indices
    neighbor_distances smearing dtype' device'
  = neighbor_checks positions neighbor_indices neighbor_distances device'.
Proof.
  intros (Hgeo & Hdet & (n & c & Hps & Hqs) & Hqt & Hqd).
  rewrite (gate_after_geometry _ _ _ _ _ _ _ _ n Hgeo Hps).
  rewrite (proj2 (determinant_is_zero_false smearing cell) Hdet).
  unfold dim, shape_at. rewrite Hqs.
  cbn [raise_if bind List.length Nat.eqb negb nth_error].
  rewrite (proj2 (shape_neqb _ _) eq_refl).
  rewrite (proj2 (dtype_neqb (dtype charges) _))
    by (destruct Hgeo as (-> & _); exact Hqt).
  rewrite (proj2 (device_neqb _ _) Hqd).
  reflexivity.
Qed.

(** ** Checks on the neighbor data *)

(** One step of a case analysis on a run of the gate [H]: decide the
    check at its head. *)
Ltac gate_head H :=
  let E := fresh "E" in
  let E' := fresh "E" in
  lazymatch type of H with
  | bind (raise_if ?b _ _) _ = _ =>
      destruct b eqn:E; cbn [raise_if bind] in H
  | bind (determinant_is_zero ?s ?c) _ = _ =>
      destruct (determinant_is_zero s c) as [ [ | ] | ? ] eqn:E;
      cbn [raise_if bind] in H;
      [ | | apply determinant_is_zero_raise in E;
            destruct E as (? & -> & ? & ?) ]
  | bind (len ?t) _ = _ =>
      destruct (len t) eqn:E; cbn [bind] in H;
      unfold len in E; destruct (shape t) eqn:E';
      inversion E; subst; clear E
  | bind (shape_at ?t ?i) _ = _ =>
      destruct (shape_at t i) eqn:E; cbn [bind] in H;
      unfold shape_at in E; destruct (nth_error (shape t) i) eqn:E';
      inversion E; subst; clear E
  | bind (column0_shape ?t) _ = _ =>
      destruct (column0_shape t) eqn:E; cbn [bind] in H;
      unfold column0_shape in E;
      destruct (shape t) as [ | ? [ | [ | ? ] ? ] ] eqn:E';
      inversion E; subst; clear E
  end.

(** What the first six checks establish once they have all passed. *)
Lemma geometry_ok_intro
    (cell positions : Tensor) (dtype' : torch_dtype) (device' : torch_device)
    (n : nat) (rest : list nat) :
  negb (dtype_eqb (dtype positions) dtype') = false ->
  negb (device_eqb (device positions) device') = false ->
  shape positions = n :: rest ->
  negb (shape_eqb (n :: rest) [n; 3%nat]) = false ->
  negb (shape_eqb (shape cell) [3%nat; 3%nat]) = false ->
  negb (dtype_eqb (dtype cell) (dtype positions)) = false ->
  negb (device_eqb (device cell) device') = false ->
  geometry_inputs_ok cell positions dtype' device'.
Proof.
  intros Hpt Hpd Hps Hps' Hcs Hct Hcd.
  apply dtype_neqb in Hpt, Hct. apply device_neqb in Hpd, Hcd.
  apply shape_neqb in Hps', Hcs.
  assert (Hp3 : shape positions = [n; 3%nat]) by congruence.
  repeat split; try congruence.
  exists n. exact Hp3.
Qed.

(** What the first eleven checks establish once they have all passed. *)
Lemma frame_ok_intro {la : TorchLinalg}
    (charges cell positions : Tensor) (smearing : option R)
    (dtype' : torch_dtype) (device' : torch_device) (n c : nat)
    (rest : list nat) :
  negb (dtype_eqb (dtype positions) dtype') = false ->
  negb (device_eqb (device positions) device') = false ->
  shape positions = n :: rest ->
  negb (shape_eqb (n :: rest) [n; 3%nat]) = false ->
  negb (shape_eqb (shape cell) [3%nat; 3%nat]) = false ->
  negb (dtype_eqb (dtype cell) (dtype positions)) = false ->
  negb (device_eqb (device cell) device') = false ->
  determinant_is_zero smearing cell = Ok false ->
  nth_error (shape charges) 1 = Some c ->
  negb (shape_eqb (shape charges) [n; c]) = false ->
  negb (dtype_eqb (dtype charges) (dtype positions)) = false ->
  negb (device_eqb (device charges) device') = false ->
  frame_ok charges cell positions smearing dtype' device'.
Proof.
  intros Hpt Hpd Hps Hps' Hcs Hct Hcd Hdet Hqc Hqs Hqt Hqd.
  assert (Hgeo := geometry_ok_intro cell positions dtype' device' n rest
                    Hpt Hpd Hps Hps' Hcs Hct Hcd).
  apply dtype_neqb in Hpt, Hqt. apply device_neqb in Hqd.
  apply shape_neqb in Hps', Hqs.
  split; [ exact Hgeo | ].
  split; [ apply determinant_is_zero_false; exact Hdet | ].
  split; [ exists n, c; split; congruence | ].
  split; congruence.
Qed.

(** The rank test on [charges] protects the read of [charges.shape[1]]. *)
Lemma rank_2_has_width (t : Tensor) :
  negb (Nat.eqb (dim t) 2) = false -> nth_error (shape t) 1 = None -> False.
Proof.
  intros Hd Hn. apply negb_false_iff, Nat.eqb_eq in Hd.
  apply nth_error_None in Hn. unfold dim in Hd. lia.
Qed.

(** A run of the gate either stops at a check on [positions], [cell] or
    [charges], at [len(positions)] or inside [cell.det()], or has
    accepted all three tensors and is the run of the checks on the
    neighbor data. *)
Lemma gate_frame_split {la : TorchLinalg}
    (charges cell positions neighbor_indices neighbor_distances : Tensor)
    (smearing : option R) (dtype' : torch_dtype) (device' : torch_device)
    (r : result unit) :
  _validate_parameters charges cell positions neighbor_indices
    neighbor_distances smearing dtype' device' = r ->
  (frame_ok charges cell positions smearing dtype' device'
   /\ neighbor_checks positions neighbor_indices neighbor_distances device'
      = r)
  \/ (r = Raise (Exception TypeError LenOfZeroDim)
      /\ dtype positions = dtype' /\ device positions = device'
      /\ shape positions = [])
  \/ (exists cls, r = Raise (Exception cls TorchMessage)
        /\ geometry_inputs_ok cell positions dtype' device'
        /\ smearing <> None /\ det cell = Throws cls)
  \/ (exists c, is_frame_check c = true
       /\ r = Raise (Exception (class_of_violation (violation_of c))
                       (GateCheck c))).
Proof.
  intros H. unfold _validate_parameters in H.
  fold (neighbor_checks positions neighbor_indices neighbor_distances
          device') in H.
  destruct r as [[] | e];
    repeat (gate_head H;
            try (lazymatch type of H with
                 | Raise (Exception _ (GateCheck ?c)) = _ =>
                     right; right; right; exists c; split;
                     [ reflexivity | symmetry; exact H ]
                 | Raise (Exception TypeError LenOfZeroDim) = _ =>
                     right; left; split; [ symmetry; exact H | ];
                     split; [ apply dtype_neqb; assumption | ];
                     split; [ apply device_neqb; assumption | reflexivity ]
                 | Raise (Exception ?cls TorchMessage) = _ =>
                     right; right; left; exists cls;
                     split; [ symmetry; exact H | ];
                     split; [ eapply geometry_ok_intro; eassumption | ];
                     split; assumption
                 end));
    try discriminate;
    try (exfalso; eapply rank_2_has_width; eassumption);
    left; (split; [ eapply frame_ok_intro; eassumption | exact H ]).
Qed.

(** A run that ends in an exception stopped at a [raise] of the gate,
    with the class the source gives it, at [len(positions)], at
    [neighbor_indices.shape[1]], or inside [cell.det()]. *)
Lemma gate_exceptions {la : TorchLinalg}
    (charges cell positions neighbor_indices neighbor_distances : Tensor)
    (smearing : option R) (dtype' : torch_dtype) (device' : torch_device)
    (e : py_exception) :
  _validate_parameters charges cell positions neighbor_indices
    neighbor_distances smearing dtype' device' = Raise e ->
  (exists c, e = Exception (class_of_violation (violation_of c)) (GateCheck c))
  \/ (e = Exception TypeError LenOfZeroDim /\ shape positions = [])
  \/ (e = Exception IndexError TupleIndexOutOfRange
      /\ frame_ok charges cell positions smearing dtype' device'
      /\ (dim neighbor_indices < 2)%nat)
  \/ (exists cls, e = Exception cls TorchMessage
        /\ smearing <> None /\ det cell = Throws cls).
Proof.
  intros H.
  destruct (gate_frame_split _ _ _ _ _ _ _ _ _ H)
    as [[Hf Hn] | [(Hr & _ & _ & Hz) | [(x & Hr & _ & Hs & Hd)
                                       | (c & _ & Hr)]]].
  - unfold neighbor_checks in Hn.
    repeat (gate_head Hn;
            try (lazymatch type of Hn with
                 | Raise (Exception _ (GateCheck ?c)) = Raise _ =>
                     inversion Hn; left; exists c; reflexivity
                 end));
      try discriminate.
    all: try solve
           [ exfalso;
             match goal with
             | E : nth_error (_ :: _) 1 = Some _,
               E' : negb (Nat.eqb _ 2) = false |- _ =>
                 cbn in E; apply negb_false_iff, Nat.eqb_eq in E'; congruence
             end ].
    inversion Hn. right. right. left.
    split; [ reflexivity | split; [ exact Hf | ] ].
    match goal with
    | E : nth_error (shape neighbor_indices) 1 = None |- _ =>
        apply nth_error_None in E; unfold dim; lia
    end.
  - inversion Hr. right. left. split; [ reflexivity | exact Hz ].
  - inversion Hr. right. right. right. exists x.
    split; [ reflexivity | split; assumption ].
  - inversion Hr. left. exists c. reflexivity.
Qed.

(** The class of a [raise] of the gate: [TypeError] for the four dtype
    checks, [ValueError] for the twelve others. *)
Lemma gate_check_classes (c : gate_check) :
  (class_of_violation (violation_of c) = TypeError
   <-> c = PositionsDtype \/ c = CellDtype \/ c = ChargesDtype
       \/ c = NeighborDistancesDtype)
  /\ (class_of_violation (violation_of c) = ValueError
      <-> violation_of c <> TypeMismatch)
  /\ (class_of_violation (violation_of c) = TypeError
      <-> violation_of c = TypeMismatch).
Proof.
  destruct c; simpl; repeat split; intros; try tauto; try congruence;
    repeat match goal with
           | H : _ \/ _ |- _ => destruct H
           end; discriminate.
Qed.

(** C10: the exceptions a run of the gate can end in.  One raised by a
    [raise] statement of the gate is a [TypeError] when the check
    compares a dtype (positions, cell, charges, neighbor_distances) and
    a [ValueError] for every device, shape and determinant check.  But
    these two kinds are not all: a run also ends in the [IndexError] of
    [neighbor_indices.shape[1]] when everything before is accepted and
    [neighbor_indices] has rank below 2, in the [TypeError] of
    [len(positions)] for a 0-d [positions] (a shape violation), and in
    whatever [cell.det()] raises. *)
Theorem gate_error_classes {la : TorchLinalg}
    (charges cell positions neighbor_indices neighbor_distances : Tensor)
    (smearing : option R) (dtype' : torch_dtype) (device' : torch_device)
    (e : py_exception) :
  _validate_parameters charges cell positions neighbor_indices
    neighbor_distances smearing dtype' device' = Raise e ->
  (exists c,
     e = Exception (class_of_violation (violation_of c)) (GateCheck c)
     /\ (exc_class e = TypeError <-> violation_of c = TypeMismatch)
     /\ (exc_class e = ValueError <-> violation_of c <> TypeMismatch))
  \/ (e = Exception TypeError LenOfZeroDim /\ shape positions = [])
  \/ (e = Exception IndexError TupleIndexOutOfRange
      /\ frame_ok charges cell positions smearing dtype' device'
      /\ (dim neighbor_indices < 2)%nat)
  \/ (exists cls, e = Exception cls TorchMessage
        /\ smearing <> None /\ det cell = Throws cls).
Proof.
  intros H.
  destruct (gate_exceptions _ _ _ _ _ _ _ _ _ H)
    as [(c & ->) | [Hlen | [Hidx | Hdet]]].
  - left. exists c. split; [ reflexivity | ].
    cbn [exc_class]. destruct (gate_check_classes c) as (_ & Hv & Ht).
    split; assumption.
  - right. left. exact Hlen.
  - right. right. left. exact Hidx.
  - right. right. right. exact Hdet.
Qed.

Lemma gate_error_classes_witness :
  _validate_parameters (la := reference_linalg) sample_charges sample_cell
    sample_positions flat_pairs sample_distances None float64 cpu
  = Raise (Exception IndexError TupleIndexOutOfRange)
  /\ (dim flat_pairs < 2)%nat
  /\ exc_class (Exception IndexError TupleIndexOutOfRange) <> TypeError
  /\ exc_class (Exception IndexError TupleIndexOutOfRange) <> ValueError.
Proof.
  assert (H : _validate_parameters (la := reference_linalg) sample_charges
                sample_cell sample_positions flat_pairs sample_distances
                None float64 cpu
              = Raise (Exception IndexError TupleIndexOutOfRange))
    by reflexivity.
  split; [ exact H | ].
  destruct (gate_error_classes _ _ _ _ _ _ _ _ _ H)
    as [(c & Hc & _) | [(Hl & _) | [(_ & _ & Hr) | (cls & Hc & _)]]];
    try discriminate.
  split; [ exact Hr | split; discriminate ].
Defined.

(** The determinant check is the only one that reports a degenerate
    cell, and it does so only when its condition holds. *)
Lemma gate_determinant_inv {la : TorchLinalg}
    (charges cell positions neighbor_indices neighbor_distances : Tensor)
    (smearing : option R) (dtype' : torch_dtype) (device' : torch_device)
    (e : py_exception) :
  _validate_parameters charges cell positions neighbor_indices
    neighbor_distances smearing dtype' device' = Raise e ->
  exc_message e = GateCheck CellDeterminant ->
  smearing <> None /\ zero_determinant cell.
Proof.
  intros H Hm. unfold _validate_parameters in H.
  repeat (gate_head H;
          try (lazymatch type of H with
               | Raise _ = Raise _ =>
                   inversion H; subst; simpl in Hm;
                   first [ discriminate Hm | idtac ]
               end)).
  - apply determinant_is_zero_true. assumption.
  - discriminate.
Qed.

(** C6: with [positions] and [cell] past their dtype, device and shape
    checks, the gate reports a degenerate geometry exactly when a
    smearing is given and [cell.det()] returns a value equal to zero:
    the determinant as torch computes it in the precision of the cell,
    which is what the gate compares with zero.  When [cell.det()]
    raises, the gate ends in that exception.  With no smearing
    [cell.det()] is not evaluated and no cell is reported, singular or
    not. *)
Theorem degenerate_geometry_iff {la : TorchLinalg}
    (charges cell positions neighbor_indices neighbor_distances : Tensor)
    (smearing : option R) (dtype' : torch_dtype) (device' : torch_device) :
  geometry_inputs_ok cell positions dtype' device' ->
  let outcome :=
    _validate_parameters charges cell positions neighbor_indices
      neighbor_distances smearing dtype' device' in
  (outcome = Raise (Exception ValueError (GateCheck CellDeterminant))
   <-> smearing <> None /\ zero_determinant cell)
  /\ (forall e, outcome = Raise e ->
        exc_message e = GateCheck CellDeterminant ->
        smearing <> None /\ zero_determinant cell)
  /\ (forall cls, smearing <> None -> det cell = Throws cls ->
        outcome = Raise (Exception cls TorchMessage))
  /\ (smearing = None ->
      forall e, outcome = Raise e ->
        exc_message e <> GateCheck CellDeterminant).
Proof.
  intros Hgeo outcome.
  assert (Hat : forall e,
            determinant_is_zero smearing cell = Raise e
            \/ (determinant_is_zero smearing cell = Ok true
                /\ e = Exception ValueError (GateCheck CellDeterminant)) ->
            outcome = Raise e).
  { destruct Hgeo as (Hpt & Hpd & (n & Hps) & Hrest). intros e Hd.
    unfold outcome.
    rewrite (gate_after_geometry _ _ _ _ _ _ _ _ n
               (conj Hpt (conj Hpd (conj (ex_intro _ n Hps) Hrest))) Hps).
    destruct Hd as [-> | (-> & ->)]; reflexivity. }
  split; [ split | split; [ | split ] ].
  - intros H. exact (gate_determinant_inv _ _ _ _ _ _ _ _ _ H eq_refl).
  - intros Hz. apply Hat. right.
    split; [ apply determinant_is_zero_true; exact Hz | reflexivity ].
  - intros e H Hm. exact (gate_determinant_inv _ _ _ _ _ _ _ _ _ H Hm).
  - intros cls Hs Hd. apply Hat. left.
    apply determinant_is_zero_raise. exists cls.
    split; [ reflexivity | split; assumption ].
  - intros Hnone e H Hm.
    destruct (gate_determinant_inv _ _ _ _ _ _ _ _ _ H Hm) as [Hs _].
    contradiction.
Qed.

Lemma sample_geometry_ok (cell : Tensor) :
  dtype cell = float64 -> device cell = cpu -> shape cell = [3%nat; 3%nat] ->
  geometry_inputs_ok cell sample_positions float64 cpu.
Proof.
  intros Ht Hd Hs. repeat split; try assumption.
  exists 2%nat. reflexivity.
Qed.

Lemma sample_cell_det : exact_det sample_cell = 1.
Proof. unfold exact_det, sample_cell. cbn [data nth]. ring. Qed.

Lemma singular_cell_det : exact_det singular_cell = 0.
Proof. unfold exact_det, singular_cell. cbn [data nth]. ring. Qed.

Lemma sample_cell_nonzero_determinant :
  nonzero_determinant (la := reference_linalg) sample_cell.
Proof.
  exists (Finite 1). split.
  - cbn [det reference_linalg dtype sample_cell].
    fold sample_cell. rewrite sample_cell_det. reflexivity.
  - apply Reqb_false. lra.
Qed.

Lemma singular_cell_zero_determinant :
  zero_determinant (la := reference_linalg) singular_cell.
Proof.
  exists (Finite 0). split.
  - cbn [det reference_linalg dtype singular_cell].
    fold singular_cell. rewrite singular_cell_det. reflexivity.
  - apply Reqb_true. reflexivity.
Qed.

Lemma sample_frame_ok (smearing : option R) :
  frame_ok (la := reference_linalg) sample_charges sample_cell
    sample_positions smearing float64 cpu.
Proof.
  split; [ apply sample_geometry_ok; reflexivity | ].
  split; [ right; exact sample_cell_nonzero_determinant | ].
  split; [ exists 2%nat, 1%nat; split; reflexivity | ].
  split; reflexivity.
Qed.

Lemma degenerate_geometry_iff_witness :
  geometry_inputs_ok singular_cell sample_positions float64 cpu
  /\ Some 1 <> None
  /\ zero_determinant (la := reference_linalg) singular_cell
  /\ _validate_parameters (la := reference_linalg) sample_charges
       singular_cell sample_positions sample_pairs sample_distances
       (Some 1) float64 cpu
     = Raise (Exception ValueError (GateCheck CellDeterminant)).
Proof.
  assert (H : geometry_inputs_ok singular_cell sample_positions float64 cpu)
    by (apply sample_geometry_ok; reflexivity).
  assert (Hs : Some 1 <> None) by discriminate.
  split; [ exact H | ]. split; [ exact Hs | ].
  split; [ exact singular_cell_zero_determinant | ].
  exact (proj2 (proj1 (degenerate_geometry_iff (la := reference_linalg)
                         sample_charges singular_cell sample_positions
                         sample_pairs sample_distances (Some 1) float64
                         cpu H))
           (conj Hs singular_cell_zero_determinant)).
Defined.

(** With the determinant of the entries in the place of what
    [cell.det()] returns, the equivalence fails in half precision: the
    sample system with a singular cell, all tensors and the declared
    dtype [float16], passes the checks on [positions] and [cell], a
    smearing is given and the determinant of the entries is zero, yet
    the gate does not end in the degenerate-geometry error but in the
    exception of [cell.det()]. *)
Lemma degenerate_geometry_iff_counterexample :
  let outcome :=
    _validate_parameters (la := reference_linalg) half_charges
      half_singular_cell half_positions sample_pairs half_distances
      (Some 1) float16 cpu in
  geometry_inputs_ok half_singular_cell half_positions float16 cpu
  /\ Some 1 <> None
  /\ exact_det half_singular_cell = 0
  /\ outcome = Raise (Exception NotImplementedError TorchMessage)
  /\ outcome <> Raise (Exception ValueError (GateCheck CellDeterminant)).
Proof.
  intros outcome.
  assert (Ho : outcome = Raise (Exception NotImplementedError TorchMessage))
    by reflexivity.
  split; [ repeat split; exists 2%nat; reflexivity | ].
  split; [ discriminate | ].
  split; [ unfold exact_det, half_singular_cell; cbn [data nth]; ring | ].
  split; [ exact Ho | rewrite Ho; discriminate ].
Qed.

(** A singular cell and no smearing: the sample call goes through. *)
Lemma singular_cell_without_smearing :
  _validate_parameters (la := reference_linalg) sample_charges singular_cell sample_positions
    sample_pairs sample_distances None float64 cpu = Ok tt.
Proof.
  rewrite gate_after_frame.
  - reflexivity.
  - split; [ apply sample_geometry_ok; reflexivity | ].
    split; [ left; reflexivity | ].
    split; [ exists 2%nat, 1%nat; split; reflexivity | ].
    split; reflexivity.
Qed.

(** The calls listed as testable properties of the gate. *)

Example sample_call_passes :
  _validate_parameters (la := reference_linalg) sample_charges sample_cell sample_positions
    sample_pairs sample_distances (Some 1) float64 cpu = Ok tt.
Proof.
  rewrite gate_after_frame by apply sample_frame_ok. reflexivity.
Qed.

Example float32_positions_rejected :
  _validate_parameters (la := reference_linalg) sample_charges sample_cell
    (MkTensor float32 cpu [2%nat; 3%nat] [0; 0; 0; 1; 0; 0])
    sample_pairs sample_distances (Some 1) float64 cpu
  = Raise (Exception TypeError (GateCheck PositionsDtype)).
Proof. reflexivity. Qed.

Example cell_2x2_rejected :
  _validate_parameters (la := reference_linalg) sample_charges
    (MkTensor float64 cpu [2%nat; 2%nat] [1; 0; 0; 1])
    sample_positions sample_pairs sample_distances (Some 1) float64 cpu
  = Raise (Exception ValueError (GateCheck CellShape)).
Proof. reflexivity. Qed.

Example singular_cell_rejected :
  _validate_parameters (la := reference_linalg) sample_charges singular_cell sample_positions
    sample_pairs sample_distances (Some 1) float64 cpu
  = Raise (Exception ValueError (GateCheck CellDeterminant)).
Proof.
  rewrite (gate_after_geometry _ _ _ _ _ _ _ _ 2%nat)
    by (try apply sample_geometry_ok; reflexivity).
  assert (Hs : Some 1 <> None) by discriminate.
  rewrite (proj2 (determinant_is_zero_true (Some 1) singular_cell)
             (conj Hs singular_cell_zero_determinant)).
  reflexivity.
Qed.

Example zero_dim_positions_rejected :
  _validate_parameters (la := reference_linalg) sample_charges sample_cell
    (MkTensor float64 cpu [] [0])
    sample_pairs sample_distances (Some 1) float64 cpu
  = Raise (Exception TypeError LenOfZeroDim).
Proof. reflexivity. Qed.

(** Each of the sixteen [raise] statements of the gate is reached by a
    variant of the sample call, and raises there with the class of its
    kind of violation. *)
Lemma every_gate_check_is_reached (c : gate_check) :
  exists (charges cell positions neighbor_indices neighbor_distances : Tensor)
         (smearing : option R),
    _validate_parameters (la := reference_linalg) charges cell positions
      neighbor_indices neighbor_distances smearing float64 cpu
    = Raise (Exception (class_of_violation (violation_of c)) (GateCheck c)).
Proof.
  pose (gpu := Device "cuda" (Some 0%nat)).
  pose (f32 := fun t => MkTensor float32 (device t) (shape t) (data t)).
  pose (on_gpu := fun t => MkTensor (dtype t) gpu (shape t) (data t)).
  pose (shaped := fun t sh => MkTensor (dtype t) (device t) sh (data t)).
  destruct c.
  - exists sample_charges, sample_cell, (f32 sample_positions), sample_pairs,
      sample_distances, None. reflexivity.
  - exists sample_charges, sample_cell, (on_gpu sample_positions),
      sample_pairs, sample_distances, None. reflexivity.
  - exists sample_charges, sample_cell,
      (shaped sample_positions [2%nat; 2%nat]), sample_pairs,
      sample_distances, None. reflexivity.
  - exists sample_charges, (shaped sample_cell [2%nat; 2%nat]),
      sample_positions, sample_pairs, sample_distances, None. reflexivity.
  - exists sample_charges, (f32 sample_cell), sample_positions, sample_pairs,
      sample_distances, None. reflexivity.
  - exists sample_charges, (on_gpu sample_cell), sample_positions,
      sample_pairs, sample_distances, None. reflexivity.
  - exists sample_charges, singular_cell, sample_positions, sample_pairs,
      sample_distances, (Some 1). exact singular_cell_rejected.
  - exists (shaped sample_charges [2%nat]), sample_cell, sample_positions,
      sample_pairs, sample_distances, None. reflexivity.
  - exists (shaped sample_charges [3%nat; 1%nat]), sample_cell,
      sample_positions, sample_pairs, sample_distances, None. reflexivity.
  - exists (f32 sample_charges), sample_cell, sample_positions, sample_pairs,
      sample_distances, None. reflexivity.
  - exists (on_gpu sample_charges), sample_cell, sample_positions,
      sample_pairs, sample_distances, None. reflexivity.
  - exists sample_charges, sample_cell, sample_positions,
      (shaped sample_pairs [1%nat; 3%nat]), sample_distances, None.
    reflexivity.
  - exists sample_charges, sample_cell, sample_positions,
      (on_gpu sample_pairs), sample_distances, None. reflexivity.
  - exists sample_charges, sample_cell, sample_positions, sample_pairs,
      (shaped sample_distances [2%nat]), None. reflexivity.
  - exists sample_charges, sample_cell, sample_positions, sample_pairs,
      (on_gpu sample_distances), None. reflexivity.
  - exists sample_charges, sample_cell, sample_positions, sample_pairs,
      (f32 sample_distances), None. reflexivity.
Qed.

(** ** neighbor_indices *)

Lemma nth_error_short (l : list nat) (i : nat) :
  (List.length l <= i)%nat -> nth_error l i = None.
Proof. intros H. apply nth_error_None. exact H. Qed.

(** C5: a [neighbor_indices] of rank 0 or 1, with every other input
    valid, does not end in the shape error of the gate: reading
    [neighbor_indices.shape[1]] raises [IndexError] before the check can
    compare anything. *)
Theorem neighbor_indices_rank_below_2 {la : TorchLinalg}
    (charges cell positions neighbor_indices neighbor_distances : Tensor)
    (smearing : option R) (dtype' : torch_dtype) (device' : torch_device) :
  frame_ok charges cell positions smearing dtype' device' ->
  (dim neighbor_indices < 2)%nat ->
  _validate_parameters charges cell positions neighbor_indices
    neighbor_distances smearing dtype' device'
  = Raise (Exception IndexError TupleIndexOutOfRange).
Proof.
  intros Hframe Hrank. rewrite gate_after_frame by exact Hframe.
  unfold neighbor_checks, shape_at.
  rewrite nth_error_short by (unfold dim in Hrank; lia).
  reflexivity.
Qed.

Lemma neighbor_indices_rank_below_2_witness :
  frame_ok (la := reference_linalg) sample_charges sample_cell sample_positions (Some 1) float64 cpu
  /\ (dim flat_pairs < 2)%nat
  /\ _validate_parameters (la := reference_linalg) sample_charges sample_cell sample_positions
       flat_pairs sample_distances (Some 1) float64 cpu
     = Raise (Exception IndexError TupleIndexOutOfRange).
Proof.
  assert (Hr : (dim flat_pairs < 2)%nat) by (unfold dim; simpl; lia).
  split; [ apply sample_frame_ok | split; [ exact Hr | ] ].
  exact (neighbor_indices_rank_below_2 sample_charges sample_cell
           sample_positions flat_pairs sample_distances (Some 1) float64 cpu
           (sample_frame_ok (Some 1)) Hr).
Defined.

(** X4: from rank 2 on, a [neighbor_indices] that is not [[M, 2]] does end in
    a shape error of class [ValueError]: from the width check or, for a
    rank above 2 with second dimension 2, from the comparison with the
    1-d [neighbor_distances]. *)
Lemma neighbor_indices_shape_error_from_rank_2 {la : TorchLinalg}
    (charges cell positions neighbor_indices neighbor_distances : Tensor)
    (smearing : option R) (dtype' : torch_dtype) (device' : torch_device) :
  frame_ok charges cell positions smearing dtype' device' ->
  (2 <= dim neighbor_indices)%nat ->
  (forall m, shape neighbor_indices <> [m; 2%nat]) ->
  device neighbor_indices = device' ->
  distances_ok neighbor_distances dtype' device' ->
  exists c,
    violation_of c = ShapeMismatch
    /\ _validate_parameters charges cell positions neighbor_indices
         neighbor_distances smearing dtype' device'
       = Raise (Exception ValueError (GateCheck c)).
Proof.
  intros Hframe Hrank Hshape Hdev ((k & Hk) & _ & _).
  rewrite gate_after_frame by exact Hframe.
  unfold neighbor_checks, shape_at, column0_shape, dim in *.
  destruct (shape neighbor_indices) as [ | m [ | w rest ] ] eqn:E;
    simpl in Hrank; try lia.
  cbn [nth_error bind].
  destruct (Nat.eqb w 2) eqn:Ew.
  - apply Nat.eqb_eq in Ew. subst w. cbn [negb raise_if bind].
    rewrite (proj2 (device_neqb _ _) Hdev). cbn [raise_if bind].
    exists NeighborShapes. split; [ reflexivity | ].
    rewrite Hk.
    destruct rest as [ | d rest ]; [ exfalso; apply (Hshape m); reflexivity | ].
    assert (Hne : negb (shape_eqb [k] (m :: d :: rest)) = true).
    { apply shape_neqb_true. discriminate. }
    rewrite Hne. reflexivity.
  - exists NeighborIndicesShape. split; reflexivity.
Qed.

(** X5: with [neighbor_indices] of shape [[M, 2]], a
    [neighbor_distances] whose shape is not [[M]] ends in the shape
    error. *)
Lemma neighbor_distances_shape_error {la : TorchLinalg}
    (charges cell positions neighbor_indices neighbor_distances : Tensor)
    (smearing : option R) (dtype' : torch_dtype) (device' : torch_device)
    (m : nat) :
  frame_ok charges cell positions smearing dtype' device' ->
  shape neighbor_indices = [m; 2%nat] ->
  device neighbor_indices = device' ->
  shape neighbor_distances <> [m] ->
  _validate_parameters charges cell positions neighbor_indices
    neighbor_distances smearing dtype' device'
  = Raise (Exception ValueError (GateCheck NeighborShapes)).
Proof.
  intros Hframe Hs Hdev Hne.
  rewrite gate_after_frame by exact Hframe.
  unfold neighbor_checks, shape_at, column0_shape. rewrite Hs.
  cbn [nth_error bind Nat.eqb negb raise_if].
  rewrite (proj2 (device_neqb _ _) Hdev). cbn [raise_if bind].
  rewrite (proj2 (shape_neqb_true _ _) Hne). reflexivity.
Qed.



(* ================================================================== *)
(** * Part III: further properties of the code                         *)
(* ================================================================== *)

(** ** The validation gate, check by check *)

(** The checks on the neighbor data succeed exactly on [neighbors_ok]. *)
Lemma neighbor_checks_ok_iff
    (positions neighbor_indices neighbor_distances : Tensor)
    (dtype' : torch_dtype) (device' : torch_device) :
  dtype positions = dtype' ->
  (neighbor_checks positions neighbor_indices neighbor_distances device'
   = Ok tt
   <-> neighbors_ok neighbor_indices neighbor_distances dtype' device').
Proof.
  intros Hpt. split.
  - intros H. unfold neighbor_checks in H.
    repeat (gate_head H; try discriminate).
    unfold neighbors_ok, column0_shape.
    match goal with
    | Hs : shape neighbor_indices = _ |- _ => rewrite Hs in *
    end.
    repeat match goal with
           | E : negb (Nat.eqb _ _) = false |- _ =>
               apply negb_false_iff, Nat.eqb_eq in E
           | E : negb (device_eqb _ _) = false |- _ => apply device_neqb in E
           | E : negb (dtype_eqb _ _) = false |- _ => apply dtype_neqb in E
           | E : negb (shape_eqb _ _) = false |- _ => apply shape_neqb in E
           end.
    repeat split; congruence.
  - intros (Hw & Hdev & Hcol & Hdd & Hdt).
    unfold neighbor_checks, shape_at. rewrite Hw, Hcol.
    cbn [bind Nat.eqb negb raise_if].
    rewrite (proj2 (device_neqb _ _) Hdev). cbn [raise_if bind].
    rewrite (proj2 (shape_neqb _ _) eq_refl).
    rewrite (proj2 (device_neqb _ _) Hdd).
    rewrite (proj2 (dtype_neqb (dtype neighbor_distances) _)) by congruence.
    reflexivity.
Qed.

(** X1: the gate returns normally exactly when every contract holds:
    [positions] is [[N, 3]], [cell] is [[3, 3]] and, with a smearing,
    [cell.det()] returns a value that is not zero, [charges] is
    [[N, C]], all three of the declared dtype
    and on the declared device, and the neighbor data has width 2,
    matching shapes, the declared device and, for the distances, the
    declared dtype. *)
Theorem gate_accepts_iff {la : TorchLinalg}
    (charges cell positions neighbor_indices neighbor_distances : Tensor)
    (smearing : option R) (dtype' : torch_dtype) (device' : torch_device) :
  _validate_parameters charges cell positions neighbor_indices
    neighbor_distances smearing dtype' device' = Ok tt
  <-> frame_ok charges cell positions smearing dtype' device'
      /\ neighbors_ok neighbor_indices neighbor_distances dtype' device'.
Proof.
  split.
  - intros H.
    destruct (gate_frame_split _ _ _ _ _ _ _ _ _ H)
      as [[Hf Hn] | [[Hr _] | [(x & Hr & _) | (c & _ & Hr)]]];
      try discriminate.
    split; [ exact Hf | ].
    assert (Hpt : dtype positions = dtype') by (destruct Hf as ((Hpt & _) & _); exact Hpt).
    exact (proj1 (neighbor_checks_ok_iff positions _ _ dtype' device' Hpt) Hn).
  - intros [Hf Hn]. rewrite gate_after_frame by exact Hf.
    assert (Hpt : dtype positions = dtype') by (destruct Hf as ((Hpt & _) & _); exact Hpt).
    exact (proj2 (neighbor_checks_ok_iff positions _ _ dtype' device' Hpt) Hn).
Qed.

(** X2: the exceptions Python itself raises inside the gate.  The
    [IndexError] of [shape[1]] comes from a [neighbor_indices] of rank
    below 2 and from nothing else ([charges] is protected by its rank
    test); the read of [neighbor_indices[:, 0]] never fails; the
    [TypeError] of [len] comes from a 0-d [positions] of the declared
    dtype and device and from nothing else. *)
Theorem gate_python_errors {la : TorchLinalg}
    (charges cell positions neighbor_indices neighbor_distances : Tensor)
    (smearing : option R) (dtype' : torch_dtype) (device' : torch_device) :
  let outcome :=
    _validate_parameters charges cell positions neighbor_indices
      neighbor_distances smearing dtype' device' in
  (outcome = Raise (Exception IndexError TupleIndexOutOfRange)
   <-> frame_ok charges cell positions smearing dtype' device'
       /\ (dim neighbor_indices < 2)%nat)
  /\ (forall cls, outcome <> Raise (Exception cls TensorIndexOutOfRange))
  /\ (outcome = Raise (Exception TypeError LenOfZeroDim)
      <-> dtype positions = dtype' /\ device positions = device'
          /\ shape positions = []).
Proof.
  intros outcome. split; [ split | split ].
  - intros H.
    destruct (gate_frame_split _ _ _ _ _ _ _ _ _ H)
      as [[Hf Hn] | [[Hr _] | [(x & Hr & _) | (c & _ & Hr)]]];
      try discriminate.
    split; [ exact Hf | ].
    unfold neighbor_checks in Hn.
    repeat (gate_head Hn; try discriminate).
    match goal with
    | E : nth_error (shape neighbor_indices) 1 = None |- _ =>
        apply nth_error_None in E; unfold dim; lia
    end.
  - intros [Hf Hr]. unfold outcome.
    rewrite gate_after_frame by exact Hf.
    unfold neighbor_checks, shape_at.
    rewrite nth_error_short by (unfold dim in Hr; lia). reflexivity.
  - intros cls H.
    destruct (gate_frame_split _ _ _ _ _ _ _ _ _ H)
      as [[Hf Hn] | [[Hr _] | [(x & Hr & _) | (c & _ & Hr)]]];
      try discriminate.
    unfold neighbor_checks in Hn.
    repeat (gate_head Hn; try discriminate).
    all: match goal with
         | E : nth_error (_ :: _) 1 = Some _,
           E' : negb (Nat.eqb _ 2) = false |- _ =>
             cbn in E; apply negb_false_iff, Nat.eqb_eq in E'; congruence
         end.
  - split.
    + intros H.
      destruct (gate_frame_split _ _ _ _ _ _ _ _ _ H)
        as [[Hf Hn] | [[_ Hz] | [(x & Hr & _) | (c & _ & Hr)]]];
        try discriminate.
      * unfold neighbor_checks in Hn.
        repeat (gate_head Hn; try discriminate).
      * exact Hz.
    + intros (Hpt & Hpd & Hps). unfold outcome, _validate_parameters, len.
      rewrite (proj2 (dtype_neqb _ _) Hpt), (proj2 (device_neqb _ _) Hpd), Hps.
      reflexivity.
Qed.

(** X3: the gate looks at dtypes, devices and shapes, at what
    [cell.det()] returns or raises, and at whether a smearing is given,
    and at nothing else: the entries of [positions], [charges],
    [neighbor_indices] and [neighbor_distances], the entries of [cell]
    beyond what [cell.det()] makes of them, and the value of the
    smearing (its sign included) do not change the outcome. *)
Theorem gate_ignores_values {la : TorchLinalg}
    (charges charges' cell cell' positions positions' : Tensor)
    (neighbor_indices neighbor_indices' : Tensor)
    (neighbor_distances neighbor_distances' : Tensor)
    (smearing smearing' : option R)
    (dtype' : torch_dtype) (device' : torch_device) :
  same_meta charges charges' ->
  same_meta cell cell' ->
  det cell = det cell' ->
  same_meta positions positions' ->
  same_meta neighbor_indices neighbor_indices' ->
  same_meta neighbor_distances neighbor_distances' ->
  (smearing = None <-> smearing' = None) ->
  _validate_parameters charges cell positions neighbor_indices
    neighbor_distances smearing dtype' device'
  = _validate_parameters charges' cell' positions' neighbor_indices'
      neighbor_distances' smearing' dtype' device'.
Proof.
  intros (Hq1 & Hq2 & Hq3) (Hc1 & Hc2 & Hc3) Hdet (Hp1 & Hp2 & Hp3)
    (Hi1 & Hi2 & Hi3) (Hd1 & Hd2 & Hd3) Hs.
  unfold _validate_parameters, determinant_is_zero, len, shape_at,
    column0_shape, dim.
  rewrite Hq1, Hq2, Hq3, Hc1, Hc2, Hc3, Hdet, Hp1, Hp2, Hp3, Hi2, Hi3,
    Hd1, Hd2, Hd3.
  destruct smearing as [v | ], smearing' as [v' | ]; try reflexivity.
  - destruct Hs as [_ Hs]. discriminate (Hs eq_refl).
  - destruct Hs as [Hs _]. discriminate (Hs eq_refl).
Qed.

Lemma gate_ignores_values_witness :
  let wrong_pairs := MkTensor int64 cpu [1%nat; 2%nat] [7; -3] in
  let wrong_distances := MkTensor float64 cpu [1%nat] [-1] in
  let stretched_cell :=
    MkTensor float64 cpu [3%nat; 3%nat] [1; 0; 0; 0; 2; 0; 0; 0; / 2] in
  same_meta sample_charges sample_charges
  /\ same_meta sample_cell stretched_cell
  /\ det (TorchLinalg := reference_linalg) sample_cell
     = det (TorchLinalg := reference_linalg) stretched_cell
  /\ same_meta sample_positions sample_positions
  /\ same_meta sample_pairs wrong_pairs
  /\ same_meta sample_distances wrong_distances
  /\ (Some 1 = None <-> Some (-2) = None)
  /\ _validate_parameters (la := reference_linalg) sample_charges sample_cell sample_positions
       sample_pairs sample_distances (Some 1) float64 cpu
     = _validate_parameters (la := reference_linalg) sample_charges
         stretched_cell sample_positions
         wrong_pairs wrong_distances (Some (-2)) float64 cpu.
Proof.
  intros wrong_pairs wrong_distances stretched_cell.
  assert (Hm : forall t, same_meta t t) by (intros t; repeat split).
  assert (Hc : same_meta sample_cell stretched_cell) by (repeat split).
  assert (Hdet : det (TorchLinalg := reference_linalg) sample_cell
                 = det (TorchLinalg := reference_linalg) stretched_cell).
  { cbn [det reference_linalg dtype sample_cell stretched_cell].
    do 2 f_equal. unfold exact_det, sample_cell, stretched_cell.
    cbn [data nth]. field. }
  assert (Hp : same_meta sample_pairs wrong_pairs) by (repeat split).
  assert (Hd : same_meta sample_distances wrong_distances) by (repeat split).
  assert (Hs : Some 1 = None <-> Some (-2) = None)
    by (split; intros H; discriminate H).
  split; [ apply Hm | ]. split; [ exact Hc | ].
  split; [ exact Hdet | ]. split; [ apply Hm | ].
  split; [ exact Hp | ]. split; [ exact Hd | ]. split; [ exact Hs | ].
  exact (gate_ignores_values (la := reference_linalg) _ _ _ _ _ _ _ _ _ _
           _ _ float64 cpu
           (Hm sample_charges) Hc Hdet
           (Hm sample_positions) Hp Hd Hs).
Defined.

Lemma neighbor_indices_shape_error_from_rank_2_witness :
  let cube := MkTensor int64 cpu [1%nat; 2%nat; 5%nat] [] in
  frame_ok (la := reference_linalg) sample_charges sample_cell sample_positions (Some 1) float64 cpu
  /\ (2 <= dim cube)%nat
  /\ (forall m, shape cube <> [m; 2%nat])
  /\ device cube = cpu
  /\ distances_ok sample_distances float64 cpu
  /\ exists c,
       violation_of c = ShapeMismatch
       /\ _validate_parameters (la := reference_linalg) sample_charges sample_cell sample_positions
            cube sample_distances (Some 1) float64 cpu
          = Raise (Exception ValueError (GateCheck c)).
Proof.
  intros cube.
  assert (Hr : (2 <= dim cube)%nat) by (unfold dim; simpl; lia).
  assert (Hs : forall m, shape cube <> [m; 2%nat]) by (intros m; discriminate).
  assert (Hd : distances_ok sample_distances float64 cpu).
  { split; [ exists 1%nat; reflexivity | split; reflexivity ]. }
  split; [ apply sample_frame_ok | ]. split; [ exact Hr | ].
  split; [ exact Hs | ]. split; [ reflexivity | ]. split; [ exact Hd | ].
  exact (neighbor_indices_shape_error_from_rank_2 sample_charges sample_cell
           sample_positions cube sample_distances (Some 1) float64 cpu
           (sample_frame_ok (Some 1)) Hr Hs eq_refl Hd).
Defined.

Lemma neighbor_distances_shape_error_witness :
  let two_distances := MkTensor float64 cpu [2%nat] [1; 1] in
  frame_ok (la := reference_linalg) sample_charges sample_cell sample_positions (Some 1) float64 cpu
  /\ shape sample_pairs = [1%nat; 2%nat]
  /\ device sample_pairs = cpu
  /\ shape two_distances <> [1%nat]
  /\ _validate_parameters (la := reference_linalg) sample_charges sample_cell sample_positions
       sample_pairs two_distances (Some 1) float64 cpu
     = Raise (Exception ValueError (GateCheck NeighborShapes)).
Proof.
  intros two_distances.
  assert (Hn : shape two_distances <> [1%nat]) by discriminate.
  split; [ apply sample_frame_ok | ]. split; [ reflexivity | ].
  split; [ reflexivity | ]. split; [ exact Hn | ].
  exact (neighbor_distances_shape_error sample_charges sample_cell
           sample_positions sample_pairs two_distances (Some 1) float64 cpu
           1%nat (sample_frame_ok (Some 1)) eq_refl eq_refl Hn).
Defined.

(** X6: [charges] against [positions].  With [positions] and [cell]
    accepted (the determinant test passed or skipped), a [charges] that
    is not 2-d ends in the rank error (its
    [shape[1]] is never read), and a 2-d [charges] whose first dimension
    is not the number of atoms of [positions] ends in the shape error. *)
Theorem charges_shape_errors {la : TorchLinalg}
    (charges cell positions neighbor_indices neighbor_distances : Tensor)
    (smearing : option R) (dtype' : torch_dtype) (device' : torch_device)
    (n : nat) :
  geometry_inputs_ok cell positions dtype' device' ->
  shape positions = [n; 3%nat] ->
  smearing = None \/ nonzero_determinant cell ->
  let outcome :=
    _validate_parameters charges cell positions neighbor_indices
      neighbor_distances smearing dtype' device' in
  (dim charges <> 2%nat ->
   outcome = Raise (Exception ValueError (GateCheck ChargesDim)))
  /\ (forall m c, shape charges = [m; c] -> m <> n ->
        outcome = Raise (Exception ValueError (GateCheck ChargesShape))).
Proof.
  intros Hgeo Hps Hdet outcome.
  assert (Hd := proj2 (determinant_is_zero_false smearing cell) Hdet).
  unfold outcome.
  rewrite (gate_after_geometry _ _ _ _ _ _ _ _ n Hgeo Hps), Hd.
  cbn [raise_if bind]. split.
  - intros Hrank. apply Nat.eqb_neq in Hrank. rewrite Hrank. reflexivity.
  - intros m c Hs Hm. unfold dim, shape_at. rewrite Hs.
    cbn [List.length Nat.eqb negb raise_if bind nth_error].
    assert (Hne : negb (shape_eqb [m; c] [n; c]) = true).
    { apply shape_neqb_true. congruence. }
    rewrite Hne. reflexivity.
Qed.

Lemma charges_shape_errors_witness :
  let three_charges := MkTensor float64 cpu [3%nat; 1%nat] [1; 1; -2] in
  geometry_inputs_ok sample_cell sample_positions float64 cpu
  /\ shape sample_positions = [2%nat; 3%nat]
  /\ (Some 1 = None \/ nonzero_determinant (la := reference_linalg)
                          sample_cell)
  /\ _validate_parameters (la := reference_linalg) three_charges sample_cell sample_positions
       sample_pairs sample_distances (Some 1) float64 cpu
     = Raise (Exception ValueError (GateCheck ChargesShape)).
Proof.
  intros three_charges.
  assert (Hg : geometry_inputs_ok sample_cell sample_positions float64 cpu)
    by (apply sample_geometry_ok; reflexivity).
  assert (Hd : Some 1 = None
               \/ nonzero_determinant (la := reference_linalg) sample_cell)
    by (right; exact sample_cell_nonzero_determinant).
  assert (Hn : 3%nat <> 2%nat) by lia.
  split; [ exact Hg | ]. split; [ reflexivity | ]. split; [ exact Hd | ].
  exact (proj2 (charges_shape_errors three_charges sample_cell
                  sample_positions sample_pairs sample_distances (Some 1)
                  float64 cpu 2%nat Hg eq_refl Hd)
           3%nat 1%nat eq_refl Hn).
Defined.

(** X7: the determinant step, exactly.  The degenerate-geometry error
    is raised exactly when [positions] and [cell] pass their dtype,
    device and shape checks, a smearing is given and [cell.det()]
    returns zero; and the gate ends in an exception of [cell.det()]
    exactly when both tensors pass those checks, a smearing is given and
    [cell.det()] raises it. *)
Theorem degenerate_geometry_exactly {la : TorchLinalg}
    (charges cell positions neighbor_indices neighbor_distances : Tensor)
    (smearing : option R) (dtype' : torch_dtype) (device' : torch_device) :
  let outcome :=
    _validate_parameters charges cell positions neighbor_indices
      neighbor_distances smearing dtype' device' in
  (outcome = Raise (Exception ValueError (GateCheck CellDeterminant))
   <-> geometry_inputs_ok cell positions dtype' device'
       /\ smearing <> None /\ zero_determinant cell)
  /\ (forall cls,
        outcome = Raise (Exception cls TorchMessage)
        <-> geometry_inputs_ok cell positions dtype' device'
            /\ smearing <> None /\ det cell = Throws cls).
Proof.
  intros outcome.
  assert (Hat : geometry_inputs_ok cell positions dtype' device' ->
            forall e,
              determinant_is_zero smearing cell = Raise e
              \/ (determinant_is_zero smearing cell = Ok true
                  /\ e = Exception ValueError (GateCheck CellDeterminant)) ->
              outcome = Raise e).
  { intros (Hpt & Hpd & (n & Hps) & Hrest) e Hd. unfold outcome.
    rewrite (gate_after_geometry _ _ _ _ _ _ _ _ n
               (conj Hpt (conj Hpd (conj (ex_intro _ n Hps) Hrest))) Hps).
    destruct Hd as [-> | (-> & ->)]; reflexivity. }
  split; [ | intros cls ]; split.
  - intros H.
    assert (Hd := gate_determinant_inv _ _ _ _ _ _ _ _ _ H eq_refl).
    split; [ | exact Hd ].
    unfold outcome, _validate_parameters in H.
    do 7 (gate_head H; try discriminate).
    gate_head H;
      [ | solve [ repeat (gate_head H; try discriminate) ] | discriminate ].
    eapply geometry_ok_intro; eassumption.
  - intros (Hgeo & Hz). apply (Hat Hgeo). right.
    split; [ apply determinant_is_zero_true; exact Hz | reflexivity ].
  - intros H.
    destruct (gate_frame_split _ _ _ _ _ _ _ _ _ H)
      as [[Hf Hn] | [[Hr _] | [(x & Hr & Hgeo & Hs & Hd) | (c & _ & Hr)]]];
      try discriminate.
    + unfold neighbor_checks in Hn.
      repeat (gate_head Hn; try discriminate).
    + inversion Hr. subst x. split; [ exact Hgeo | split; assumption ].
  - intros (Hgeo & Hs & Hd). apply (Hat Hgeo). left.
    apply determinant_is_zero_raise. exists cls.
    split; [ reflexivity | split; assumption ].
Qed.

(** ** The declared device *)

(** X8: [_get_device] returns a device in normal form: never a ["cuda"]
    device without an index; a device that already has an index or is
    not a ["cuda"] device is returned as it is, so the function is
    idempotent, whatever the default device. *)
Theorem get_device_normal_form
    (default_device default_device' : torch_device)
    (device_arg : option torch_device) :
  let d := _get_device default_device device_arg in
  (dev_type d = "cuda"%string -> dev_index d <> None)
  /\ _get_device default_device' (Some d) = d
  /\ (forall x, device_arg = Some x ->
        dev_type x <> "cuda"%string \/ dev_index x <> None -> d = x)
  /\ (device_arg = Some (Device "cuda" None) ->
      d = Device "cuda" (Some 0%nat)).
Proof.
  assert (Hnorm : forall x : torch_device,
            (dev_type x <> "cuda"%string \/ dev_index x <> None) ->
            (String.eqb (dev_type x) "cuda"
             && index_eqb (dev_index x) None)%bool = false).
  { intros [ty ix] [H | H]; cbn [dev_type dev_index] in *.
    - apply String.eqb_neq in H. rewrite H. reflexivity.
    - destruct ix; [ apply andb_false_r | contradiction ]. }
  intros d.
  assert (Hd : dev_type d <> "cuda"%string \/ dev_index d <> None).
  { unfold d, _get_device.
    destruct (String.eqb _ "cuda" && index_eqb _ None)%bool eqn:E.
    - right. discriminate.
    - apply andb_false_iff in E. destruct E as [E | E].
      + left. apply String.eqb_neq. exact E.
      + right. intros Hn. rewrite Hn in E. discriminate. }
  split; [ | split; [ | split ] ].
  - intros Ht. destruct Hd as [H | H]; [ contradiction | exact H ].
  - unfold _get_device at 1. rewrite (Hnorm d Hd). reflexivity.
  - intros x -> Hx. unfold d, _get_device. rewrite (Hnorm x Hx). reflexivity.
  - intros ->. reflexivity.
Qed.

(** X9: why the index is added.  A run against the device that
    [_get_device] makes of ["cuda"] is a run against ["cuda:0"], so
    tensors on ["cuda:0"] are compared with their own device; against
    the bare ["cuda"] device a [positions] on ["cuda:0"] is rejected at
    its device check. *)
Theorem get_device_then_gate {la : TorchLinalg}
    (charges cell positions neighbor_indices neighbor_distances : Tensor)
    (smearing : option R) (dtype' : torch_dtype)
    (default_device : torch_device) :
  dtype positions = dtype' ->
  device positions = Device "cuda" (Some 0%nat) ->
  let declared := _get_device default_device (Some (Device "cuda" None)) in
  device positions = declared
  /\ _validate_parameters charges cell positions neighbor_indices
       neighbor_distances smearing dtype' declared
     <> Raise (Exception ValueError (GateCheck PositionsDevice))
  /\ _validate_parameters charges cell positions neighbor_indices
       neighbor_distances smearing dtype' (Device "cuda" None)
     = Raise (Exception ValueError (GateCheck PositionsDevice)).
Proof.
  intros Hpt Hpd declared.
  assert (Hdecl : declared = Device "cuda" (Some 0%nat)) by reflexivity.
  split; [ congruence | split ].
  - intros H. unfold _validate_parameters in H.
    rewrite (proj2 (dtype_neqb _ _) Hpt) in H.
    rewrite (proj2 (device_neqb (device positions) declared))
      in H by congruence.
    cbn [raise_if bind] in H.
    repeat (gate_head H; try discriminate).
  - unfold _validate_parameters.
    rewrite (proj2 (dtype_neqb _ _) Hpt), Hpd. reflexivity.
Qed.

Lemma get_device_then_gate_witness :
  let gpu := Device "cuda" (Some 0%nat) in
  let positions := MkTensor float64 gpu [2%nat; 3%nat] [0; 0; 0; 1; 0; 0] in
  dtype positions = float64
  /\ device positions = gpu
  /\ _validate_parameters (la := reference_linalg) sample_charges sample_cell positions sample_pairs
       sample_distances (Some 1) float64 (Device "cuda" None)
     = Raise (Exception ValueError (GateCheck PositionsDevice)).
Proof.
  intros gpu positions.
  split; [ reflexivity | ]. split; [ reflexivity | ].
  exact (proj2 (proj2 (get_device_then_gate sample_charges sample_cell
                         positions sample_pairs sample_distances (Some 1)
                         float64 cpu eq_refl eq_refl))).
Defined.

(** ** Values of the Gamma functions *)

(** The algebra of the reduction formula. *)
Lemma sin_power_step (M P s c : R) :
  c * c = 1 - s * s -> M + 2 <> 0 ->
  - (1 / (M + 2)) * (((M + 1) * P * c) * c + (s * P) * (- s))
  + (M + 1) / (M + 2) * P = s * (s * P).
Proof.
  intros Hc HM.
  replace ((M + 1) * P * c * c) with ((M + 1) * P * (c * c)) by ring.
  rewrite Hc. field. exact HM.
Qed.

Lemma cos_sqr (x : R) : cos x * cos x = 1 - sin x * sin x.
Proof. assert (H := sin2_cos2 x). unfold Rsqr in H. lra. Qed.

(** [sin_power_primitive n] is a primitive of [sin^n]. *)
Lemma sin_power_primitive_derivative (n : nat) (x : R) :
  derivable_pt_lim (sin_power_primitive n) x (sin x ^ n)
  /\ derivable_pt_lim (sin_power_primitive (S n)) x (sin x ^ S n).
Proof.
  induction n as [ | n [IH0 IH1] ].
  - split.
    + apply (derivable_pt_lim_ext id); [ reflexivity | ].
      simpl. apply derivable_pt_lim_id.
    + apply (derivable_pt_lim_ext (- cos)%F); [ reflexivity | ].
      replace (sin x ^ 1) with (- - sin x) by (simpl; ring).
      apply derivable_pt_lim_opp, derivable_pt_lim_cos.
  - split; [ exact IH1 | ].
    assert (Hn : 0 <= INR n) by apply pos_INR.
    assert (Hpow : derivable_pt_lim (fun y => sin y ^ S n) x
                     (INR (S n) * sin x ^ n * cos x)).
    { apply (derivable_pt_lim_ext (comp (fun y => y ^ S n) sin));
        [ reflexivity | ].
      apply derivable_pt_lim_comp; [ apply derivable_pt_lim_sin | ].
      apply (derivable_pt_lim_pow (sin x) (S n)). }
    assert (Hprod := derivable_pt_lim_mult _ _ _ _ _ Hpow
                       (derivable_pt_lim_cos x)).
    assert (H1 := derivable_pt_lim_scal _ (- (1 / (INR n + 2))) _ _ Hprod).
    assert (H2 := derivable_pt_lim_scal _ ((INR n + 1) / (INR n + 2)) _ _ IH0).
    assert (H := derivable_pt_lim_plus _ _ _ _ _ H1 H2).
    apply (derivable_pt_lim_ext _ (sin_power_primitive (S (S n)))) in H;
      [ | intros z; reflexivity ].
    replace (sin x ^ S (S n)) with
      (- (1 / (INR n + 2)) *
       (INR (S n) * sin x ^ n * cos x * cos x + sin x ^ S n * - sin x)
       + (INR n + 1) / (INR n + 2) * sin x ^ n); [ exact H | ].
    rewrite S_INR. simpl.
    apply sin_power_step; [ apply cos_sqr | lra ].
Qed.

Lemma wallis_integral_0 : wallis_integral 0 = PI / 2.
Proof. unfold wallis_integral. simpl. ring. Qed.

Lemma wallis_integral_1 : wallis_integral 1 = 1.
Proof. unfold wallis_integral. simpl. rewrite cos_PI2, cos_0. ring. Qed.

(** The recurrence [I (n+2) = (n+1)/(n+2) * I n] of the integrals. *)
Lemma wallis_integral_step (n : nat) :
  wallis_integral (S (S n)) = (INR n + 1) / (INR n + 2) * wallis_integral n.
Proof.
  unfold wallis_integral. cbn [sin_power_primitive].
  rewrite cos_PI2, sin_0. simpl. ring.
Qed.

Lemma wallis_integral_pos (n : nat) :
  0 < wallis_integral n /\ 0 < wallis_integral (S n).
Proof.
  induction n as [ | n [IH0 IH1] ].
  - rewrite wallis_integral_0, wallis_integral_1.
    assert (H := PI_RGT_0). lra.
  - split; [ exact IH1 | ].
    rewrite wallis_integral_step.
    assert (Hn : 0 <= INR n) by apply pos_INR.
    apply Rmult_lt_0_compat; [ | exact IH0 ].
    apply Rdiv_lt_0_compat; lra.
Qed.

(** [(n+1) * I n * I (n+1) = pi/2]. *)
Lemma wallis_integral_product (n : nat) :
  (INR n + 1) * wallis_integral n * wallis_integral (S n) = PI / 2.
Proof.
  induction n as [ | n IH ].
  - rewrite wallis_integral_0, wallis_integral_1. simpl. ring.
  - rewrite wallis_integral_step, S_INR, <- IH.
    assert (Hn : 0 <= INR n) by apply pos_INR. field. lra.
Qed.

(** On [[0, pi/2]], [sin^(n+1) <= sin^n]: the integrals decrease. *)
Lemma wallis_integral_decreasing (n : nat) :
  wallis_integral (S n) <= wallis_integral n.
Proof.
  set (G := fun x => sin_power_primitive n x - sin_power_primitive (S n) x).
  assert (HG : forall x, derivable_pt_lim G x (sin x ^ n - sin x ^ S n)).
  { intros x. destruct (sin_power_primitive_derivative n x) as [H0 H1].
    apply (derivable_pt_lim_minus _ _ _ _ _ H0 H1). }
  set (pr := fun x => exist (fun l => derivable_pt_abs G x l) _ (HG x)
             : derivable_pt G x).
  assert (Hpi := PI_RGT_0).
  assert (Hmono : G 0 <= G (PI / 2)).
  { apply (derive_increasing_interv_var 0 (PI / 2) G pr); try lra.
    intros t [Ht0 Ht1].
    rewrite (derive_pt_eq_0 _ _ _ (pr t) (HG t)).
    assert (Hs : 0 < sin t) by (apply sin_gt_0; lra).
    assert (Hb := SIN_bound t).
    assert (Hp : 0 <= sin t ^ n) by (apply pow_le; lra).
    simpl. nra. }
  unfold G in Hmono. unfold wallis_integral. lra.
Qed.

Lemma wallis_odd_integral (n : nat) :
  wallis_odd n = wallis_integral (S (2 * n)).
Proof.
  induction n as [ | n IH ].
  - simpl. rewrite wallis_integral_1. reflexivity.
  - replace (S (2 * S n)) with (S (S (S (2 * n)))) by lia.
    rewrite wallis_integral_step, <- IH.
    unfold wallis_odd. cbn [prod_from1].
    rewrite !S_INR, mult_INR, S_INR. simpl INR.
    assert (Hn : 0 <= INR n) by apply pos_INR.
    field. lra.
Qed.

(** Wallis' product, as a two-sided bound. *)
Lemma wallis_odd_bounds (n : nat) :
  PI <= 4 * (INR n + 1) * (wallis_odd n * wallis_odd n)
     <= PI + PI / (INR n + 1).
Proof.
  assert (Hn : 0 <= INR n) by apply pos_INR.
  rewrite wallis_odd_integral.
  set (m := (2 * n)%nat).
  assert (Hm : INR m = 2 * INR n) by (unfold m; rewrite mult_INR; simpl; ring).
  assert (Hlo := wallis_integral_decreasing (S m)).
  assert (Hhi := wallis_integral_decreasing m).
  assert (P1 := wallis_integral_product m).
  assert (P2 := wallis_integral_product (S m)).
  rewrite S_INR, Hm in P2. rewrite Hm in P1.
  destruct (wallis_integral_pos m) as [I0 I1].
  destruct (wallis_integral_pos (S m)) as [_ I2].
  set (a := wallis_integral (S m)) in *.
  set (b := wallis_integral m) in *.
  set (c := wallis_integral (S (S m))) in *.
  assert (Hpi := PI_RGT_0).
  split.
  - (* a*a >= a*c = PI / (2 (2n+2)) *)
    assert (H : a * c <= a * a) by nra.
    assert (E : 4 * (INR n + 1) * (a * c) = PI) by nra.
    nra.
  - assert (H : a * a <= b * a) by nra.
    assert (E : (2 * INR n + 1) * (b * a) = PI / 2) by nra.
    assert (E' : b * a = PI / (2 * (2 * INR n + 1))).
    { apply (Rmult_eq_reg_l (2 * INR n + 1)); [ | lra ].
      rewrite E. field. lra. }
    apply Rle_trans with (4 * (INR n + 1) * (b * a)).
    + apply Rmult_le_compat_l; [ lra | exact H ].
    + rewrite E'.
      replace (4 * (INR n + 1) * (PI / (2 * (2 * INR n + 1))))
        with (PI + PI / (2 * INR n + 1)) by (field; lra).
      apply Rplus_le_compat_l. unfold Rdiv.
      apply Rmult_le_compat_l; [ lra | ].
      apply Rinv_le_contravar; lra.
Qed.

(** Euler's partial products at [1/2]. *)
Lemma euler_prod_half (n : nat) :
  euler_prod (/ 2) n = 2 * sqrt (INR n + 1) * wallis_odd n.
Proof.
  induction n as [ | n IH ].
  - unfold euler_prod, wallis_odd. simpl.
    rewrite Rplus_0_l, sqrt_1. field.
  - unfold euler_prod, wallis_odd in *. cbn [prod_from1].
    rewrite <- Rmult_assoc, IH.
    assert (Hn : 0 <= INR n) by apply pos_INR.
    assert (Hs : 0 < sqrt (INR n + 1)) by (apply sqrt_lt_R0; lra).
    unfold euler_factor. rewrite Rpower_sqrt, !S_INR.
    2:{ rewrite S_INR. assert (0 < / (INR n + 1)) by (apply Rinv_0_lt_compat; lra). lra. }
    replace (1 + / (INR n + 1)) with ((INR n + 1 + 1) / (INR n + 1))
      by (field; lra).
    rewrite sqrt_div_alt by lra.
    field. split; lra.
Qed.

(** [Gamma (1/2) = sqrt pi]. *)
Theorem Gamma_half : Gamma (/ 2) = sqrt PI.
Proof.
  assert (Hg := Gamma_pos (/ 2) ltac:(lra)).
  assert (Hcv := Gamma_cv (/ 2) ltac:(lra)).
  assert (Hpi := PI_RGT_0).
  assert (Hsq := CV_mult _ _ _ _ Hcv Hcv). cbv beta in Hsq.
  assert (Heq : forall n, euler_prod (/ 2) n * euler_prod (/ 2) n
                          = 4 * (INR n + 1) * (wallis_odd n * wallis_odd n)).
  { intros n. rewrite euler_prod_half.
    assert (Hn : 0 <= INR n) by apply pos_INR.
    replace (2 * sqrt (INR n + 1) * wallis_odd n *
             (2 * sqrt (INR n + 1) * wallis_odd n))
      with (4 * (sqrt (INR n + 1) * sqrt (INR n + 1))
            * (wallis_odd n * wallis_odd n)) by ring.
    rewrite sqrt_sqrt by lra. reflexivity. }
  assert (Hlow : PI <= Gamma (/ 2) * Gamma (/ 2)).
  { apply Rle_cv_lim with
      (Un := fun _ : nat => PI)
      (Vn := fun n => euler_prod (/ 2) n * euler_prod (/ 2) n);
      [ | apply cv_const | exact Hsq ].
    intros n. rewrite Heq. apply wallis_odd_bounds. }
  assert (Hhigh : Gamma (/ 2) * Gamma (/ 2) - PI * 0 <= PI).
  { apply Rle_cv_lim with
      (Un := fun n => euler_prod (/ 2) n * euler_prod (/ 2) n
                      - PI * / (INR n + 1))
      (Vn := fun _ : nat => PI);
      [ | | apply cv_const ].
    - intros n. rewrite Heq.
      assert (H := proj2 (wallis_odd_bounds n)). unfold Rdiv in H. lra.
    - apply CV_minus; [ exact Hsq | ].
      apply CV_mult; [ apply cv_const | apply inv_succ_cv ]. }
  apply eq_sym, sqrt_lem_1; lra.
Qed.

(** At the pole [0] every partial product is [0] (with [/ 0 = 0]), and
    so is the limit; [gammaln_log_abs_gamma] asks nothing there. *)
Lemma Gamma_0 : Gamma 0 = 0.
Proof.
  unfold Gamma. apply lim_seq_eq. intros eps He. exists 0%nat. intros n _.
  unfold euler_prod. rewrite Rinv_0, Rmult_0_l, R_dist_eq. exact He.
Qed.

(** [Gamma (n+1) = n!]. *)
Lemma Gamma_fact (n : nat) : Gamma (INR n + 1) = INR (fact n).
Proof.
  induction n as [ | n IH ].
  - simpl. rewrite Rplus_0_l. apply Gamma_1.
  - assert (Hn : 0 <= INR n) by apply pos_INR.
    rewrite S_INR, (Gamma_succ (INR n + 1)) by lra.
    rewrite IH, fact_simpl, mult_INR, S_INR. reflexivity.
Qed.

(** At [a = 1] the power series of [P] is the exponential series,
    shifted by one term. *)
Lemma lower_series_1 (x : R) (N : nat) :
  x * sum_f_R0 (fun n => x ^ n / Gamma (1 + INR n + 1)) N = E1 x (S N) - 1.
Proof.
  assert (Hg : forall n, Gamma (1 + INR n + 1) = INR (fact (S n))).
  { intros n. rewrite <- Gamma_fact, S_INR. f_equal. ring. }
  unfold E1. induction N as [ | N IH ].
  - cbn [sum_f_R0]. rewrite Hg. simpl. field.
  - cbn [sum_f_R0] in *. rewrite Rmult_plus_distr_l, IH, Hg.
    simpl pow. field. split; apply INR_fact_neq_0.
Qed.

(** [P(1, x) = 1 - e^(-x)]. *)
Lemma reg_lower_gamma_1 (x : R) : 0 < x -> reg_lower_gamma 1 x = 1 - exp (- x).
Proof.
  intros Hx. unfold reg_lower_gamma. rewrite (Rltb_true _ _ Hx).
  rewrite (lim_seq_eq _ ((exp x - 1) / x)).
  - rewrite Rpower_1 by exact Hx.
    replace (x * exp (- x) * ((exp x - 1) / x))
      with (exp (- x) * exp x - exp (- x)) by (field; lra).
    rewrite <- exp_plus, Rplus_opp_l, exp_0. reflexivity.
  - intros eps He.
    assert (He' : 0 < eps * x) by (apply Rmult_lt_0_compat; assumption).
    destruct (E1_cvg x (eps * x) He') as [N0 HN]. exists N0. intros n Hn.
    specialize (HN (S n) ltac:(lia)). unfold R_dist in *.
    assert (E : sum_f_R0 (fun n0 => x ^ n0 / Gamma (1 + INR n0 + 1)) n
                = (E1 x (S n) - 1) / x).
    { rewrite <- lower_series_1. field. lra. }
    rewrite E.
    replace ((E1 x (S n) - 1) / x - (exp x - 1) / x)
      with ((E1 x (S n) - exp x) / x) by (field; lra).
    unfold Rdiv. rewrite Rabs_mult, (Rabs_pos_eq (/ x)).
    2:{ left. apply Rinv_0_lt_compat. exact Hx. }
    apply (Rmult_lt_reg_r x); [ exact Hx | ].
    rewrite Rmult_assoc, Rinv_l, Rmult_1_r by lra. exact HN.
Qed.

(** [pi ** 1.5], as [from_k_sq] has it in its prefactor. *)
Lemma Rpower_PI_three_halves : Rpower PI 1.5 = PI * sqrt PI.
Proof.
  assert (Hpi := PI_RGT_0).
  replace 1.5 with (1 + / 2) by lra.
  rewrite Rpower_plus, Rpower_1, Rpower_sqrt by lra. reflexivity.
Qed.

(** No product with [+inf] is finite. *)
Lemma tmul_PInf_not_finite (t : tval) (v : R) : tmul t PInf <> Finite v.
Proof.
  destruct t as [r | | | ]; cbn; try discriminate.
  unfold scale_inf. destruct (Rltb 0 r), (Rltb r 0); discriminate.
Qed.

(** The reference instance meets the further contracts. *)
Lemma reference_special_lower_regularized :
  gammainc_regularized reference_special.
Proof.
  intros a x Ha Hx. cbn [gammainc reference_special].
  rewrite (Rltb_true 0 a Ha), (Rleb_true 0 x Hx). reflexivity.
Qed.

Lemma reference_special_pole_0 : gammaln_pole reference_special 0.
Proof.
  unfold gammaln_pole. cbn [gammaln reference_special INR].
  rewrite Ropp_0, Gamma_0, (Reqb_true 0 0 eq_refl). reflexivity.
Qed.

(** ** The inverse power law potential *)

Section PowerLaw.

Import InversePowerLawPotential.

Context {sp : TorchSpecial}.

(** A method that computes a kernel returns a new tensor of the length
    of its input, and leaves the input as it was. *)
Lemma computes_fresh (m : MethodCall.tensor_ref -> MethodCall.prog MethodCall.tensor_ref)
    (kernel : InversePowerLawPotential.t -> tval -> tval)
    (s : MethodCall.store) (a : MethodCall.tensor_ref) :
  MethodCall.computes m kernel ->
  (a < List.length (MethodCall.storages s))%nat ->
  let (r, s') := m a s in
  r <> a
  /\ (List.length (MethodCall.storages s) <= r)%nat
  /\ List.length (MethodCall.deref s' r) = List.length (MethodCall.deref s a)
  /\ MethodCall.deref s' a = MethodCall.deref s a.
Proof.
  intros Hm Ha. generalize (Hm s a Ha). destruct (m a s) as [r s'].
  intros ((_ & _ & Hold) & Hr & Hv).
  split; [ lia | split; [ lia | split ] ].
  - rewrite Hv. apply length_map.
  - apply Hold. exact Ha.
Qed.

(** X10: each of the five evaluators of the inverse power law, called
    on a tensor of the store, returns a tensor that was not in the store
    before (so never its input), with as many entries as the input, and
    leaves the entries of the input as they were: no evaluator works in
    place, as [from_dist_with_pow_] does. *)
Theorem evaluators_return_fresh_tensors
    (s : MethodCall.store) (a : MethodCall.tensor_ref) :
  (a < List.length (MethodCall.storages s))%nat ->
  Forall (fun m : MethodCall.tensor_ref -> MethodCall.prog MethodCall.tensor_ref =>
            let (r, s') := m a s in
            r <> a
            /\ (List.length (MethodCall.storages s) <= r)%nat
            /\ List.length (MethodCall.deref s' r)
               = List.length (MethodCall.deref s a)
            /\ MethodCall.deref s' a = MethodCall.deref s a)
    [MethodCall.from_dist; MethodCall.from_dist_sq; MethodCall.sr_from_dist;
     MethodCall.lr_from_dist; MethodCall.from_k_sq].
Proof.
  intros Ha.
  repeat (apply Forall_cons; [ | ]); [ | | | | | apply Forall_nil ].
  - exact (computes_fresh _ _ s a from_dist_computes Ha).
  - exact (computes_fresh _ _ s a from_dist_sq_computes Ha).
  - exact (computes_fresh _ _ s a sr_from_dist_computes Ha).
  - exact (computes_fresh _ _ s a lr_from_dist_computes Ha).
  - exact (computes_fresh _ _ s a from_k_sq_computes Ha).
Qed.


(** X12: at the exponents [p = 3, 5, 7, ...] the effective exponent
    [(3 - p) / 2] is a pole [0, -1, -2, ...] of the Gamma function.
    With [gammaln] returning [+inf] there, [gamma(peff)] is [+inf] and
    [from_k_sq] returns no finite value at any [k^2 <> 0], whatever the
    smearing and whatever [gammaincc] returns. *)
Theorem from_k_sq_at_poles (n : nat) (sigma : tval) (k v : R) :
  gammaln_pole sp n ->
  k <> 0 ->
  from_k_sq1 (Build (Finite (3 + 2 * INR n)) sigma) (Finite k) <> Finite v.
Proof.
  intros Hpole Hk.
  assert (Hpeff : tdiv (tsub (Finite 3) (Finite (3 + 2 * INR n))) (Finite 2)
                  = Finite (- INR n)).
  { unfold tsub. cbn [tneg tadd]. rewrite tdiv_finite by lra.
    f_equal. lra. }
  assert (Hg : gamma (Finite (- INR n)) = PInf).
  { unfold gamma. rewrite Hpole. reflexivity. }
  unfold from_k_sq1. cbn [exponent smearing]. cbv zeta.
  unfold twhere0, teq0. rewrite (Reqb_false k 0 Hk).
  rewrite Hpeff, Hg. apply tmul_PInf_not_finite.
Qed.

(** X13: over exact real arithmetic (no rounding, overflow or
    underflow), the two implementations of [from_dist_sq] agree on
    positive squared distances: the inherited
    [RangeSeparatedPotential.from_dist_sq], which takes the square root
    and adds the short-range and long-range parts, returns what the
    override [InversePowerLawPotential.from_dist_sq] computes as
    [dist_sq ** (-p / 2)] (with [gammainc] and [gammaincc] summing
    to 1). *)
Theorem inherited_from_dist_sq_agrees (p sigma : R) (dist_sq : tensor) :
  incomplete_gamma_complement sp ->
  0 < p -> 0 < sigma ->
  Forall positive dist_sq ->
  let self := Build (Finite p) (Finite sigma) in
  RangeSeparatedPotential.from_dist_sq (sr_from_dist self) (lr_from_dist self)
    dist_sq
  = from_dist_sq self dist_sq.
Proof.
  intros Hc Hp Hsigma Hpos self.
  unfold RangeSeparatedPotential.from_dist_sq, sr_from_dist, lr_from_dist,
    from_dist_sq, torch_sqrt.
  cbn [bind]. rewrite !map_map, tensor_add_map. f_equal.
  apply map_ext_in. intros d Hd.
  rewrite Forall_forall in Hpos. specialize (Hpos d Hd).
  destruct d as [r | | | ]; try contradiction. simpl in Hpos.
  assert (Hs : 0 < sqrt r) by (apply sqrt_lt_R0; exact Hpos).
  unfold tsqrt. rewrite (Rltb_false r 0) by lra.
  unfold self. rewrite (sr_plus_lr_elementwise Hc p sigma Hp Hsigma) by exact Hs.
  unfold from_dist_sq1. cbn [exponent tneg].
  rewrite tdiv_finite, tpow_pos by lra.
  rewrite Rpower_sqrt_half by exact Hpos. reflexivity.
Qed.

(** X14: over exact real arithmetic (no rounding), the helper
    [gamma(x) = exp(gammaln(x))], with [gammaln] the logarithm of the
    absolute value of the Gamma function, is the factorial at the
    positive integers, [gamma(n + 1) = n!], and satisfies
    [gamma(x + 1) = x * gamma(x)] for [x > 0]. *)
Theorem gamma_at_integers :
  gammaln_log_abs_gamma sp ->
  (forall n : nat, gamma (Finite (INR n + 1)) = Finite (INR (fact n)))
  /\ (forall x : R, 0 < x ->
        gamma (Finite (x + 1)) = tmul (Finite x) (gamma (Finite x))).
Proof.
  intros Hln. split.
  - intros n.
    assert (Hf : 0 < INR (fact n)) by apply INR_fact_lt_0.
    rewrite (gamma_abs Hln) by (rewrite Gamma_fact; lra).
    rewrite Gamma_fact, Rabs_pos_eq by lra. reflexivity.
  - intros x Hx.
    assert (H0 := Gamma_pos x Hx).
    assert (H1 := Gamma_pos (x + 1) ltac:(lra)).
    rewrite !(gamma_abs Hln) by lra.
    rewrite tmul_finite, !Rabs_pos_eq by lra.
    rewrite Gamma_succ by exact Hx. reflexivity.
Qed.

(** X15: the split in closed form at exponent 2, over exact real
    arithmetic (no rounding, overflow or underflow).  With [gammainc]
    and [gammaincc] the regularized incomplete Gamma functions, the
    short-range part of [1/r^2] is [exp(-r^2 / (2 sigma^2)) / r^2] and
    the long-range part is [(1 - exp(-r^2 / (2 sigma^2))) / r^2]. *)
Theorem gaussian_split_at_exponent_2 (sigma r : R) :
  gammainc_regularized sp -> gammaincc_regularized sp ->
  0 < sigma -> 0 < r ->
  let self := Build (Finite 2) (Finite sigma) in
  let g := exp (- (r * r) / (2 * (sigma * sigma))) in
  sr_from_dist1 self (Finite r) = Finite (g / (r * r))
  /\ lr_from_dist1 self (Finite r) = Finite ((1 - g) / (r * r)).
Proof.
  intros Hinc Hincc Hsigma Hr self g.
  assert (Hs2 : 0 < sigma * sigma) by nra.
  assert (Hr2 : 0 < r * r) by nra.
  set (x := 0.5 * (r * r) / (sigma * sigma)).
  assert (Hx : 0 < x) by (unfold x; apply Rdiv_lt_0_compat; lra).
  assert (Hg : exp (- x) = g).
  { unfold g, x. f_equal. rewrite half_eq. field. lra. }
  assert (Hxs : x * (2 * (sigma * sigma)) = r * r).
  { unfold x. rewrite half_eq. field. lra. }
  unfold sr_from_dist1, lr_from_dist1, self. cbn [exponent smearing]. cbv zeta.
  rewrite (split_parts 2 sigma Hsigma r gammaincc Hr),
    (split_parts 2 sigma Hsigma r gammainc Hr).
  fold x. replace (2 / 2) with 1 by lra.
  rewrite (Hinc 1 x), (Hincc 1 x) by lra.
  rewrite reg_upper_gamma_pos_arg, reg_lower_gamma_1, Hg by lra.
  rewrite !Rpower_1 by lra.
  rewrite !tmul_finite, !tdiv_finite by lra.
  split; f_equal; rewrite <- Hxs; field; split; lra.
Qed.


(** X17: over exact real arithmetic (a single zero, no rounding,
    overflow or underflow), the full potential [from_dist] for an
    exponent [p > 0] is [+inf] at distance 0, [0] at distance [+inf],
    and in between finite, positive and strictly decreasing in the
    distance. *)
Theorem full_potential_shape (p : R) (sigma : tval) :
  0 < p ->
  let self := Build (Finite p) sigma in
  from_dist1 self (Finite 0) = PInf
  /\ from_dist1 self PInf = Finite 0
  /\ forall r1 r2, 0 < r1 -> r1 < r2 ->
       exists v1 v2,
         from_dist1 self (Finite r1) = Finite v1
         /\ from_dist1 self (Finite r2) = Finite v2
         /\ 0 < v2 < v1.
Proof.
  intros Hp self. unfold from_dist1, self. cbn [exponent tneg].
  split; [ | split ].
  - unfold tpow. rewrite (Reqb_false (- p) 0) by lra.
    rewrite (Rltb_false 0 0) by lra.
    rewrite (Reqb_true 0 0 eq_refl), (Rltb_false 0 (- p)) by lra.
    reflexivity.
  - unfold tpow. rewrite (Reqb_false (- p) 0) by lra.
    rewrite (Rltb_false 0 (- p)) by lra. reflexivity.
  - intros r1 r2 H1 H2.
    exists (Rpower r1 (- p)), (Rpower r2 (- p)).
    rewrite !tpow_pos by lra.
    split; [ reflexivity | ]. split; [ reflexivity | ].
    split; [ apply Rpower_pos | ].
    unfold Rpower. apply exp_increasing.
    assert (Hl : ln r1 < ln r2) by (apply ln_increasing; lra).
    nra.
Qed.

(** X18: the distance and the smearing enter the short-range part, the
    long-range part and the Fourier transform only through their
    squares.  So the two parts are even in the distance, and the two
    parts and the Fourier transform are unchanged when the smearing
    changes sign, whatever the exponent and the primitives.  The full
    potential is not even: at exponent 1 it is [-1/r] at the distance
    [-r]. *)
Theorem parts_even_in_distance_and_smearing (p : tval) (sigma r : R)
    (k : tval) :
  let self := Build p (Finite sigma) in
  let mirrored := Build p (Finite (- sigma)) in
  (sr_from_dist1 self (Finite (- r)) = sr_from_dist1 self (Finite r)
   /\ lr_from_dist1 self (Finite (- r)) = lr_from_dist1 self (Finite r))
  /\ (sr_from_dist1 mirrored (Finite r) = sr_from_dist1 self (Finite r)
      /\ lr_from_dist1 mirrored (Finite r) = lr_from_dist1 self (Finite r)
      /\ from_k_sq1 mirrored k = from_k_sq1 self k)
  /\ (0 < r ->
      from_dist1 (Build (Finite 1) (Finite sigma)) (Finite (- r))
      = Finite (- / r)).
Proof.
  intros self mirrored.
  unfold sr_from_dist1, lr_from_dist1, from_k_sq1, self, mirrored.
  cbn [exponent smearing]. cbv zeta. rewrite !tpow_2.
  replace (- sigma * - sigma) with (sigma * sigma) by ring.
  replace (- r * - r) with (r * r) by ring.
  split; [ split; reflexivity | ].
  split; [ split; [ reflexivity | split; reflexivity ] | ].
  intros Hr. unfold from_dist1. cbn [exponent tneg]. unfold tpow.
  assert (Hint : Int_part (- (1)) = (-1)%Z).
  { symmetry. apply Int_part_spec. simpl. lra. }
  assert (His : is_int (- (1)) = true).
  { unfold is_int. rewrite Hint. apply Reqb_true. simpl. lra. }
  rewrite (Reqb_false (- (1)) 0) by lra.
  rewrite (Rltb_false 0 (- r)) by lra.
  rewrite (Reqb_false (- r) 0) by lra.
  unfold odd_int. rewrite His, Hint. cbn [andb Z.odd].
  rewrite Ropp_involutive, Rpower_Ropp, Rpower_1 by exact Hr.
  f_equal. ring.
Qed.

(** X19: over exact real arithmetic (no rounding, overflow or
    underflow), for an exponent [p > 0], a smearing [sigma > 0] and a
    distance [r > 0], with [gammainc] and [gammaincc] the regularized
    incomplete Gamma functions, both parts are finite, the long-range part is not
    negative, the short-range part is at most the full potential
    [r^(-p)], and the two add up to it. *)
Theorem split_bounds (p sigma r : R) :
  gammainc_regularized sp -> gammaincc_regularized sp ->
  0 < p -> 0 < sigma -> 0 < r ->
  let self := Build (Finite p) (Finite sigma) in
  exists s l : R,
    sr_from_dist1 self (Finite r) = Finite s
    /\ lr_from_dist1 self (Finite r) = Finite l
    /\ 0 <= l
    /\ s <= Rpower r (- p)
    /\ s + l = Rpower r (- p).
Proof.
  intros Hinc Hincc Hp Hsigma Hr self.
  assert (Hs2 : 0 < sigma * sigma) by nra.
  set (x := 0.5 * (r * r) / (sigma * sigma)).
  assert (Hx : 0 < x) by (unfold x; apply Rdiv_lt_0_compat; nra).
  assert (HP := reg_lower_gamma_nonneg (p / 2) x ltac:(lra)).
  assert (HX := Rpower_pos x (p / 2)).
  assert (HA := Rpower_pos (2 * (sigma * sigma)) (p / 2)).
  assert (Hfull : Rpower r (- p)
                  = 1 / Rpower (2 * (sigma * sigma)) (p / 2)
                    / Rpower x (p / 2)).
  { rewrite Rpower_Ropp, <- (power_split p sigma Hsigma r Hr). fold x.
    field. split; lra. }
  assert (Hl : 0 <= 1 / Rpower (2 * (sigma * sigma)) (p / 2)
                    * reg_lower_gamma (p / 2) x / Rpower x (p / 2)).
  { apply Rmult_le_pos; [ | left; apply Rinv_0_lt_compat; exact HX ].
    apply Rmult_le_pos; [ | exact HP ].
    left. apply Rdiv_lt_0_compat; lra. }
  unfold sr_from_dist1, lr_from_dist1, self. cbn [exponent smearing]. cbv zeta.
  rewrite (split_parts p sigma Hsigma r gammaincc Hr),
    (split_parts p sigma Hsigma r gammainc Hr).
  fold x. rewrite (Hinc (p / 2) x), (Hincc (p / 2) x) by lra.
  rewrite reg_upper_gamma_pos_arg by lra.
  rewrite !tmul_finite, !tdiv_finite by lra.
  eexists. eexists. split; [ reflexivity | ]. split; [ reflexivity | ].
  split; [ exact Hl | ].
  assert (Hsum : 1 / Rpower (2 * (sigma * sigma)) (p / 2)
                 * (1 - reg_lower_gamma (p / 2) x) / Rpower x (p / 2)
                 + 1 / Rpower (2 * (sigma * sigma)) (p / 2)
                   * reg_lower_gamma (p / 2) x / Rpower x (p / 2)
                 = Rpower r (- p)).
  { rewrite Hfull. field. split; lra. }
  split; [ lra | exact Hsum ].
Qed.


End PowerLaw.

Lemma evaluators_return_fresh_tensors_witness :
  let s := MethodCall.Store
             (InversePowerLawPotential.Build (Finite 1) (Finite 1))
             [[Finite 1; Finite 4]] in
  (0 < List.length (MethodCall.storages s))%nat
  /\ let (r, s') := MethodCall.from_k_sq (sp := reference_special) 0%nat s in
     r <> 0%nat
     /\ (1 <= r)%nat
     /\ List.length (MethodCall.deref s' r) = 2%nat
     /\ MethodCall.deref s' 0%nat = [Finite 1; Finite 4].
Proof.
  intros s.
  assert (H : (0 < List.length (MethodCall.storages s))%nat)
    by (simpl; lia).
  split; [ exact H | ].
  assert (Hall := evaluators_return_fresh_tensors (sp := reference_special)
                    s 0%nat H).
  do 4 apply Forall_inv_tail in Hall.
  exact (Forall_inv Hall).
Defined.


Lemma from_k_sq_at_poles_witness :
  gammaln_pole reference_special 0
  /\ 1 <> 0
  /\ InversePowerLawPotential.from_k_sq1 (sp := reference_special)
       (InversePowerLawPotential.Build (Finite (3 + 2 * INR 0)) (Finite 1))
       (Finite 1)
     <> Finite 0.
Proof.
  split; [ exact reference_special_pole_0 | ].
  split; [ exact R1_neq_R0 | ].
  exact (from_k_sq_at_poles (sp := reference_special) 0 (Finite 1) 1 0
           reference_special_pole_0 R1_neq_R0).
Defined.

Lemma inherited_from_dist_sq_agrees_witness :
  let self := InversePowerLawPotential.Build (Finite 2) (Finite 1) in
  incomplete_gamma_complement reference_special
  /\ 0 < 2
  /\ 0 < 1
  /\ Forall positive [Finite 4; Finite 9]
  /\ RangeSeparatedPotential.from_dist_sq
       (InversePowerLawPotential.sr_from_dist (sp := reference_special) self)
       (InversePowerLawPotential.lr_from_dist (sp := reference_special) self)
       [Finite 4; Finite 9]
     = InversePowerLawPotential.from_dist_sq self [Finite 4; Finite 9].
Proof.
  intros self.
  assert (H2 : 0 < 2) by lra.
  assert (Hpos : Forall positive [Finite 4; Finite 9]).
  { repeat constructor; simpl; lra. }
  split; [ exact reference_special_complement | ].
  split; [ exact H2 | ]. split; [ exact Rlt_0_1 | ]. split; [ exact Hpos | ].
  exact (inherited_from_dist_sq_agrees (sp := reference_special) 2 1
           [Finite 4; Finite 9] reference_special_complement H2 Rlt_0_1 Hpos).
Defined.

Lemma gamma_at_integers_witness :
  gammaln_log_abs_gamma reference_special
  /\ gamma (sp := reference_special) (Finite (INR 3 + 1))
     = Finite (INR (fact 3)).
Proof.
  split; [ exact reference_special_log_abs | ].
  exact (proj1 (gamma_at_integers (sp := reference_special)
                  reference_special_log_abs) 3%nat).
Defined.

Lemma gaussian_split_at_exponent_2_witness :
  let self := InversePowerLawPotential.Build (Finite 2) (Finite 1) in
  gammainc_regularized reference_special
  /\ gammaincc_regularized reference_special
  /\ 0 < 1
  /\ InversePowerLawPotential.sr_from_dist1 (sp := reference_special) self
       (Finite 1)
     = Finite (exp (- (1 * 1) / (2 * (1 * 1))) / (1 * 1)).
Proof.
  intros self.
  split; [ exact reference_special_lower_regularized | ].
  split; [ exact reference_special_regularized | ].
  split; [ exact Rlt_0_1 | ].
  exact (proj1 (gaussian_split_at_exponent_2 (sp := reference_special) 1 1
                  reference_special_lower_regularized
                  reference_special_regularized Rlt_0_1 Rlt_0_1)).
Defined.


Lemma full_potential_shape_witness :
  let self := InversePowerLawPotential.Build (Finite 1) (Finite 1) in
  0 < 1
  /\ InversePowerLawPotential.from_dist1 self (Finite 0) = PInf
  /\ InversePowerLawPotential.from_dist1 self PInf = Finite 0.
Proof.
  intros self. split; [ exact Rlt_0_1 | ].
  destruct (full_potential_shape 1 (Finite 1) Rlt_0_1) as (H0 & Hinf & _).
  split; [ exact H0 | exact Hinf ].
Defined.

Lemma parts_even_in_distance_and_smearing_witness :
  let self := InversePowerLawPotential.Build (Finite 1) (Finite 1) in
  let mirrored := InversePowerLawPotential.Build (Finite 1) (Finite (- (1))) in
  0 < 2
  /\ InversePowerLawPotential.sr_from_dist1 (sp := reference_special)
       self (Finite (- (2)))
     = InversePowerLawPotential.sr_from_dist1 (sp := reference_special)
         self (Finite 2)
  /\ InversePowerLawPotential.sr_from_dist1 (sp := reference_special)
       mirrored (Finite 2)
     = InversePowerLawPotential.sr_from_dist1 (sp := reference_special)
         self (Finite 2)
  /\ InversePowerLawPotential.from_dist1 self (Finite (- (2)))
     = Finite (- / 2).
Proof.
  intros self mirrored.
  assert (H2 : 0 < 2) by lra.
  destruct (parts_even_in_distance_and_smearing (sp := reference_special)
              (Finite 1) 1 2 (Finite 2))
    as ((Hsr & _) & (Hsr' & _) & Hfull).
  split; [ exact H2 | ].
  split; [ exact Hsr | split; [ exact Hsr' | exact (Hfull H2) ] ].
Defined.

(** ** Sample runs of the gate *)

Lemma gate_accepts_iff_witness :
  frame_ok (la := reference_linalg) sample_charges sample_cell sample_positions (Some 1) float64 cpu
  /\ neighbors_ok sample_pairs sample_distances float64 cpu
  /\ _validate_parameters (la := reference_linalg) sample_charges sample_cell sample_positions
       sample_pairs sample_distances (Some 1) float64 cpu
     = Ok tt.
Proof.
  assert (Hn : neighbors_ok sample_pairs sample_distances float64 cpu).
  { split; [ reflexivity | ]. split; [ reflexivity | ].
    split; [ reflexivity | ]. split; reflexivity. }
  split; [ apply sample_frame_ok | ]. split; [ exact Hn | ].
  exact (proj2 (gate_accepts_iff sample_charges sample_cell sample_positions
                  sample_pairs sample_distances (Some 1) float64 cpu)
           (conj (sample_frame_ok (Some 1)) Hn)).
Defined.

Lemma gate_python_errors_witness :
  frame_ok (la := reference_linalg) sample_charges sample_cell sample_positions (Some 1) float64 cpu
  /\ (dim flat_pairs < 2)%nat
  /\ _validate_parameters (la := reference_linalg) sample_charges sample_cell sample_positions
       flat_pairs sample_distances (Some 1) float64 cpu
     = Raise (Exception IndexError TupleIndexOutOfRange).
Proof.
  assert (Hd : (dim flat_pairs < 2)%nat) by (unfold dim; simpl; lia).
  split; [ apply sample_frame_ok | ]. split; [ exact Hd | ].
  exact (proj2 (proj1 (gate_python_errors sample_charges sample_cell
                         sample_positions flat_pairs sample_distances
                         (Some 1) float64 cpu))
           (conj (sample_frame_ok (Some 1)) Hd)).
Defined.

Lemma degenerate_geometry_exactly_witness :
  geometry_inputs_ok singular_cell sample_positions float64 cpu
  /\ Some 1 <> None
  /\ zero_determinant (la := reference_linalg) singular_cell
  /\ _validate_parameters (la := reference_linalg) sample_charges
       singular_cell sample_positions sample_pairs sample_distances
       (Some 1) float64 cpu
     = Raise (Exception ValueError (GateCheck CellDeterminant)).
Proof.
  assert (Hg : geometry_inputs_ok singular_cell sample_positions float64 cpu)
    by (apply sample_geometry_ok; reflexivity).
  assert (Hs : Some 1 <> None) by discriminate.
  split; [ exact Hg | ]. split; [ exact Hs | ].
  split; [ exact singular_cell_zero_determinant | ].
  exact (proj2 (proj1 (degenerate_geometry_exactly (la := reference_linalg)
                         sample_charges singular_cell sample_positions
                         sample_pairs sample_distances (Some 1) float64
                         cpu))
           (conj Hg (conj Hs singular_cell_zero_determinant))).
Defined.

Lemma get_device_normal_form_witness :
  _get_device cpu (Some (Device "cuda" None)) = Device "cuda" (Some 0%nat)
  /\ _get_device cpu (Some (_get_device cpu None)) = _get_device cpu None.
Proof.
  split.
  - exact (proj2 (proj2 (proj2
             (get_device_normal_form cpu cpu (Some (Device "cuda" None)))))
             eq_refl).
  - exact (proj1 (proj2 (get_device_normal_form cpu cpu None))).
Defined.

(** ** Further sample runs of the potentials *)

Lemma split_bounds_witness :
  let self := InversePowerLawPotential.Build (Finite 1) (Finite 1) in
  gammainc_regularized reference_special
  /\ gammaincc_regularized reference_special
  /\ 0 < 1
  /\ exists s l : R,
       InversePowerLawPotential.sr_from_dist1 (sp := reference_special) self
         (Finite 1) = Finite s
       /\ InversePowerLawPotential.lr_from_dist1 (sp := reference_special)
            self (Finite 1) = Finite l
       /\ 0 <= l
       /\ s <= Rpower 1 (- (1))
       /\ s + l = Rpower 1 (- (1)).
Proof.
  intros self.
  split; [ exact reference_special_lower_regularized | ].
  split; [ exact reference_special_regularized | ].
  split; [ exact Rlt_0_1 | ].
  exact (split_bounds (sp := reference_special) 1 1 1
           reference_special_lower_regularized
           reference_special_regularized Rlt_0_1 Rlt_0_1 Rlt_0_1).
Defined.

